(** * Globe scene renderer: scene construction and per-frame update

    A shallow embedding of the two globe renderers of the portfolio site:
    the uniform-random variant ([src/unnamed/part_000], module [Uniform])
    and the Fibonacci-sphere variant ([src/unnamed/part_002], module
    [Fibonacci]), together with the texture loader that both files end with.

    Conventions.
    - JavaScript numbers are idealised as real numbers: rounding is not
      modelled.  The one non-finite value the geometry code can produce,
      the NaN that [Math.acos] returns outside [-1,1], is modelled
      explicitly ([Math_acos], [js_point]).
    - Two pieces of [animate] use only [+ - * / sqrt <] and are embedded
      over binary64 floats as well: the rotation accumulators (module
      [Accumulator]), where the sums round, and the star ripple of the
      Fibonacci variant (module [StarRipple]), where [0/0] is NaN.
    - [Math.random()] is a stream [random : nat -> R] read through a cursor
      that every call advances.
    - The three.js vector operations are transcribed from the library
      ([Vector3], [Euler]). *)

From Stdlib Require Import Reals Lra Lia List ZArith Bool Psatz String RNsatz.
From Stdlib Require Import QArith.
From Stdlib Require Floats.
Import ListNotations.
Local Open Scope R_scope.

(** ** three.js [Vector3] *)

Module Vector3.

Record t : Type := mk { x : R; y : R; z : R }.

Definition zero : t := mk 0 0 0.

Definition dot (a v : t) : R := x a * x v + y a * y v + z a * z v.

Definition lengthSq (a : t) : R := x a * x a + y a * y a + z a * z a.

Definition length (a : t) : R := sqrt (x a * x a + y a * y a + z a * z a).

Definition distanceToSquared (a v : t) : R :=
  let dx := x a - x v in
  let dy := y a - y v in
  let dz := z a - z v in
  dx * dx + dy * dy + dz * dz.

Definition distanceTo (a v : t) : R := sqrt (distanceToSquared a v).

Definition multiplyScalar (a : t) (s : R) : t :=
  mk (x a * s) (y a * s) (z a * s).

(** [divideScalar(s)] is [multiplyScalar(1 / s)]. *)
Definition divideScalar (a : t) (s : R) : t := multiplyScalar a (1 / s).

Definition addScaledVector (a v : t) (s : R) : t :=
  mk (x a + x v * s) (y a + y v * s) (z a + z v * s).

(** [normalize()] is [divideScalar(length() || 1)]: a zero length is
    falsy, so the zero vector is divided by 1. *)
Definition normalize (a : t) : t :=
  divideScalar a (if Req_dec_T (length a) 0 then 1 else length a).

Definition lerp (a v : t) (alpha : R) : t :=
  mk (x a + (x v - x a) * alpha)
     (y a + (y v - y a) * alpha)
     (z a + (z v - z a) * alpha).

(** [applyAxisAngle(axis, angle)]: the quaternion of
    [setFromAxisAngle] followed by [applyQuaternion]. *)
Definition applyAxisAngle (v axis : t) (angle : R) : t :=
  let halfAngle := angle / 2 in
  let s := sin halfAngle in
  let qx := x axis * s in
  let qy := y axis * s in
  let qz := z axis * s in
  let qw := cos halfAngle in
  let tx := 2 * (qy * z v - qz * y v) in
  let ty := 2 * (qz * x v - qx * z v) in
  let tz := 2 * (qx * y v - qy * x v) in
  mk (x v + qw * tx + qy * tz - qz * ty)
     (y v + qw * ty + qz * tx - qx * tz)
     (z v + qw * tz + qx * ty - qy * tx).

End Vector3.

Definition vec3 : Type := Vector3.t.

(** ** three.js [Euler] rotation of an [Object3D]

    The world position of a child of a group whose [rotation] is the
    Euler triple [(rx, ry, rz)] in the default order XYZ: the entries of
    [Matrix4.makeRotationFromEuler] applied to the local position. *)

Module Euler.

Definition apply (rx ry rz : R) (v : vec3) : vec3 :=
  let a := cos rx in
  let b := sin rx in
  let c := cos ry in
  let d := sin ry in
  let e := cos rz in
  let f := sin rz in
  let ae := a * e in
  let af := a * f in
  let be := b * e in
  let bf := b * f in
  let te0 := c * e in
  let te4 := - c * f in
  let te8 := d in
  let te1 := af + be * d in
  let te5 := ae - bf * d in
  let te9 := - b * c in
  let te2 := bf - ae * d in
  let te6 := be + af * d in
  let te10 := a * c in
  Vector3.mk
    (te0 * Vector3.x v + te4 * Vector3.y v + te8 * Vector3.z v)
    (te1 * Vector3.x v + te5 * Vector3.y v + te9 * Vector3.z v)
    (te2 * Vector3.x v + te6 * Vector3.y v + te10 * Vector3.z v).

End Euler.

(** ** [Math] *)

(** [Math.acos]: NaN ([None]) outside [-1,1]. *)
Definition Math_acos (v : R) : option R :=
  if Rle_dec (-1) v then if Rle_dec v 1 then Some (acos v) else None else None.

(** [Math.floor], as an integer. *)
Definition Math_floor (v : R) : Z := Int_part v.

(** ** [Math.random()] as a stream with a cursor *)

Definition Gen (A : Type) : Type := nat -> A * nat.

Definition ret {A} (a : A) : Gen A := fun c => (a, c).

Definition bind {A B} (m : Gen A) (k : A -> Gen B) : Gen B :=
  fun c => let (a, c') := m c in k a c'.

Notation "x <- m ;; k" := (bind m (fun x => k))
  (at level 61, m at next level, right associativity).

Fixpoint mapM {A B} (f : A -> Gen B) (l : list A) : Gen (list B) :=
  match l with
  | [] => ret []
  | a :: l' => b <- f a ;; bs <- mapM f l' ;; ret (b :: bs)
  end.

(** A point pushed to a line geometry: every coordinate is NaN, or it is a
    vector of numbers. *)
Inductive js_point : Type :=
| NaNPoint
| Point (v : vec3).

(** One turn of a great-circle interpolation loop: the turn pushed nothing
    ([continue], or the guarded body was not entered), or it evaluated the
    two quotients by [sinAngle] and pushed a point. *)
Inductive interp_step : Type :=
| Skipped
| Pushed (p : js_point).

Definition pushed_points (l : list interp_step) : list js_point :=
  flat_map (fun s => match s with Skipped => [] | Pushed p => [p] end) l.

(** The parameters [k / steps] for [k = 0 .. steps]. *)
Definition parameters (steps : nat) : list R :=
  map (fun k => INR k / INR steps) (seq 0 (S steps)).

(** ** The uniform-random variant *)

(** [new THREE.Vector3().addScaledVector(pos1, a).addScaledVector(pos2, b)]. *)
Definition combination (pos1 pos2 : vec3) (a b : R) : vec3 :=
  Vector3.addScaledVector (Vector3.addScaledVector Vector3.zero pos1 a) pos2 b.

(** The direction of an interpolated point before it is raised to its
    altitude: the combination with the two quotients [a] and [b] of the
    loops, normalised. *)
Definition greatCircleDirection (pos1 pos2 : vec3) (angle sinAngle t : R) : vec3 :=
  let a := sin ((1 - t) * angle) / sinAngle in
  let b := sin (t * angle) / sinAngle in
  Vector3.normalize (combination pos1 pos2 a b).

Module Uniform.

Record NodeData : Type := mkNode {
  basePosition : vec3;
  pulsePhase : R;
  pulseSpeed : R;
  index : nat
}.

(** A line of the [connections] array: its [userData], the points of its
    geometry and the opacity of its material. *)
Record Connection : Type := mkConnection {
  node1 : nat;
  node2 : nat;
  connPulsePhase : R;
  connPulseSpeed : R;
  isLongArc : bool;
  geometry : list js_point;
  opacity : R
}.

(** An instance matrix of the node mesh: its scale and its position. *)
Record Instance : Type := mkInstance {
  scale : R;
  position : vec3
}.

(** A satellite dot: its [userData], its position and the emissive
    intensity of its material. *)
Record Satellite : Type := mkSatellite {
  ringIndex : nat;
  angle : R;
  speed : R;
  inclination : R;
  dotPosition : vec3;
  dotEmissiveIntensity : R
}.

Record FlowLine : Type := mkFlowLine {
  flowPulsePhase : R;
  flowSpeed : R;
  flowPulseSpeed : R;
  flowOpacity : R
}.

(** The state that [animate] reads and writes. *)
Record Scene : Type := mkScene {
  frameCount : nat;
  time : R;
  earthRotationY : R;
  positions : list NodeData;
  instances : list Instance;
  emissiveIntensity : R;
  satellites : list Satellite;
  connections : list Connection;
  flowLines : list FlowLine;
  starsRotationY : R
}.

Section Build.

Variable random : nat -> R.

Definition Math_random : Gen R := fun c => (random c, S c).

(** The body of the node loop of [initEarth].  [Math.random() * 2 - 1]
    lies in [-1,1), where [Math.acos] is [acos]. *)
Definition createNode (i : nat) : Gen NodeData :=
  u_theta <- Math_random ;;
  u_phi <- Math_random ;;
  let theta := u_theta * PI * 2 in
  let phi := acos (u_phi * 2 - 1) in
  let radius := 1.005 in
  let x := radius * sin phi * cos theta in
  let y := radius * sin phi * sin theta in
  let z := radius * cos phi in
  u_phase <- Math_random ;;
  u_speed <- Math_random ;;
  ret (mkNode (Vector3.mk x y z) (u_phase * PI * 2) (0.3 + u_speed * 0.4) i).

Definition nodeCount : nat := 600.

Definition createNodes : Gen (list NodeData) :=
  mapM createNode (seq 0 nodeCount).

(** *** Connections *)

Section Connections.

Variable nodePositions : list NodeData.

Definition defaultNode : NodeData := mkNode Vector3.zero 0 0 0.

(** [nodePositions[i].basePosition]; every index used below is in
    range. *)
Definition positionOf (i : nat) : vec3 :=
  basePosition (nth i nodePositions defaultNode).

(** One turn of the interpolation loops of [initEarth].  When the dot
    product is outside [-1,1] the angle and its sine are NaN, the test
    [sinAngle < 0.001] is false, and the quotients, hence the point,
    are NaN. *)
Definition buildStep (pos1 pos2 : vec3) (altitude t : R) : interp_step :=
  match Math_acos (Vector3.dot pos1 pos2) with
  | None => Pushed NaNPoint
  | Some angle =>
      let sinAngle := sin angle in
      if Rlt_dec sinAngle 0.001 then Skipped
      else Pushed (Point (Vector3.multiplyScalar
                            (greatCircleDirection pos1 pos2 angle sinAngle t)
                            altitude))
  end.

Definition maxConnections : nat := 800.

(** The body of the inner loop over [j]; the state is the array
    [connections] and the counter [connectionCount]. *)
Definition tryConnect (i j : nat) (st : list Connection * nat)
  : Gen (list Connection * nat) :=
  let pos1 := positionOf i in
  let pos2 := positionOf j in
  let distance := Vector3.distanceTo pos1 pos2 in
  if Rlt_dec distance 0.5 then
    u <- Math_random ;;
    if Rgt_dec u 0.85 then
      let steps := 15%nat in
      let points := pushed_points (map (buildStep pos1 pos2 1.004) (parameters steps)) in
      u_phase <- Math_random ;;
      u_speed <- Math_random ;;
      let line := mkConnection i j (u_phase * PI * 2) (0.5 + u_speed * 0.5)
                               false points 0.6 in
      ret (fst st ++ [line], S (snd st))
    else ret st
  else ret st.

(** [for (j = i + 1; j < length && connectionCount < maxConnections; j++)],
    over the indices [j] still to visit. *)
Fixpoint forJ (i : nat) (js : list nat) (st : list Connection * nat)
  : Gen (list Connection * nat) :=
  match js with
  | [] => ret st
  | j :: js' =>
      if (snd st <? maxConnections)%nat
      then st' <- tryConnect i j st ;; forJ i js' st'
      else ret st
  end.

(** [for (i = 0; i < length && connectionCount < maxConnections; i++)]. *)
Fixpoint forI (n : nat) (idxs : list nat) (st : list Connection * nat)
  : Gen (list Connection * nat) :=
  match idxs with
  | [] => ret st
  | i :: idxs' =>
      if (snd st <? maxConnections)%nat
      then st' <- forJ i (seq (S i) (n - S i)) st ;; forI n idxs' st'
      else ret st
  end.

Definition createConnections : Gen (list Connection * nat) :=
  let n := List.length nodePositions in
  forI n (seq 0 n) ([], 0%nat).

(** *** Long arcs *)

(** [Math.floor(Math.random() * nodePositions.length)]. *)
Definition randomIndex : Gen nat :=
  u <- Math_random ;;
  ret (Z.to_nat (Math_floor (u * INR (List.length nodePositions)))).

(** [while (distance < 1.2 && attempts < 10) { idx2 = ...; attempts++ }].
    [budget] is [10 - attempts]: the recursion is on the attempts
    left.  The result is the final [idx2] and the final [attempts]. *)
Fixpoint resample (budget idx1 idx2 attempts : nat) : Gen (nat * nat) :=
  match budget with
  | O => ret (idx2, attempts)
  | S budget' =>
      if Rlt_dec (Vector3.distanceTo (positionOf idx1) (positionOf idx2)) 1.2
      then idx2' <- randomIndex ;; resample budget' idx1 idx2' (S attempts)
      else ret (idx2, attempts)
  end.

(** The body of the long-arc loop.  Besides the line it returns the
    final value of the local [attempts]. *)
Definition createLongArc : Gen (Connection * nat) :=
  idx1 <- randomIndex ;;
  idx2 <- randomIndex ;;
  r <- resample 10 idx1 idx2 0 ;;
  let idx2 := fst r in
  let attempts := snd r in
  let pos1 := positionOf idx1 in
  let pos2 := positionOf idx2 in
  let arcSteps := 25%nat in
  let arcPoints := pushed_points (map (buildStep pos1 pos2 1.006) (parameters arcSteps)) in
  u_phase <- Math_random ;;
  u_speed <- Math_random ;;
  ret (mkConnection idx1 idx2 (u_phase * PI * 2) (0.3 + u_speed * 0.4)
                    true arcPoints 0.7, attempts).

Definition longArcCount : nat := 20.

Definition createLongArcs : Gen (list (Connection * nat)) :=
  mapM (fun _ => createLongArc) (seq 0 longArcCount).

End Connections.

(** *** Flow lines, satellites and the scene *)

(** A flow line: the 40 points of its streamline are never read after
    construction and are left out; the draws of its start angles are
    kept. *)
Definition createFlowLine : Gen FlowLine :=
  u_theta <- Math_random ;;
  u_phi <- Math_random ;;
  u_phase <- Math_random ;;
  u_speed <- Math_random ;;
  u_pulse <- Math_random ;;
  ret (mkFlowLine (u_phase * PI * 2) (0.5 + u_speed * 0.5) (0.4 + u_pulse * 0.4) 0.4).

Definition flowCount : nat := 15.

Definition createDot (r dotCount d : nat) : Gen Satellite :=
  u <- Math_random ;;
  ret (mkSatellite r ((INR d / INR dotCount) * PI * 2) (0.3 + u * 0.2)
                   ((INR r - 1) * PI * 0.15) Vector3.zero 1.2).

Definition ringCount : nat := 2.

Definition createRing (r : nat) : Gen (list Satellite) :=
  let dotCount := (4 + r * 1)%nat in
  mapM (createDot r dotCount) (seq 0 dotCount).

(** [initEarth] up to the first call of [animate].  The instance
    matrices start as the identity moved to the node position; the
    3000 star vertices, drawn last, are only ever rotated as a whole. *)
Definition initEarth : Gen Scene :=
  nodePositions <- createNodes ;;
  shortLines <- createConnections nodePositions ;;
  longArcs <- createLongArcs nodePositions ;;
  flows <- mapM (fun _ => createFlowLine) (seq 0 flowCount) ;;
  rings <- mapM createRing (seq 0 ringCount) ;;
  ret (mkScene 0 0 0 nodePositions
               (map (fun nd => mkInstance 1 (basePosition nd)) nodePositions)
               1.5 (List.concat rings)
               (fst shortLines ++ map fst longArcs) flows 0).

End Build.

(** *** The frame updater *)

Definition yAxis : vec3 := Vector3.mk 0 1 0.

(** One turn of the interpolation loop of [animate]: the point is
    computed only under [sinAngle > 0.001], which is false for NaN. *)
Definition frameStep (pos1 pos2 : vec3) (radiusMultiplier t : R) : interp_step :=
  match Math_acos (Vector3.dot pos1 pos2) with
  | None => Skipped
  | Some angle =>
      let sinAngle := sin angle in
      if Rgt_dec sinAngle 0.001
      then Pushed (Point (Vector3.multiplyScalar
                            (greatCircleDirection pos1 pos2 angle sinAngle t)
                            radiusMultiplier))
      else Skipped
  end.

(** [x || d] on numbers: zero is falsy. *)
Definition orDefault (v d : R) : R := if Req_dec_T v 0 then d else v.

Definition updateNode (updatePulse : bool) (time rotationY : R) (nodeData : NodeData)
  : Instance :=
  let pos := Vector3.applyAxisAngle (basePosition nodeData) yAxis rotationY in
  let pulse :=
    if updatePulse
    then sin (time * pulseSpeed nodeData + pulsePhase nodeData) * 0.4 + 0.6
    else 1.0 in
  let scale := 0.01 * pulse in
  mkInstance scale pos.

Definition updateSatellite (dot : Satellite) : Satellite :=
  let angle := angle dot + speed dot * 0.01 in
  let ringRadius := 1.3 + INR (ringIndex dot) * 0.2 in
  let x := cos angle * ringRadius in
  let y := sin angle * cos (inclination dot) * ringRadius in
  let z := sin angle * sin (inclination dot) * ringRadius in
  mkSatellite (ringIndex dot) angle (speed dot) (inclination dot) (Vector3.mk x y z) 1.2.

Definition updateOpacity (time : R) (conn : Connection) : Connection :=
  let pulseSpeed := orDefault (connPulseSpeed conn) 0.8 in
  let pulse := sin (time * pulseSpeed + connPulsePhase conn) * 0.25 + 0.6 in
  mkConnection (node1 conn) (node2 conn) (connPulsePhase conn) (connPulseSpeed conn)
               (isLongArc conn) (geometry conn) pulse.

Definition updateGeometry (positions : list NodeData) (rotationY : R) (conn : Connection)
  : Connection :=
  let pos1 := Vector3.applyAxisAngle (positionOf positions (node1 conn)) yAxis rotationY in
  let pos2 := Vector3.applyAxisAngle (positionOf positions (node2 conn)) yAxis rotationY in
  let steps := 12%nat in
  let radiusMultiplier := if isLongArc conn then 1.006 else 1.004 in
  let points := pushed_points (map (frameStep pos1 pos2 radiusMultiplier) (parameters steps)) in
  mkConnection (node1 conn) (node2 conn) (connPulsePhase conn) (connPulseSpeed conn)
               (isLongArc conn) points (opacity conn).

Definition updateFlow (time : R) (flow : FlowLine) : FlowLine :=
  let pulseSpeed := orDefault (flowPulseSpeed flow) 0.6 in
  let pulse := sin (time * pulseSpeed + flowPulsePhase flow) * 0.2 + 0.4 in
  mkFlowLine (flowPulsePhase flow) (flowSpeed flow) (flowPulseSpeed flow) pulse.

(** One call of [animate] (the render itself has no effect on the
    state). *)
Definition animate (s : Scene) : Scene :=
  let frameCount := S (frameCount s) in
  let time := time s + 0.01 in
  let rotationY := earthRotationY s + 0.002 in
  let updatePulse := (frameCount mod 2 =? 0)%nat in
  let instances := map (updateNode updatePulse time rotationY) (positions s) in
  let emissiveIntensity :=
    if updatePulse then 1.5 * (sin (time * 0.8) * 0.3 + 0.7) else emissiveIntensity s in
  let satellites :=
    if (frameCount mod 2 =? 0)%nat then map updateSatellite (satellites s)
    else satellites s in
  let connections :=
    if (frameCount mod 2 =? 0)%nat then map (updateOpacity time) (connections s)
    else connections s in
  let connections :=
    if (frameCount mod 3 =? 0)%nat
    then map (updateGeometry (positions s) rotationY) connections
    else connections in
  let flowLines :=
    if (frameCount mod 3 =? 0)%nat then map (updateFlow time) (flowLines s)
    else flowLines s in
  let starsRotationY :=
    if (frameCount mod 3 =? 0)%nat then starsRotationY s + 0.00015
    else starsRotationY s in
  mkScene frameCount time rotationY (positions s) instances emissiveIntensity
          satellites connections flowLines starsRotationY.

Fixpoint frames (n : nat) (s : Scene) : Scene :=
  match n with
  | O => s
  | S n' => animate (frames n' s)
  end.

End Uniform.

(** ** The Fibonacci-sphere variant *)

Module Fibonacci.

Definition nodeCount : nat := 1200.

(** The body of the node loop of [initEarth].  [-1 + 2i / nodeCount]
    lies in [-1,1) for [i < nodeCount], where [Math.acos] is [acos]. *)
Definition nodePosition (i : nat) : vec3 :=
  let phi := acos (-1 + (2 * INR i) / INR nodeCount) in
  let theta := sqrt (INR nodeCount * PI) * phi in
  let r := 1.005 in
  let x := r * cos theta * sin phi in
  let y := r * sin theta * sin phi in
  let z := r * cos phi in
  Vector3.mk x y z.

Definition nodePositions : list vec3 := map nodePosition (seq 0 nodeCount).

Definition positionOf (i : nat) : vec3 := nth i nodePositions Vector3.zero.

(** An arc of [arcLines]: the points of its geometry, its [userData] and
    the opacity of its material. *)
Record Arc : Type := mkArc {
  arcPoints : list vec3;
  phase : R;
  speed : R;
  arcOpacity : R
}.

(** The state that the rotation and pulse part of [animate] reads and
    writes; [mouseX] and [mouseY] are written by the [mousemove]
    listener. *)
Record Scene : Type := mkScene {
  time : R;
  targetRotationY : R;
  rotationX : R;
  rotationY : R;
  mouseX : R;
  mouseY : R;
  arcLines : list Arc;
  lineOpacity : R
}.

(** The vertices of a [LineSegments] geometry are read two by two. *)
Fixpoint segments (linePoints : list vec3) : list (vec3 * vec3) :=
  match linePoints with
  | p1 :: p2 :: rest => (p1, p2) :: segments rest
  | _ => []
  end.

(** The vertex array of a list of segments. *)
Definition vertices (segs : list (vec3 * vec3)) : list vec3 :=
  flat_map (fun s => [fst s; snd s]) segs.

(** The direction of a point of [createArc] before it is raised:
    [new THREE.Vector3().copy(p1).lerp(p2, t).normalize()].  The angle
    that [createArc] computes with [angleTo] is not used. *)
Definition arcDirection (p1 p2 : vec3) (t : R) : vec3 :=
  Vector3.normalize (Vector3.lerp p1 p2 t).

Section Build.

Variable random : nat -> R.

Definition Math_random : Gen R := fun c => (random c, S c).

(** [(i + Math.floor(Math.random() * 200) - 100 + nodeCount) % nodeCount];
    [%] is the truncated remainder. *)
Definition neighbourIndex (i : nat) : Gen nat :=
  u <- Math_random ;;
  ret (Z.to_nat (Z.rem (Z.of_nat i + Math_floor (u * 200) - 100 + Z.of_nat nodeCount)
                       (Z.of_nat nodeCount))).

(** [for (j = 0; j < 30; j++)] of node [i], on the turns left; the
    state is the array [linePoints] and the counter [connections]. *)
Fixpoint sampleNeighbours (turns i : nat) (st : list vec3 * nat)
  : Gen (list vec3 * nat) :=
  match turns with
  | O => ret st
  | S turns' =>
      idx <- neighbourIndex i ;;
      if (i =? idx)%nat then sampleNeighbours turns' i st
      else
        let p1 := positionOf i in
        let p2 := positionOf idx in
        let dist := Vector3.distanceTo p1 p2 in
        let st' :=
          if Rlt_dec dist 0.35 then (fst st ++ [p1; p2], S (snd st)) else st in
        if (4 <? snd st')%nat then ret st'
        else sampleNeighbours turns' i st'
  end.

(** The body of the loop over the nodes: [connections] starts at 0. *)
Definition connectNode (i : nat) (linePoints : list vec3) : Gen (list vec3) :=
  st <- sampleNeighbours 30 i (linePoints, 0%nat) ;;
  ret (fst st).

Fixpoint connectNodes (idxs : list nat) (linePoints : list vec3) : Gen (list vec3) :=
  match idxs with
  | [] => ret linePoints
  | i :: idxs' =>
      linePoints' <- connectNode i linePoints ;;
      connectNodes idxs' linePoints'
  end.

Definition createLines : Gen (list vec3) := connectNodes (seq 0 nodeCount) [].

Definition createArc (p1 p2 : vec3) (altitude : R) : Gen Arc :=
  let segments := 40%nat in
  let points :=
    map (fun t =>
           let v := arcDirection p1 p2 t in
           let height := 1.0 + altitude * sin (t * PI) in
           Vector3.multiplyScalar v height)
        (parameters segments) in
  u_phase <- Math_random ;;
  u_speed <- Math_random ;;
  ret (mkArc points (u_phase * PI * 2) (0.002 + u_speed * 0.003) 0.0).

Definition randomIndex : Gen nat :=
  u <- Math_random ;;
  ret (Z.to_nat (Math_floor (u * INR nodeCount))).

(** The body of the arc loop: the arc, if one is created, with the two
    indices it was built from. *)
Definition tryArc : Gen (option (nat * nat * Arc)) :=
  i1 <- randomIndex ;;
  i2 <- randomIndex ;;
  if (i1 =? i2)%nat then ret None
  else
    let dist := Vector3.distanceTo (positionOf i1) (positionOf i2) in
    if Rgt_dec dist 1.0 then
      arc <- createArc (positionOf i1) (positionOf i2) (0.1 + dist * 0.2) ;;
      ret (Some (i1, i2, arc))
    else ret None.

Definition arcCount : nat := 30.

Definition createArcs : Gen (list (nat * nat * Arc)) :=
  made <- mapM (fun _ => tryArc) (seq 0 arcCount) ;;
  ret (flat_map (fun o => match o with Some a => [a] | None => [] end) made).

(** [initEarth] up to the first call of [animate]. *)
Definition initEarth : Gen Scene :=
  linePoints <- createLines ;;
  arcs <- createArcs ;;
  ret (mkScene 0 0 0 0 0 0 (map snd arcs) 0.15).

End Build.

(** The [mousemove] listener. *)
Definition mousemove (clientX clientY windowHalfX windowHalfY : R) (s : Scene) : Scene :=
  mkScene (time s) (targetRotationY s) (rotationX s) (rotationY s)
          ((clientX - windowHalfX) * 0.001) ((clientY - windowHalfY) * 0.001)
          (arcLines s) (lineOpacity s).

Definition pulseArc (time : R) (line : Arc) : Arc :=
  let pulse := sin (time * 5 + phase line) in
  mkArc (arcPoints line) (phase line) (speed line) (Rmax 0 pulse).

(** One call of [animate], steps 1 to 3; step 4, the star ripple, works
    on state of its own and is embedded in [StarRipple]. *)
Definition animate (s : Scene) : Scene :=
  let time := time s + 0.005 in
  let targetRotationY := targetRotationY s + 0.0005 in
  let rotationY := rotationY s + 0.0008 in
  let rotationY := rotationY + mouseX s * 0.08 in
  let rotationX := rotationX s + (mouseY s * 0.05 - rotationX s) * 0.05 in
  let arcLines := map (pulseArc time) (arcLines s) in
  let lineOpacity := 0.15 + sin (time * 2) * 0.05 in
  mkScene time targetRotationY rotationX rotationY (mouseX s) (mouseY s)
          arcLines lineOpacity.

Fixpoint frames (n : nat) (s : Scene) : Scene :=
  match n with
  | O => s
  | S n' => animate (frames n' s)
  end.

(** Where node [p] of the rotated group is displayed. *)
Definition displayed (s : Scene) (p : vec3) : vec3 :=
  Euler.apply (rotationX s) (rotationY s) 0 p.

End Fibonacci.

(** ** [loadEarthTexture]: the callbacks of the texture fetch

    Both files end with the same [loadEarthTexture].  Its callbacks read
    the global variable [earth]; the top-level declarations are those of
    the file the callback runs in. *)

Module Texture.

Record Material : Type := mkMaterial {
  color : Z;
  emissive : Z;
  map : option nat;
  needsUpdate : bool
}.

(** What a global variable can hold: [undefined], a mesh with its
    material (if it has one), or another object, which has no
    [material] property. *)
Inductive value : Type :=
| Undefined
| Mesh (material : option Material)
| Object.

Inductive exception : Type :=
| ReferenceError (name : string).

Inductive completion (A : Type) : Type :=
| Normal (a : A)
| Throw (e : exception).
Arguments Normal {A} a.
Arguments Throw {A} e.

(** The page: the declared global variables with their values, and the
    lines written to the console. *)
Record Page : Type := mkPage {
  globals : list (string * value);
  console : list string
}.

Fixpoint lookup (name : string) (g : list (string * value)) : option value :=
  match g with
  | [] => None
  | (n, v) :: g' => if String.eqb n name then Some v else lookup name g'
  end.

Fixpoint assign (name : string) (v : value) (g : list (string * value))
  : list (string * value) :=
  match g with
  | [] => []
  | (n, w) :: g' =>
      if String.eqb n name then (n, v) :: g' else (n, w) :: assign name v g'
  end.

(** Reading a variable that no declaration binds throws. *)
Definition readGlobal (name : string) (p : Page) : completion value :=
  match lookup name (globals p) with
  | Some v => Normal v
  | None => Throw (ReferenceError name)
  end.

(** The error callback of [loader.load]. *)
Definition onError (p : Page) : completion Page :=
  let p := mkPage (globals p) (console p ++ ["Using procedural Earth"%string]) in
  match readGlobal "earth" p with
  | Throw e => Throw e
  | Normal (Mesh (Some m)) =>
      let m := mkMaterial 0x2233ff (emissive m) (map m) (needsUpdate m) in
      let m := mkMaterial (color m) 0x112244 (map m) (needsUpdate m) in
      Normal (mkPage (assign "earth" (Mesh (Some m)) (globals p)) (console p))
  | Normal _ => Normal p
  end.

(** The success callback of [loader.load]. *)
Definition onLoad (texture : nat) (p : Page) : completion Page :=
  match readGlobal "earth" p with
  | Throw e => Throw e
  | Normal (Mesh (Some m)) =>
      let m := mkMaterial (color m) (emissive m) (Some texture) true in
      Normal (mkPage (assign "earth" (Mesh (Some m)) (globals p)) (console p))
  | Normal _ => Normal p
  end.

(** The globals of the uniform-random file once [initEarth] has run:
    [let scene, camera, renderer, earth, dataNodes, connections,
    flowLines, orbitalRings; let time], with [earth] the sphere mesh and
    its [MeshStandardMaterial]. *)
Definition uniformGlobals : list (string * value) :=
  [ ("scene", Object); ("camera", Object); ("renderer", Object);
    ("earth", Mesh (Some (mkMaterial 0x0a0f1a 0x000000 None false)));
    ("dataNodes", Object); ("connections", Object); ("flowLines", Object);
    ("orbitalRings", Object); ("time", Object) ]%string.

(** The globals of the Fibonacci file once [initEarth] has run:
    [let scene, camera, renderer, earthGroup; let time].  The sphere is
    the local constant [earthMesh] of [initEarth]; no [earth] is
    declared. *)
Definition fibonacciGlobals : list (string * value) :=
  [ ("scene", Object); ("camera", Object); ("renderer", Object);
    ("earthGroup", Object); ("time", Object) ]%string.

End Texture.

(** ** The rotation accumulators over binary64 floats

    The statements of [animate] that advance the rotation about the y
    axis only add, so they run as they are on binary64 floats. *)

Module Accumulator.

Import Floats.
Local Open Scope float_scope.
#[local] Set Warnings "-inexact-float".

(** [earth.rotation.y += 0.002] of the uniform-random variant. *)
Definition uniformStep (rotationY : float) : float := rotationY + 0.002.

(** [earthGroup.rotation.y += 0.0008; earthGroup.rotation.y += (mouseX * 0.08)]
    of the Fibonacci variant. *)
Definition fibonacciStep (mouseX rotationY : float) : float :=
  let rotationY := rotationY + 0.0008 in
  rotationY + mouseX * 0.08.

(** The accumulator after [n] frames. *)
Fixpoint frames (n : nat) (step : float -> float) (rotationY : float) : float :=
  match n with
  | O => rotationY
  | S n' => step (frames n' step rotationY)
  end.

End Accumulator.

(** ** The star ripple of the Fibonacci variant, over binary64 floats *)

Module StarRipple.

Import Floats.
Local Open Scope float_scope.
#[local] Set Warnings "-inexact-float".

(** Storing into a [Float32Array] rounds to binary32. *)
Definition fround (f : float) : float :=
  match Prim2SF f with
  | S754_finite s m e => SF2Prim (binary_normalize 24 128 (cond_Zopp s (Zpos m)) e s)
  | _ => f
  end.

(** A star: its entry of [starsInitialPositions], its entry of
    [starVelocities], and its two coordinates in the position array that
    [animate] rewrites. *)
Record Star : Type := mkStar {
  initialX : float;
  initialY : float;
  velocityX : float;
  velocityY : float;
  positionX : float;
  positionY : float
}.

(** A star as [initEarth] creates it from its two coordinates. *)
Definition createStar (x y : float) : Star :=
  mkStar x y 0 0 (fround x) (fround y).

(** The body of the loop over the stars. *)
Definition updateStar (cursorWorldX cursorWorldY : float) (s : Star) : Star :=
  let px := initialX s in
  let py := initialY s in
  let dx := cursorWorldX - px in
  let dy := cursorWorldY - py in
  let dist := sqrt (dx * dx + dy * dy) in
  let vx := if dist <? 3.0 then velocityX s - (dx / dist) * ((3.0 - dist) * 0.02)
            else velocityX s in
  let vy := if dist <? 3.0 then velocityY s - (dy / dist) * ((3.0 - dist) * 0.02)
            else velocityY s in
  let vx := vx * 0.95 in
  let vy := vy * 0.95 in
  let currentX := positionX s in
  let currentY := positionY s in
  mkStar px py vx vy
         (fround (positionX s + (vx + (initialX s - currentX) * 0.02)))
         (fround (positionY s + (vy + (initialY s - currentY) * 0.02))).

(** Step 4 of [animate] for the pointer offset [(mouseX, mouseY)]. *)
Definition ripple (mouseX mouseY : float) (stars : list Star) : list Star :=
  let cursorWorldX := mouseX * 15 in
  let cursorWorldY := - mouseY * 10 in
  List.map (updateStar cursorWorldX cursorWorldY) stars.

(** Successive frames, one pointer offset per frame. *)
Fixpoint ripples (pointer : list (float * float)) (stars : list Star) : list Star :=
  match pointer with
  | [] => stars
  | (mouseX, mouseY) :: pointer' => ripples pointer' (ripple mouseX mouseY stars)
  end.

(** A star whose velocity and displayed position are NaN. *)
Definition lost (s : Star) : Prop :=
  velocityX s = nan /\ velocityY s = nan /\ positionX s = nan /\ positionY s = nan.

(** A star at the origin of the star plane, which is where the pointer
    maps to before it first moves. *)
Definition originStar : Star := createStar 0 0.

End StarRipple.

(** ** The interpolation formula of the specification and sample inputs *)

(** The great-circle formula in the words of the specification:
    [(sin((1-t) angle) p1 + sin(t angle) p2) / sin(angle)] with
    [angle = arccos(p1 . p2)], before it is renormalised. *)
Definition specSlerp (p1 p2 : vec3) (t : R) : vec3 :=
  let angle := acos (Vector3.dot p1 p2) in
  Vector3.mk
    ((sin ((1 - t) * angle) * Vector3.x p1 + sin (t * angle) * Vector3.x p2) / sin angle)
    ((sin ((1 - t) * angle) * Vector3.y p1 + sin (t * angle) * Vector3.y p2) / sin angle)
    ((sin ((1 - t) * angle) * Vector3.z p1 + sin (t * angle) * Vector3.z p2) / sin angle).

Module Examples.

(** Two perpendicular unit directions. *)
Definition e1 : vec3 := Vector3.mk 1 0 0.
Definition e2 : vec3 := Vector3.mk 0 1 0.

(** Two points of the sphere of radius 1.005 at chord distance
    [1.005 * sqrt 226 / 113], about 0.134. *)
Definition nearA : vec3 := Vector3.mk 1.005 0 0.
Definition nearB : vec3 := Vector3.mk (1.005 * (112 / 113)) (1.005 * (15 / 113)) 0.

(** Two points of the sphere of radius 1.005 at chord distance exactly
    1.2, and an array of 600 nodes of the sphere with the second point at
    index 1 and the first point everywhere else. *)
Definition chordA : vec3 := Vector3.mk (sqrt 0.650025) 0.6 0.
Definition chordB : vec3 := Vector3.mk (sqrt 0.650025) (-0.6) 0.
Definition chordNodes : list Uniform.NodeData :=
  map (fun i => Uniform.mkNode (if (i =? 1)%nat then chordB else chordA) 0 0.5 i)
      (seq 0 Uniform.nodeCount).

(** A stream of [Math.random()] results: 0, 1/600, 0, 1/600, ... *)
Definition alternating : nat -> R := fun n => if Nat.even n then 0 else 1 / 600.

(** A scene of the uniform-random variant after its second frame: one
    node pulsing at 0.9 of its size, one line. *)
Definition pulsingScene : Uniform.Scene :=
  Uniform.mkScene 2 0.02 0.004
    [Uniform.mkNode nearA 0 0.5 0]
    [Uniform.mkInstance 0.009 nearA]
    1.2 []
    [Uniform.mkConnection 0 0 0 0.5 false [] 0.5]
    [] 0.

(** The scene of the Fibonacci variant before any pointer movement, with
    no arc. *)
Definition restScene : Fibonacci.Scene := Fibonacci.mkScene 0 0 0 0 0 0 [] 0.15.

(** The same scene with the pointer 0.2 below the centre. *)
Definition pointerScene : Fibonacci.Scene := Fibonacci.mkScene 0 0 0 0 0 0.2 [] 0.15.

End Examples.

(** ** Invariants of the construction loops *)

(** A line of the uniform-random variant that joins two nodes less than
    0.5 apart and is not a long arc. *)
Definition shortLine (nodePositions : list Uniform.NodeData) (cn : Uniform.Connection)
  : Prop :=
  Vector3.distanceTo (Uniform.positionOf nodePositions (Uniform.node1 cn))
                     (Uniform.positionOf nodePositions (Uniform.node2 cn)) < 0.5
  /\ Uniform.isLongArc cn = false.

(** The state of the connection loops: the counter counts the lines, it
    is at most 800, and every line is short. *)
Definition connectionsInv (nodePositions : list Uniform.NodeData)
           (st : list Uniform.Connection * nat) : Prop :=
  List.length (fst st) = snd st
  /\ (snd st <= 800)%nat
  /\ Forall (shortLine nodePositions) (fst st).

(** The chord distance between two nodes of the uniform-random variant. *)
Definition chord (nodePositions : list Uniform.NodeData) (i j : nat) : R :=
  Vector3.distanceTo (Uniform.positionOf nodePositions i)
                     (Uniform.positionOf nodePositions j).

(** A segment of the Fibonacci variant shorter than 0.35. *)
Definition shortSegment (s : vec3 * vec3) : Prop :=
  Vector3.distanceTo (fst s) (snd s) < 0.35.

(** ** Flow lines and orbital rings of the uniform-random variant *)

Module FlowField.

(** The direction of the synthetic velocity field at step [j] of a
    streamline that started at the angles [startTheta], [startPhi]. *)
Definition flowDir (startTheta startPhi : R) (j : nat) : vec3 :=
  let u := sin (startPhi + INR j * 0.08) * 0.4 in
  let v := cos (startTheta + INR j * 0.08) * 0.4 in
  let thetaVec := Vector3.mk (- sin startTheta) (cos startTheta) 0 in
  let phiVec :=
    Vector3.mk (cos startPhi * cos startTheta) (cos startPhi * sin startTheta)
               (- sin startPhi) in
  Vector3.normalize (combination thetaVec phiVec u v).

(** The rest of the loop body after the push: a step of 0.025 along the
    field, then the projection back to the unit sphere, which is guarded
    by [length > 0.001]. *)
Definition advance (startTheta startPhi : R) (j : nat) (p : vec3) : vec3 :=
  let flowDir := flowDir startTheta startPhi j in
  let step := 0.025 in
  let x := Vector3.x p + Vector3.x flowDir * step in
  let y := Vector3.y p + Vector3.y flowDir * step in
  let z := Vector3.z p + Vector3.z flowDir * step in
  let length := sqrt (x * x + y * y + z * z) in
  if Rgt_dec length 0.001 then Vector3.mk (x / length) (y / length) (z / length)
  else Vector3.mk x y z.

(** The loop over [j]: the point pushed at each step, raised by 1.003. *)
Fixpoint trace (startTheta startPhi : R) (js : list nat) (p : vec3) : list vec3 :=
  match js with
  | [] => []
  | j :: js' =>
      Vector3.multiplyScalar p 1.003
      :: trace startTheta startPhi js' (advance startTheta startPhi j p)
  end.

Definition steps : nat := 40.

(** The points of one flow line. *)
Definition streamline (startTheta startPhi : R) : list vec3 :=
  let x := sin startPhi * cos startTheta in
  let y := sin startPhi * sin startTheta in
  let z := cos startPhi in
  trace startTheta startPhi (seq 0 steps) (Vector3.mk x y z).

End FlowField.

Module Ring.

Definition ringRadius (r : nat) : R := 1.3 + INR r * 0.2.

Definition ringSegments : nat := 64.

(** The body of the loop over the points of ring [r]. *)
Definition ringPoint (r i : nat) : vec3 :=
  let angle := (INR i / INR ringSegments) * PI * 2 in
  let inclination := (INR r - 1) * PI * 0.15 in
  let x := cos angle * ringRadius r in
  let y := sin angle * cos inclination * ringRadius r in
  let z := sin angle * sin inclination * ringRadius r in
  Vector3.mk x y z.

Definition ringPoints (r : nat) : list vec3 :=
  map (ringPoint r) (seq 0 (S ringSegments)).

End Ring.

(** A point of a line geometry turned about the y axis with the globe. *)
Definition rotatePoint (angle : R) (p : js_point) : js_point :=
  match p with
  | NaNPoint => NaNPoint
  | Point v => Point (Vector3.applyAxisAngle v Uniform.yAxis angle)
  end.


(** The opacities of the Fibonacci variant inside their ranges. *)
Definition fibonacciPulsesInRange (s : Fibonacci.Scene) : Prop :=
  Forall (fun line => 0 <= Fibonacci.arcOpacity line <= 1) (Fibonacci.arcLines s)
  /\ 0.1 <= Fibonacci.lineOpacity s <= 0.2.

(** * The page scripts

    Both files continue, after the globe, with the same page scripts: the
    typing effect, the navigation highlight, the mobile menu, the scroll
    throttle, the load handler, the contact form, the stat counters and
    the cursor trail.  Each is embedded with the state it reads and
    writes. *)

(** ** [typeEffect] *)

Module Typing.

Definition typingWords : list string :=
  [ "Aerospace Engineer"; "CFD Specialist"; "Robotics Enthusiast"; "Research Scholar" ]%string.

(** The three counters of the effect and the text of the element. *)
Record State : Type := mkState {
  wordIndex : nat;
  charIndex : Z;
  isDeleting : bool;
  textContent : string
}.

(** [str.substring(0, end)]: a negative end counts as 0 and an end past
    the string as its length. *)
Definition substringTo (str : string) (e : Z) : string :=
  String.substring 0 (Z.to_nat e) str.

(** One call of [typeEffect] on the word list [words]: the new state and
    the delay it passes to [setTimeout].  [words[wordIndex]] is read in
    range. *)
Definition typeEffect (words : list string) (s : State) : State * nat :=
  let currentWord := nth (wordIndex s) words ""%string in
  let text :=
    if isDeleting s then substringTo currentWord (charIndex s - 1)
    else substringTo currentWord (charIndex s + 1) in
  let charIndex := if isDeleting s then (charIndex s - 1)%Z else (charIndex s + 1)%Z in
  let typeSpeed := if isDeleting s then 50%nat else 100%nat in
  if negb (isDeleting s) && (charIndex =? Z.of_nat (String.length currentWord))%Z then
    (mkState (wordIndex s) charIndex true text, 2000%nat)
  else if isDeleting s && (charIndex =? 0)%Z then
    (mkState ((wordIndex s + 1) mod List.length words) charIndex false text, 500%nat)
  else
    (mkState (wordIndex s) charIndex (isDeleting s) text, typeSpeed).

(** [n] calls in a row: the state they leave and the sum of their
    delays. *)
Fixpoint calls (words : list string) (n : nat) (s : State) : State * nat :=
  match n with
  | O => (s, 0%nat)
  | S n' =>
      let (s', elapsed) := calls words n' s in
      let (s'', typeSpeed) := typeEffect words s' in
      (s'', (elapsed + typeSpeed)%nat)
  end.

(** The state when the page loads, whatever the element shows. *)
Definition initial (text : string) : State := mkState 0 0 false text.

(** The characters of all the words together. *)
Definition charCount (words : list string) : nat := list_sum (map String.length words).

(** The counters in range: the word exists; while typing the index is
    short of the end of the word; while deleting it is past its start. *)
Definition inRange (words : list string) (s : State) : Prop :=
  (wordIndex s < List.length words)%nat
  /\ (isDeleting s = false ->
      (0 <= charIndex s < Z.of_nat (String.length (nth (wordIndex s) words ""%string)))%Z)
  /\ (isDeleting s = true ->
      (1 <= charIndex s <= Z.of_nat (String.length (nth (wordIndex s) words ""%string)))%Z).

End Typing.

(** ** [setActiveNavLink] *)

Module Nav.

(** A [section[id]] element: [offsetTop] and [offsetHeight] are integers. *)
Record SectionBox : Type := mkSection {
  offsetTop : Z;
  offsetHeight : Z;
  sectionId : string
}.

(** A navigation link: its [href] and whether it has the class [active]. *)
Record Link : Type := mkLink {
  href : string;
  active : bool
}.

(** [scrollY > sectionTop && scrollY <= sectionTop + sectionHeight]. *)
Definition inView (scrollY : Q) (section : SectionBox) : bool :=
  let sectionHeight := offsetHeight section in
  let sectionTop := (offsetTop section - 100)%Z in
  (if Qlt_le_dec (inject_Z sectionTop) scrollY then true else false)
  && Qle_bool scrollY (inject_Z (sectionTop + sectionHeight)).

(** The inner loop over the links: the class is removed, and added again
    when the link points to the section. *)
Definition markLinks (id : string) (links : list Link) : list Link :=
  map (fun link => mkLink (href link) (String.eqb (href link) ("#" ++ id)%string)) links.

Definition setActiveNavLink (scrollY : Q) (sections : list SectionBox) (links : list Link)
  : list Link :=
  fold_left (fun links section =>
               if inView scrollY section then markLinks (sectionId section) links
               else links)
            sections links.

(** The last section of the document that is in view, if any. *)
Definition lastInView (scrollY : Q) (sections : list SectionBox) : option SectionBox :=
  last (List.map Some (filter (inView scrollY) sections)) None.

End Nav.

(** ** The mobile menu *)

Module Menu.

(** Whether the hamburger and the link container have the class
    [active]. *)
Record State : Type := mkState {
  hamburgerActive : bool;
  navLinksActive : bool
}.

Inductive event : Type :=
| HamburgerClick
| NavLinkClick
| KeyDown (key : string).

Definition handle (e : event) (s : State) : State :=
  match e with
  | HamburgerClick => mkState (negb (hamburgerActive s)) (negb (navLinksActive s))
  | NavLinkClick => mkState false false
  | KeyDown key => if String.eqb key "Escape" then mkState false false else s
  end.

Definition handleAll (events : list event) (s : State) : State :=
  fold_left (fun s e => handle e s) events s.

End Menu.

(** ** The scroll throttle

    A scroll event runs the listener that calls [setActiveNavLink] and
    then the listener that requests a frame for [updateOnScroll] unless
    one is requested; a frame runs the requested callbacks. *)

Module Throttle.

Record State : Type := mkState {
  ticking : bool;
  requested : nat;
  navCalls : nat
}.

Inductive event : Type :=
| Scroll
| AnimationFrame.

Definition updateOnScroll (s : State) : State :=
  mkState false (requested s) (S (navCalls s)).

Definition handle (e : event) (s : State) : State :=
  match e with
  | Scroll =>
      let s := mkState (ticking s) (requested s) (S (navCalls s)) in
      if negb (ticking s) then mkState true (S (requested s)) (navCalls s) else s
  | AnimationFrame =>
      Nat.iter (requested s) updateOnScroll (mkState (ticking s) 0 (navCalls s))
  end.

Definition handleAll (events : list event) (s : State) : State :=
  fold_left (fun s e => handle e s) events s.

Definition initial : State := mkState false 0 0.

Definition scrolls (events : list event) : nat :=
  List.length (filter (fun e => match e with Scroll => true | AnimationFrame => false end)
                      events).

End Throttle.

(** ** The load handler *)

Module Load.

(** The names that the top level of the uniform-random file declares. *)
Definition uniformDeclared : list string :=
  [ "scene"; "camera"; "renderer"; "earth"; "dataNodes"; "connections"; "flowLines";
    "orbitalRings"; "time"; "initEarth"; "cursorDotsContainer"; "cursorDot"; "dots";
    "dotCount"; "mouseXPos"; "mouseYPos"; "dotXPos"; "dotYPos"; "animateCursor";
    "interactiveElements"; "textElements"; "navbar"; "navLinks"; "hamburger";
    "navLinksContainer"; "sections"; "setActiveNavLink"; "typingText"; "typingWords";
    "wordIndex"; "charIndex"; "isDeleting"; "typeEffect"; "statNumbers";
    "animateCounter"; "statsObserver"; "contactForm"; "ticking"; "updateOnScroll";
    "loadEarthTexture" ]%string.

(** The names that the top level of the Fibonacci file declares. *)
Definition fibonacciDeclared : list string :=
  [ "scene"; "camera"; "renderer"; "earthGroup"; "time"; "initEarth";
    "cursorDotsContainer"; "cursorDot"; "dots";
    "dotCount"; "mouseXPos"; "mouseYPos"; "dotXPos"; "dotYPos"; "animateCursor";
    "interactiveElements"; "textElements"; "navbar"; "navLinks"; "hamburger";
    "navLinksContainer"; "sections"; "setActiveNavLink"; "typingText"; "typingWords";
    "wordIndex"; "charIndex"; "isDeleting"; "typeEffect"; "statNumbers";
    "animateCounter"; "statsObserver"; "contactForm"; "ticking"; "updateOnScroll";
    "loadEarthTexture" ]%string.

(** What the handler writes: the [display] of the cursor dot, the
    [cursor] of the body, the classes of the body, and the calls of
    [setActiveNavLink]. *)
Record Page : Type := mkPage {
  cursorDotDisplay : string;
  bodyCursor : string;
  bodyClasses : list string;
  navCalls : nat
}.

(** The handler on a window [innerWidth] wide: the page it leaves and the
    exception it ends with, if any.  Reading a name that nothing declares
    throws. *)
Definition onLoad (declared : list string) (innerWidth : Q) (p : Page)
  : Page * option Texture.exception :=
  let p := mkPage (cursorDotDisplay p) (bodyCursor p) (bodyClasses p) (S (navCalls p)) in
  if Qle_bool innerWidth 768 then
    let p := mkPage "none" (bodyCursor p) (bodyClasses p) (navCalls p) in
    if existsb (String.eqb "cursorRing") declared then
      if existsb (String.eqb "cursorTrail") declared then
        let p := mkPage (cursorDotDisplay p) "auto" (bodyClasses p) (navCalls p) in
        (mkPage (cursorDotDisplay p) (bodyCursor p) (bodyClasses p ++ ["loaded"%string])
                (navCalls p), None)
      else (p, Some (Texture.ReferenceError "cursorTrail"))
    else (p, Some (Texture.ReferenceError "cursorRing"))
  else
    (mkPage (cursorDotDisplay p) (bodyCursor p) (bodyClasses p ++ ["loaded"%string])
            (navCalls p), None).

End Load.

(** ** The contact form *)

Module Form.

Definition sentText : string := "Message Sent!".

Definition sentBackground : string := "linear-gradient(135deg, #10b981 0%, #059669 100%)".

(** The text of the button, its background, the values of the fields,
    and the timeouts that are pending, each with the [originalText] its
    closure captured.  All timeouts wait 3000 ms, so they fire in the
    order they were set. *)
Record State : Type := mkState {
  spanText : string;
  background : string;
  fields : list string;
  timeouts : list string
}.

(** What the user types into the form. *)
Definition fill (values : list string) (s : State) : State :=
  mkState (spanText s) (background s) values (timeouts s).

(** The [submit] listener. *)
Definition submit (s : State) : State :=
  let originalText := spanText s in
  mkState sentText sentBackground (fields s) (timeouts s ++ [originalText]).

(** The oldest pending timeout fires; [reset()] restores the default
    values of the fields. *)
Definition timeout (defaults : list string) (s : State) : State :=
  match timeouts s with
  | [] => s
  | originalText :: rest => mkState originalText "" defaults rest
  end.

End Form.

(** ** [animateCounter], over binary64 floats *)

Module Counter.

Import Floats.
Local Open Scope float_scope.
#[local] Set Warnings "-inexact-float".

(** What [textContent] is set to: an integer, an infinity, or NaN. *)
Inductive text : Type :=
| Number (z : Z)
| InfinityText (negative : bool)
| NaNText.

(** The result of [parseInt] as a number: an integer, or NaN ([None]). *)
Definition toNumber (target : option Z) : float :=
  match target with
  | None => nan
  | Some z =>
      if (z <? 0)%Z then - of_uint63 (Uint63.of_Z (- z)) else of_uint63 (Uint63.of_Z z)
  end.

(** The text of the target itself. *)
Definition targetText (target : option Z) : text :=
  match target with
  | None => NaNText
  | Some z => Number z
  end.

(** The text of [Math.floor(f)]: the whole part of the value
    [(-1)^s m 2^e]. *)
Definition Math_floor (f : float) : text :=
  match Prim2SF f with
  | S754_zero _ => Number 0
  | S754_finite s m e =>
      let n := cond_Zopp s (Zpos m) in
      Number (if (0 <=? e)%Z then n * 2 ^ e else n / 2 ^ (- e))
  | S754_infinity s => InfinityText s
  | S754_nan => NaNText
  end.

(** The calls of [updateCounter], at most [frames] of them: the texts
    they show in order, and whether the last one stopped requesting
    frames. *)
Fixpoint updateCounter (frames : nat) (target : option Z) (increment current : float)
  : list text * bool :=
  match frames with
  | O => ([], false)
  | S frames' =>
      let current := current + increment in
      if current <? toNumber target then
        let (shown, done) := updateCounter frames' target increment current in
        (Math_floor current :: shown, done)
      else ([targetText target], true)
  end.

Definition animateCounter (frames : nat) (target : option Z) : list text * bool :=
  let duration := 2000 in
  let increment := toNumber target / (duration / 16) in
  updateCounter frames target increment 0.

(** A text that is a whole number from 0 up to, not including, [target]. *)
Definition isBelow (target : Z) (tx : text) : bool :=
  match tx with
  | Number z => (0 <=? z)%Z && (z <? target)%Z
  | _ => false
  end.

(** The run for [target] stops by itself on the target after 125 or 126
    calls, every text before being a whole number below the target. *)
Definition endsOnTarget (target : Z) : bool :=
  match animateCounter 126 (Some target) with
  | (shown, true) =>
      match rev shown with
      | Number z :: before =>
          (z =? target)%Z
          && ((List.length before =? 124)%nat || (List.length before =? 125)%nat)
          && forallb (isBelow target) before
      | _ => false
      end
  | _ => false
  end.

(** The run for a target that is not positive shows the target at once. *)
Definition showsAtOnce (target : Z) : bool :=
  match animateCounter 126 (Some target) with
  | ([Number z], true) => (z =? target)%Z
  | _ => false
  end.

End Counter.

(** ** [animateCursor] *)

Module CursorTrail.

Definition dotCount : nat := 12.

Record Dot : Type := mkDot {
  x : R;
  y : R;
  targetX : R;
  targetY : R;
  opacity : R
}.

Record State : Type := mkState {
  mouseXPos : R;
  mouseYPos : R;
  dotXPos : R;
  dotYPos : R;
  dots : list Dot
}.

(** The [forEach] over the trail from index [index] on; [(prevX, prevY)]
    is where the dot before has just been moved to, or the main dot for
    the first one. *)
Fixpoint follow (prevX prevY : R) (index : nat) (dots : list Dot) : list Dot :=
  match dots with
  | [] => []
  | dot :: rest =>
      let targetX := prevX in
      let targetY := prevY in
      let x := x dot + (targetX - x dot) * 0.2 in
      let y := y dot + (targetY - y dot) * 0.2 in
      mkDot x y targetX targetY ((INR dotCount - INR index) / INR dotCount * 0.5)
      :: follow x y (S index) rest
  end.

Definition animateCursor (s : State) : State :=
  let dotXPos := dotXPos s + (mouseXPos s - dotXPos s) * 0.3 in
  let dotYPos := dotYPos s + (mouseYPos s - dotYPos s) * 0.3 in
  mkState (mouseXPos s) (mouseYPos s) dotXPos dotYPos (follow dotXPos dotYPos 0 (dots s)).

(** The trail as the creation loop of the uniform-random file leaves it
    (the Fibonacci file starts the opacities at [(dotCount - i) / dotCount]
    and is the same otherwise), and the state at the load of the page. *)
Definition initialDots : list Dot :=
  map (fun i => mkDot 0 0 0 0 ((INR dotCount - INR i) / INR dotCount * 0.6)) (seq 0 dotCount).

Definition initial : State := mkState 0 0 0 0 initialDots.

(** The [mousemove] listener and the frames, in the order they run. *)
Inductive event : Type :=
| MouseMove (clientX clientY : R)
| Frame.

Definition handle (e : event) (s : State) : State :=
  match e with
  | MouseMove clientX clientY => mkState clientX clientY (dotXPos s) (dotYPos s) (dots s)
  | Frame => animateCursor s
  end.

Definition handleAll (events : list event) (s : State) : State :=
  fold_left (fun s e => handle e s) events s.

(** A pointer event inside a viewport [width] by [height]. *)
Definition inViewport (width height : R) (e : event) : Prop :=
  match e with
  | MouseMove clientX clientY => 0 <= clientX <= width /\ 0 <= clientY <= height
  | Frame => True
  end.

(** The pointer, the main dot and the trail all inside a rectangle. *)
Definition inBox (left right top bottom : R) (s : State) : Prop :=
  left <= mouseXPos s <= right /\ top <= mouseYPos s <= bottom
  /\ left <= dotXPos s <= right /\ top <= dotYPos s <= bottom
  /\ Forall (fun dot => left <= x dot <= right /\ top <= y dot <= bottom) (dots s).

End CursorTrail.

(** * Properties *)

Lemma sin2_cos2' (a : R) : sin a * sin a + cos a * cos a = 1.
Proof. pose proof (sin2_cos2 a) as H. unfold Rsqr in H. exact H. Qed.

Lemma spherical_length (r a b : R) :
  0 <= r ->
  sqrt ((r * sin a * cos b) * (r * sin a * cos b)
        + (r * sin a * sin b) * (r * sin a * sin b)
        + (r * cos a) * (r * cos a)) = r.
Proof.
  intros Hr. apply sqrt_lem_1; [ | exact Hr | ].
  - pose proof (sin2_cos2' a). pose proof (sin2_cos2' b). nra.
  - pose proof (sin2_cos2' a) as Ha. pose proof (sin2_cos2' b) as Hb.
    replace (r * sin a * cos b * (r * sin a * cos b)
             + r * sin a * sin b * (r * sin a * sin b)
             + r * cos a * (r * cos a))
      with (r * r * (sin a * sin a * (sin b * sin b + cos b * cos b)
                     + cos a * cos a)) by ring.
    rewrite Hb, Rmult_1_r, Ha. ring.
Qed.

Lemma mapM_Forall {A B} (P : B -> Prop) (f : A -> Gen B) :
  (forall a c, P (fst (f a c))) ->
  forall l c, Forall P (fst (mapM f l c)).
Proof.
  intros Hf l. induction l as [| a l IH]; intros c; simpl.
  - constructor.
  - unfold bind, ret. specialize (Hf a c).
    destruct (f a c) as [b c1]. specialize (IH c1).
    destruct (mapM f l c1) as [bs c2]. simpl in *. constructor; assumption.
Qed.

Lemma uniform_node_length (random : nat -> R) (i c : nat) :
  Vector3.length (Uniform.basePosition (fst (Uniform.createNode random i c))) = 1.005.
Proof.
  unfold Uniform.createNode, Uniform.Math_random, bind, ret. simpl.
  unfold Vector3.length. simpl.
  apply spherical_length. lra.
Qed.

Lemma fibonacci_node_length (i : nat) :
  Vector3.length (Fibonacci.nodePosition i) = 1.005.
Proof.
  unfold Fibonacci.nodePosition, Vector3.length. simpl Vector3.x. simpl Vector3.y. simpl Vector3.z.
  set (phi := acos _). set (theta := sqrt _ * phi).
  replace (1.005 * cos theta * sin phi) with (1.005 * sin phi * cos theta) by ring.
  replace (1.005 * sin theta * sin phi) with (1.005 * sin phi * sin theta) by ring.
  apply spherical_length. lra.
Qed.

Lemma uniform_nodes_at_radius (random : nat -> R) (c : nat) :
  Forall (fun nd => Vector3.length (Uniform.basePosition nd) = 1.005)
         (fst (Uniform.createNodes random c)).
Proof.
  unfold Uniform.createNodes.
  apply (mapM_Forall (fun nd => Vector3.length (Uniform.basePosition nd) = 1.005)
                     (Uniform.createNode random)).
  intros i c'. apply uniform_node_length.
Qed.

Lemma fibonacci_nodes_at_radius :
  Forall (fun p => Vector3.length p = 1.005) Fibonacci.nodePositions.
Proof.
  unfold Fibonacci.nodePositions. apply Forall_forall. intros p Hp.
  apply in_map_iff in Hp. destruct Hp as [i [<- _]].
  apply fibonacci_node_length.
Qed.

(** C1. Every node position generated at scene construction lies at the
    intended radius 1.005 from the centre: in the uniform-random variant
    whatever [Math.random()] returns, and in the Fibonacci-sphere variant
    for each of the 1200 indices. *)
Theorem C1_nodes_at_radius :
  (forall (random : nat -> R) (c : nat),
      Forall (fun nd => Vector3.length (Uniform.basePosition nd) = 1.005)
             (fst (Uniform.createNodes random c)))
  /\ Forall (fun p => Vector3.length p = 1.005) Fibonacci.nodePositions.
Proof.
  split.
  - exact uniform_nodes_at_radius.
  - exact fibonacci_nodes_at_radius.
Qed.

(** ** Great-circle interpolation *)

Lemma lengthSq_nonneg (v : vec3) : 0 <= Vector3.lengthSq v.
Proof. unfold Vector3.lengthSq. nra. Qed.

Lemma length_sqrt_lengthSq (v : vec3) : Vector3.length v = sqrt (Vector3.lengthSq v).
Proof. reflexivity. Qed.

Lemma length_eq_lengthSq (v : vec3) (r : R) :
  0 <= r -> Vector3.length v = r -> Vector3.lengthSq v = r * r.
Proof.
  intros Hr H. rewrite length_sqrt_lengthSq in H. rewrite <- H.
  symmetry. apply sqrt_sqrt. apply lengthSq_nonneg.
Qed.

Lemma lengthSq_eq_length (v : vec3) (r : R) :
  0 <= r -> Vector3.lengthSq v = r * r -> Vector3.length v = r.
Proof.
  intros Hr H. rewrite length_sqrt_lengthSq, H. apply sqrt_square. exact Hr.
Qed.

Lemma lengthSq_multiplyScalar (v : vec3) (s : R) :
  Vector3.lengthSq (Vector3.multiplyScalar v s) = s * s * Vector3.lengthSq v.
Proof. unfold Vector3.lengthSq, Vector3.multiplyScalar. simpl. ring. Qed.

(** A vector of non-zero length is normalised to a unit vector. *)
Lemma normalize_length (v : vec3) :
  0 < Vector3.lengthSq v -> Vector3.length (Vector3.normalize v) = 1.
Proof.
  intros Hpos.
  assert (Hl : 0 < Vector3.length v).
  { rewrite length_sqrt_lengthSq. apply sqrt_lt_R0. exact Hpos. }
  unfold Vector3.normalize, Vector3.divideScalar.
  destruct (Req_dec_T (Vector3.length v) 0) as [E | _]; [lra |].
  apply lengthSq_eq_length; [lra |].
  rewrite lengthSq_multiplyScalar.
  assert (Hsq : Vector3.length v * Vector3.length v = Vector3.lengthSq v).
  { rewrite length_sqrt_lengthSq. apply sqrt_sqrt. lra. }
  rewrite <- Hsq. field. lra.
Qed.

(** A vector of length [r > 0] is normalised by dividing by [r]. *)
Lemma normalize_of_length (v : vec3) (r : R) :
  0 < r -> Vector3.length v = r ->
  Vector3.normalize v = Vector3.multiplyScalar v (1 / r).
Proof.
  intros Hr Hl. unfold Vector3.normalize, Vector3.divideScalar.
  rewrite Hl. destruct (Req_dec_T r 0); [lra | reflexivity].
Qed.

(** [sin² u + sin² v + 2 sin u sin v cos (u + v) = sin² (u + v)]. *)
Lemma slerp_identity (u v : R) :
  sin u * sin u + sin v * sin v + 2 * (sin u * sin v) * cos (u + v)
  = sin (u + v) * sin (u + v).
Proof.
  rewrite cos_plus, sin_plus.
  pose proof (sin2_cos2' u) as Hu. pose proof (sin2_cos2' v) as Hv.
  assert (Hcu : cos u * cos u = 1 - sin u * sin u) by lra.
  assert (Hcv : cos v * cos v = 1 - sin v * sin v) by lra.
  transitivity (sin u * sin u * (cos v * cos v) + sin v * sin v * (cos u * cos u)
                + 2 * (sin u * sin v) * (cos u * cos v)); [| ring].
  rewrite Hcu, Hcv. ring.
Qed.

Lemma Math_acos_Some (v angle : R) :
  Math_acos v = Some angle -> -1 <= v <= 1 /\ angle = acos v.
Proof.
  unfold Math_acos. destruct (Rle_dec (-1) v); [| discriminate].
  destruct (Rle_dec v 1); [| discriminate].
  intros H. injection H as <-. split; [lra | reflexivity].
Qed.

Lemma Math_acos_in_range (v : R) : -1 <= v <= 1 -> Math_acos v = Some (acos v).
Proof.
  intros [H1 H2]. unfold Math_acos.
  destruct (Rle_dec (-1) v); [| lra]. destruct (Rle_dec v 1); [reflexivity | lra].
Qed.

Lemma Math_acos_above (v : R) : 1 < v -> Math_acos v = None.
Proof.
  intros H. unfold Math_acos.
  destruct (Rle_dec (-1) v); [| reflexivity]. destruct (Rle_dec v 1); [lra | reflexivity].
Qed.

Lemma lengthSq_combination (pos1 pos2 : vec3) (a b : R) :
  Vector3.lengthSq (combination pos1 pos2 a b)
  = a * a * Vector3.lengthSq pos1 + b * b * Vector3.lengthSq pos2
    + 2 * (a * b) * Vector3.dot pos1 pos2.
Proof.
  unfold combination, Vector3.lengthSq, Vector3.dot, Vector3.addScaledVector, Vector3.zero.
  simpl. ring.
Qed.

(** Between two vectors of the same length [r >= 1] whose dot product has
    an arc cosine with a non-zero sine, the combination is not the zero
    vector; for [r = 1] it already has length 1. *)
Lemma lengthSq_slerp (pos1 pos2 : vec3) (r angle t : R) :
  1 <= r ->
  Vector3.length pos1 = r -> Vector3.length pos2 = r ->
  Math_acos (Vector3.dot pos1 pos2) = Some angle ->
  sin angle <> 0 ->
  let a := sin ((1 - t) * angle) / sin angle in
  let b := sin (t * angle) / sin angle in
  Vector3.lengthSq (combination pos1 pos2 a b)
  = 1 + (r * r - 1) * (a * a + b * b).
Proof.
  intros Hr H1 H2 Hacos Hsin a b.
  apply Math_acos_Some in Hacos. destruct Hacos as [Hrange ->].
  rewrite lengthSq_combination.
  rewrite (length_eq_lengthSq pos1 r), (length_eq_lengthSq pos2 r) by lra.
  pose proof (cos_acos _ Hrange) as Hcos.
  set (th := acos (Vector3.dot pos1 pos2)) in *.
  pose proof (slerp_identity ((1 - t) * th) (t * th)) as Hid.
  replace ((1 - t) * th + t * th) with th in Hid by ring.
  rewrite Hcos in Hid.
  unfold a, b. fold th.
  set (su := sin ((1 - t) * th)) in *. set (sv := sin (t * th)) in *.
  set (S := sin th) in *. set (d := Vector3.dot pos1 pos2) in *.
  assert (Hd : 2 * (su * sv) * d = S * S - su * su - sv * sv) by lra.
  transitivity ((r * r * (su * su + sv * sv) + 2 * (su * sv) * d) / (S * S)).
  - field. exact Hsin.
  - rewrite Hd. field. exact Hsin.
Qed.

Lemma combination_specSlerp (p1 p2 : vec3) (angle t : R) :
  Math_acos (Vector3.dot p1 p2) = Some angle -> sin angle <> 0 ->
  combination p1 p2 (sin ((1 - t) * angle) / sin angle) (sin (t * angle) / sin angle)
  = specSlerp p1 p2 t.
Proof.
  intros Hacos Hsin. apply Math_acos_Some in Hacos. destruct Hacos as [_ ->].
  unfold combination, specSlerp, Vector3.addScaledVector, Vector3.zero. simpl.
  f_equal; field; exact Hsin.
Qed.

Lemma combination_1_0 (p1 p2 : vec3) : combination p1 p2 1 0 = p1.
Proof.
  destruct p1 as [x1 y1 z1]. unfold combination, Vector3.addScaledVector, Vector3.zero.
  simpl. f_equal; ring.
Qed.

Lemma combination_0_1 (p1 p2 : vec3) : combination p1 p2 0 1 = p2.
Proof.
  destruct p2 as [x2 y2 z2]. unfold combination, Vector3.addScaledVector, Vector3.zero.
  simpl. f_equal; ring.
Qed.

(** The direction computed by the interpolation loops of the
    uniform-random variant, between two vectors of the same length
    [r >= 1]. *)
Lemma greatCircleDirection_sound (p1 p2 : vec3) (r angle t : R) :
  1 <= r ->
  Vector3.length p1 = r -> Vector3.length p2 = r ->
  Math_acos (Vector3.dot p1 p2) = Some angle ->
  sin angle <> 0 ->
  let d := greatCircleDirection p1 p2 angle (sin angle) t in
  d = Vector3.normalize (specSlerp p1 p2 t)
  /\ Vector3.length d = 1
  /\ (t = 0 -> d = Vector3.multiplyScalar p1 (1 / r))
  /\ (t = 1 -> d = Vector3.multiplyScalar p2 (1 / r)).
Proof.
  intros Hr H1 H2 Hacos Hsin d. unfold d, greatCircleDirection. cbv zeta.
  split; [| split; [| split]].
  - rewrite (combination_specSlerp p1 p2 angle t Hacos Hsin). reflexivity.
  - apply normalize_length.
    rewrite (lengthSq_slerp p1 p2 r angle t Hr H1 H2 Hacos Hsin).
    set (a := sin ((1 - t) * angle) / sin angle).
    set (b := sin (t * angle) / sin angle).
    assert (0 <= (r * r - 1) * (a * a + b * b)) by (apply Rmult_le_pos; nra).
    lra.
  - intros ->.
    replace ((1 - 0) * angle) with angle by ring.
    replace (0 * angle) with 0 by ring. rewrite sin_0.
    replace (sin angle / sin angle) with 1 by (field; exact Hsin).
    replace (0 / sin angle) with 0 by (field; exact Hsin).
    rewrite combination_1_0. apply normalize_of_length; lra.
  - intros ->.
    replace ((1 - 1) * angle) with 0 by ring.
    replace (1 * angle) with angle by ring. rewrite sin_0.
    replace (sin angle / sin angle) with 1 by (field; exact Hsin).
    replace (0 / sin angle) with 0 by (field; exact Hsin).
    rewrite combination_0_1. apply normalize_of_length; lra.
Qed.

Lemma lengthSq_lerp (p1 p2 : vec3) (t : R) :
  Vector3.lengthSq (Vector3.lerp p1 p2 t)
  = (1 - t) * (1 - t) * Vector3.lengthSq p1 + t * t * Vector3.lengthSq p2
    + 2 * (t * (1 - t)) * Vector3.dot p1 p2.
Proof. unfold Vector3.lengthSq, Vector3.lerp, Vector3.dot. simpl. ring. Qed.

(** The direction computed by [createArc] between two vectors of the same
    length that are not opposite. *)
Lemma arcDirection_sound (p1 p2 : vec3) (r t : R) :
  0 < r ->
  Vector3.length p1 = r -> Vector3.length p2 = r ->
  - (r * r) < Vector3.dot p1 p2 ->
  0 <= t <= 1 ->
  let d := Fibonacci.arcDirection p1 p2 t in
  Vector3.length d = 1
  /\ (t = 0 -> d = Vector3.multiplyScalar p1 (1 / r))
  /\ (t = 1 -> d = Vector3.multiplyScalar p2 (1 / r)).
Proof.
  intros Hr H1 H2 Hdot Ht d. unfold d, Fibonacci.arcDirection.
  split; [| split].
  - apply normalize_length. rewrite lengthSq_lerp.
    rewrite (length_eq_lengthSq p1 r), (length_eq_lengthSq p2 r) by lra.
    set (D := Vector3.dot p1 p2 + r * r).
    replace (Vector3.dot p1 p2) with (D - r * r) by (unfold D; ring).
    assert (HD : 0 < D) by (unfold D; lra).
    replace ((1 - t) * (1 - t) * (r * r) + t * t * (r * r)
             + 2 * (t * (1 - t)) * (D - r * r))
      with (r * r * ((1 - 2 * t) * (1 - 2 * t)) + 2 * (t * (1 - t)) * D) by ring.
    assert (Hrr : 0 < r * r) by nra.
    destruct (Req_dec t (1 / 2)) as [-> | Hne].
    + assert (0 < 2 * (1 / 2 * (1 - 1 / 2)) * D) by nra. nra.
    + assert (0 < (1 - 2 * t) * (1 - 2 * t)) by (apply Rsqr_pos_lt; lra).
      assert (0 < r * r * ((1 - 2 * t) * (1 - 2 * t))) by (apply Rmult_lt_0_compat; lra).
      assert (0 <= 2 * (t * (1 - t)) * D) by (apply Rmult_le_pos; nra).
      lra.
  - intros ->.
    replace (Vector3.lerp p1 p2 0) with p1.
    + apply normalize_of_length; lra.
    + destruct p1. unfold Vector3.lerp. simpl. f_equal; ring.
  - intros ->.
    replace (Vector3.lerp p1 p2 1) with p2.
    + apply normalize_of_length; lra.
    + destruct p2. unfold Vector3.lerp. simpl. f_equal; ring.
Qed.

Lemma length_e1 : Vector3.length Examples.e1 = 1.
Proof. apply lengthSq_eq_length; [lra |]. unfold Vector3.lengthSq. simpl. ring. Qed.

Lemma length_e2 : Vector3.length Examples.e2 = 1.
Proof. apply lengthSq_eq_length; [lra |]. unfold Vector3.lengthSq. simpl. ring. Qed.

Lemma dot_e1_e2 : Vector3.dot Examples.e1 Examples.e2 = 0.
Proof. unfold Vector3.dot. simpl. ring. Qed.

Lemma Math_acos_e1_e2 : Math_acos (Vector3.dot Examples.e1 Examples.e2) = Some (PI / 2).
Proof. rewrite dot_e1_e2, Math_acos_in_range by lra. rewrite acos_0. reflexivity. Qed.

(** C2 (as amended). Between two endpoints of the same length [r] (unit
    directions for [r = 1]; the node positions that [initEarth] passes for
    [r = 1.005]):
    - in the uniform-random variant, whenever the arc cosine of the dot
      product exists and its sine is at least 0.001, each turn of the
      build loop pushes a point whose direction, before it is scaled to
      the altitude, is the renormalised
      [(sin((1-t) angle) p1 + sin(t angle) p2) / sin(angle)]; that
      direction has length 1 for every [t], is the direction of [p1] at
      [t = 0] and of [p2] at [t = 1]; the frame loop pushes the same point
      when the sine is above 0.001;
    - in the Fibonacci variant, [createArc] takes the normalised linear
      interpolation of two non-opposite endpoints, which has length 1 for
      [t] in [0,1], and is the direction of [p1] at [t = 0] and of [p2]
      at [t = 1]. *)
Theorem C2_great_circle_interpolation :
  (forall (p1 p2 : vec3) (r angle altitude t : R),
      1 <= r ->
      Vector3.length p1 = r -> Vector3.length p2 = r ->
      Math_acos (Vector3.dot p1 p2) = Some angle ->
      0.001 <= sin angle ->
      exists d : vec3,
        Uniform.buildStep p1 p2 altitude t
        = Pushed (Point (Vector3.multiplyScalar d altitude))
        /\ (0.001 < sin angle ->
            Uniform.frameStep p1 p2 altitude t
            = Pushed (Point (Vector3.multiplyScalar d altitude)))
        /\ d = Vector3.normalize (specSlerp p1 p2 t)
        /\ Vector3.length d = 1
        /\ (t = 0 -> d = Vector3.multiplyScalar p1 (1 / r))
        /\ (t = 1 -> d = Vector3.multiplyScalar p2 (1 / r)))
  /\ (forall (p1 p2 : vec3) (r t : R),
         0 < r ->
         Vector3.length p1 = r -> Vector3.length p2 = r ->
         - (r * r) < Vector3.dot p1 p2 ->
         0 <= t <= 1 ->
         let d := Fibonacci.arcDirection p1 p2 t in
         d = Vector3.normalize (Vector3.lerp p1 p2 t)
         /\ Vector3.length d = 1
         /\ (t = 0 -> d = Vector3.multiplyScalar p1 (1 / r))
         /\ (t = 1 -> d = Vector3.multiplyScalar p2 (1 / r))).
Proof.
  split.
  - intros p1 p2 r angle altitude t Hr H1 H2 Hacos Hsin.
    assert (Hne : sin angle <> 0) by lra.
    exists (greatCircleDirection p1 p2 angle (sin angle) t).
    split; [| split].
    + unfold Uniform.buildStep. rewrite Hacos. cbv zeta.
      destruct (Rlt_dec (sin angle) 0.001); [lra | reflexivity].
    + intros Hgt. unfold Uniform.frameStep. rewrite Hacos. cbv zeta.
      destruct (Rgt_dec (sin angle) 0.001); [reflexivity | lra].
    + exact (greatCircleDirection_sound p1 p2 r angle t Hr H1 H2 Hacos Hne).
  - intros p1 p2 r t Hr H1 H2 Hdot Ht d. split; [reflexivity |].
    exact (arcDirection_sound p1 p2 r t Hr H1 H2 Hdot Ht).
Qed.

Lemma C2_great_circle_interpolation_witness :
  (exists d : vec3,
      Uniform.buildStep Examples.e1 Examples.e2 1.004 0
      = Pushed (Point (Vector3.multiplyScalar d 1.004))
      /\ (0.001 < sin (PI / 2) ->
          Uniform.frameStep Examples.e1 Examples.e2 1.004 0
          = Pushed (Point (Vector3.multiplyScalar d 1.004)))
      /\ d = Vector3.normalize (specSlerp Examples.e1 Examples.e2 0)
      /\ Vector3.length d = 1
      /\ (0 = 0 -> d = Vector3.multiplyScalar Examples.e1 (1 / 1))
      /\ (0 = 1 -> d = Vector3.multiplyScalar Examples.e2 (1 / 1)))
  /\ (let d := Fibonacci.arcDirection Examples.e1 Examples.e2 0 in
      d = Vector3.normalize (Vector3.lerp Examples.e1 Examples.e2 0)
      /\ Vector3.length d = 1
      /\ (0 = 0 -> d = Vector3.multiplyScalar Examples.e1 (1 / 1))
      /\ (0 = 1 -> d = Vector3.multiplyScalar Examples.e2 (1 / 1))).
Proof.
  split.
  - apply (proj1 C2_great_circle_interpolation Examples.e1 Examples.e2 1 (PI / 2) 1.004 0).
    + lra.
    + exact length_e1.
    + exact length_e2.
    + exact Math_acos_e1_e2.
    + rewrite sin_PI2. lra.
  - apply (proj2 C2_great_circle_interpolation Examples.e1 Examples.e2 1 0).
    + lra.
    + exact length_e1.
    + exact length_e2.
    + rewrite dot_e1_e2. lra.
    + lra.
Defined.

(** C2, the claim as stated fails for [createArc]: at the tenth of its 40
    segments, a quarter of the way between two perpendicular unit
    directions, its direction is not the renormalised great-circle
    formula. *)
Lemma C2_createArc_is_not_slerp :
  Vector3.length Examples.e1 = 1
  /\ Vector3.length Examples.e2 = 1
  /\ Vector3.dot Examples.e1 Examples.e2 = 0
  /\ In (1 / 4) (parameters 40)
  /\ Fibonacci.arcDirection Examples.e1 Examples.e2 (1 / 4)
     <> Vector3.normalize (specSlerp Examples.e1 Examples.e2 (1 / 4)).
Proof.
  split; [exact length_e1 |]. split; [exact length_e2 |]. split; [exact dot_e1_e2 |].
  split.
  { unfold parameters. apply in_map_iff. exists 10%nat. split.
    - rewrite !INR_IZR_INZ. simpl. lra.
    - apply in_seq. lia. }
  intros Heq.
  assert (Hne : sin (PI / 2) <> 0) by (rewrite sin_PI2; lra).
  (* the renormalised formula points at (sin (3 pi / 8), sin (pi / 8), 0) *)
  assert (Hspec : Vector3.lengthSq (specSlerp Examples.e1 Examples.e2 (1 / 4)) = 1).
  { rewrite <- (combination_specSlerp _ _ (PI / 2) (1 / 4) Math_acos_e1_e2 Hne).
    rewrite (lengthSq_slerp _ _ 1 (PI / 2) (1 / 4) (Rle_refl 1) length_e1 length_e2
               Math_acos_e1_e2 Hne). ring. }
  assert (Hnorm : Vector3.normalize (specSlerp Examples.e1 Examples.e2 (1 / 4))
                  = Vector3.multiplyScalar (specSlerp Examples.e1 Examples.e2 (1 / 4)) (1 / 1)).
  { apply normalize_of_length; [lra |]. apply lengthSq_eq_length; [lra |].
    rewrite Hspec. ring. }
  assert (Hx2 : Vector3.x (Vector3.normalize (specSlerp Examples.e1 Examples.e2 (1 / 4)))
                = cos (PI / 8)).
  { rewrite Hnorm. unfold specSlerp. rewrite dot_e1_e2, acos_0, sin_PI2.
    simpl. replace ((1 - 1 / 4) * (PI / 2)) with (PI / 2 - PI / 8) by field.
    rewrite sin_shift. field. }
  assert (Hy2 : Vector3.y (Vector3.normalize (specSlerp Examples.e1 Examples.e2 (1 / 4)))
                = sin (PI / 8)).
  { rewrite Hnorm. unfold specSlerp. rewrite dot_e1_e2, acos_0, sin_PI2.
    simpl. replace (1 / 4 * (PI / 2)) with (PI / 8) by field. field. }
  (* the direction of [createArc] points at (3, 1, 0) *)
  assert (Hl : Vector3.lengthSq (Vector3.lerp Examples.e1 Examples.e2 (1 / 4)) = 5 / 8).
  { unfold Vector3.lengthSq, Vector3.lerp. simpl. field. }
  assert (Hlen : Vector3.length (Vector3.lerp Examples.e1 Examples.e2 (1 / 4)) = sqrt (5 / 8)).
  { rewrite length_sqrt_lengthSq, Hl. reflexivity. }
  assert (Hpos : 0 < sqrt (5 / 8)) by (apply sqrt_lt_R0; lra).
  assert (Hx1 : Vector3.x (Fibonacci.arcDirection Examples.e1 Examples.e2 (1 / 4))
                = 3 * Vector3.y (Fibonacci.arcDirection Examples.e1 Examples.e2 (1 / 4))).
  { unfold Fibonacci.arcDirection.
    rewrite (normalize_of_length _ (sqrt (5 / 8)) Hpos Hlen). simpl. field. lra. }
  rewrite Heq, Hx2, Hy2 in Hx1.
  (* cos (pi / 8) = 3 sin (pi / 8) contradicts sin (pi / 4) = cos (pi / 4) > 0 *)
  pose proof (sin_2a (PI / 8)) as Hs. pose proof (cos_2a (PI / 8)) as Hc.
  replace (2 * (PI / 8)) with (PI / 4) in Hs, Hc by field.
  rewrite sin_PI4 in Hs. rewrite cos_PI4 in Hc. rewrite Hx1 in Hs, Hc.
  assert (Hq : 0 < 1 / sqrt 2).
  { apply Rdiv_lt_0_compat; [lra | apply sqrt_lt_R0; lra]. }
  nra.
Qed.

(** ** The guard of the interpolation loops *)

Lemma sqrt_lt_bound (v b : R) : 0 <= v -> 0 <= b -> v < b * b -> sqrt v < b.
Proof.
  intros Hv Hb H. rewrite <- (sqrt_square b Hb). apply sqrt_lt_1_alt.
  split; [exact Hv | exact H].
Qed.

Lemma distanceToSquared_nonneg (a b : vec3) : 0 <= Vector3.distanceToSquared a b.
Proof.
  unfold Vector3.distanceToSquared. cbv zeta.
  pose proof (Rle_0_sqr (Vector3.x a - Vector3.x b)) as Hx.
  pose proof (Rle_0_sqr (Vector3.y a - Vector3.y b)) as Hy.
  pose proof (Rle_0_sqr (Vector3.z a - Vector3.z b)) as Hz.
  unfold Rsqr in Hx, Hy, Hz. lra.
Qed.

(** X1. In the frame loop a point is pushed, and so the division by the
    sine is reached, only when the sine of the angle is a number above
    0.001. *)
Lemma frameStep_pushed (p1 p2 : vec3) (m t : R) (pt : js_point) :
  Uniform.frameStep p1 p2 m t = Pushed pt ->
  exists angle, Math_acos (Vector3.dot p1 p2) = Some angle /\ 0.001 < sin angle.
Proof.
  unfold Uniform.frameStep.
  destruct (Math_acos (Vector3.dot p1 p2)) as [angle |]; [| discriminate].
  cbv zeta. destruct (Rgt_dec (sin angle) 0.001) as [Hgt | _]; [| discriminate].
  intros _. exists angle. split; [reflexivity | exact Hgt].
Qed.


(** Both loops skip the turn when the sine is a number below 0.001. *)
Lemma steps_skipped (p1 p2 : vec3) (m t angle : R) :
  Math_acos (Vector3.dot p1 p2) = Some angle -> sin angle < 0.001 ->
  Uniform.buildStep p1 p2 m t = Skipped /\ Uniform.frameStep p1 p2 m t = Skipped.
Proof.
  intros Hacos Hlt. unfold Uniform.buildStep, Uniform.frameStep. rewrite Hacos. cbv zeta.
  destruct (Rlt_dec (sin angle) 0.001); [| lra].
  destruct (Rgt_dec (sin angle) 0.001); [lra |]. split; reflexivity.
Qed.

(** C6 (the build loops miss the guard). For two node positions of the
    sphere of radius 1.005 that are about 0.134 apart, close enough to be
    connected, the dot product is above 1 and its arc cosine is NaN: every
    turn of the build loop evaluates the two quotients by the NaN sine and
    pushes a NaN point, while the frame loop skips every turn. *)
Theorem C6_build_loop_divides_by_NaN :
  Vector3.length Examples.nearA = 1.005
  /\ Vector3.length Examples.nearB = 1.005
  /\ Vector3.distanceTo Examples.nearA Examples.nearB < 0.5
  /\ Math_acos (Vector3.dot Examples.nearA Examples.nearB) = None
  /\ (forall altitude t : R,
         Uniform.buildStep Examples.nearA Examples.nearB altitude t = Pushed NaNPoint)
  /\ (forall radiusMultiplier t : R,
         Uniform.frameStep Examples.nearA Examples.nearB radiusMultiplier t = Skipped).
Proof.
  assert (Hdot : Math_acos (Vector3.dot Examples.nearA Examples.nearB) = None).
  { apply Math_acos_above. unfold Vector3.dot. simpl. lra. }
  split; [| split; [| split; [| split; [| split]]]].
  - apply lengthSq_eq_length; [lra |]. unfold Vector3.lengthSq. simpl. ring.
  - apply lengthSq_eq_length; [lra |]. unfold Vector3.lengthSq. simpl. field.
  - unfold Vector3.distanceTo. apply sqrt_lt_bound.
    + apply distanceToSquared_nonneg.
    + lra.
    + unfold Vector3.distanceToSquared. simpl. lra.
  - exact Hdot.
  - intros altitude t. unfold Uniform.buildStep. rewrite Hdot. reflexivity.
  - intros m t. unfold Uniform.frameStep. rewrite Hdot. reflexivity.
Qed.

(** ** Short connections *)

Section UniformConnections.

Variable random : nat -> R.
Variable nodePositions : list Uniform.NodeData.

Lemma tryConnect_inv (i j : nat) (st : list Uniform.Connection * nat) (c : nat) :
  connectionsInv nodePositions st -> (snd st < 800)%nat ->
  connectionsInv nodePositions (fst (Uniform.tryConnect random nodePositions i j st c)).
Proof.
  intros (Hlen & Hcap & Hall) Hlt. unfold Uniform.tryConnect. cbv zeta.
  destruct (Rlt_dec _ 0.5) as [Hd |]; [| repeat split; assumption].
  unfold bind, Uniform.Math_random, ret. cbv beta iota.
  destruct (Rgt_dec (random c) 0.85); [| repeat split; assumption].
  unfold connectionsInv. cbn [fst snd]. repeat split.
  - rewrite length_app. cbn [List.length]. lia.
  - lia.
  - apply Forall_app. split; [exact Hall |]. constructor; [| constructor].
    split; [exact Hd | reflexivity].
Qed.

Lemma forJ_inv (i : nat) (js : list nat) :
  forall st c, connectionsInv nodePositions st ->
               connectionsInv nodePositions (fst (Uniform.forJ random nodePositions i js st c)).
Proof.
  induction js as [| j js IH]; intros st c Hinv; simpl.
  - exact Hinv.
  - destruct (snd st <? Uniform.maxConnections)%nat eqn:Hlt; [| exact Hinv].
    apply Nat.ltb_lt in Hlt. unfold bind.
    pose proof (tryConnect_inv i j st c Hinv Hlt) as Hstep.
    destruct (Uniform.tryConnect random nodePositions i j st c) as [st' c'].
    apply IH. exact Hstep.
Qed.

Lemma forI_inv (n : nat) (idxs : list nat) :
  forall st c, connectionsInv nodePositions st ->
               connectionsInv nodePositions (fst (Uniform.forI random nodePositions n idxs st c)).
Proof.
  induction idxs as [| i idxs IH]; intros st c Hinv; simpl.
  - exact Hinv.
  - destruct (snd st <? Uniform.maxConnections)%nat; [| exact Hinv].
    unfold bind.
    pose proof (forJ_inv i (seq (S i) (n - S i)) st c Hinv) as Hstep.
    destruct (Uniform.forJ random nodePositions i (seq (S i) (n - S i)) st c) as [st' c'].
    apply IH. exact Hstep.
Qed.

Lemma createConnections_inv (c : nat) :
  connectionsInv nodePositions (fst (Uniform.createConnections random nodePositions c)).
Proof.
  unfold Uniform.createConnections. cbv zeta. apply forI_inv.
  repeat split; simpl; [lia | constructor].
Qed.

End UniformConnections.

Section FibonacciLines.

Variable random : nat -> R.

Lemma vertices_app (a b : list (vec3 * vec3)) :
  Fibonacci.vertices (a ++ b) = Fibonacci.vertices a ++ Fibonacci.vertices b.
Proof. unfold Fibonacci.vertices. apply flat_map_app. Qed.

Lemma segments_vertices (segs : list (vec3 * vec3)) :
  Fibonacci.segments (Fibonacci.vertices segs) = segs.
Proof.
  induction segs as [| [p q] segs IH]; [reflexivity |].
  change (Fibonacci.vertices ((p, q) :: segs)) with (p :: q :: Fibonacci.vertices segs).
  cbn [Fibonacci.segments]. rewrite IH. reflexivity.
Qed.

(** The loop of one node appends whole segments from that node, all
    shorter than 0.35, and stops once its counter has reached 5. *)
Lemma sampleNeighbours_spec (i turns : nat) :
  forall (linePoints : list vec3) (n c : nat),
    (n <= 4)%nat ->
    exists added : list (vec3 * vec3),
      fst (Fibonacci.sampleNeighbours random turns i (linePoints, n) c)
      = (linePoints ++ Fibonacci.vertices added, (n + List.length added)%nat)
      /\ (n + List.length added <= 5)%nat
      /\ Forall (fun s => fst s = Fibonacci.positionOf i /\ shortSegment s) added.
Proof.
  induction turns as [| turns IH]; intros linePoints n c Hn.
  - exists []. simpl. rewrite app_nil_r, Nat.add_0_r.
    repeat split; [lia | constructor].
  - simpl. unfold bind at 1.
    destruct (Fibonacci.neighbourIndex random i c) as [idx c1].
    destruct (i =? idx)%nat; [apply IH; exact Hn |].
    cbv zeta.
    destruct (Rlt_dec (Vector3.distanceTo (Fibonacci.positionOf i) (Fibonacci.positionOf idx)) 0.35)
      as [Hd | Hd]; simpl fst; simpl snd.
    + destruct (4 <? S n)%nat eqn:Hcap.
      * exists [(Fibonacci.positionOf i, Fibonacci.positionOf idx)]. simpl.
        apply Nat.ltb_lt in Hcap.
        replace (n + 1)%nat with (S n) by lia.
        repeat split; [lia |]. constructor; [| constructor].
        split; [reflexivity | exact Hd].
      * apply Nat.ltb_ge in Hcap.
        destruct (IH (linePoints ++ [Fibonacci.positionOf i; Fibonacci.positionOf idx])
                     (S n) c1 Hcap) as (added & Heq & Hle & Hall).
        exists ((Fibonacci.positionOf i, Fibonacci.positionOf idx) :: added).
        rewrite Heq. simpl. rewrite <- app_assoc. simpl.
        replace (n + S (List.length added))%nat with (S (n + List.length added)) by lia.
        repeat split; [lia |]. constructor; [| exact Hall].
        split; [reflexivity | exact Hd].
    + destruct (4 <? n)%nat eqn:Hcap.
      * apply Nat.ltb_lt in Hcap. lia.
      * apply IH. exact Hn.
Qed.

Lemma connectNode_spec (i : nat) (linePoints : list vec3) (c : nat) :
  exists added : list (vec3 * vec3),
    fst (Fibonacci.connectNode random i linePoints c)
    = linePoints ++ Fibonacci.vertices added
    /\ (List.length added <= 5)%nat
    /\ Forall (fun s => fst s = Fibonacci.positionOf i /\ shortSegment s) added.
Proof.
  unfold Fibonacci.connectNode, bind, ret.
  destruct (sampleNeighbours_spec i 30 linePoints 0 c) as (added & Heq & Hle & Hall); [lia |].
  exists added.
  destruct (Fibonacci.sampleNeighbours random 30 i (linePoints, 0%nat) c) as [st c'].
  simpl in *. rewrite Heq. simpl. repeat split; [lia | exact Hall].
Qed.

Lemma connectNodes_spec (idxs : list nat) :
  forall (segs : list (vec3 * vec3)) (c : nat),
    Forall shortSegment segs ->
    exists segs' : list (vec3 * vec3),
      fst (Fibonacci.connectNodes random idxs (Fibonacci.vertices segs) c)
      = Fibonacci.vertices segs'
      /\ Forall shortSegment segs'.
Proof.
  induction idxs as [| i idxs IH]; intros segs c Hall; simpl.
  - exists segs. split; [reflexivity | exact Hall].
  - unfold bind.
    destruct (connectNode_spec i (Fibonacci.vertices segs) c) as (added & Heq & _ & Hadd).
    destruct (Fibonacci.connectNode random i (Fibonacci.vertices segs) c) as [lp c1].
    simpl in Heq. rewrite Heq, <- vertices_app.
    apply IH. apply Forall_app. split; [exact Hall |].
    eapply Forall_impl; [| exact Hadd]. intros s [_ Hs]. exact Hs.
Qed.

End FibonacciLines.

(** C3. Every short connection made at scene construction joins two node
    positions strictly closer than the threshold, and the connections stay
    under the cap.  Uniform-random variant: the lines are as many as the
    counter says, at most 800, and each joins nodes less than 0.5 apart.
    Fibonacci variant: the loop of one node appends to the vertex array at
    most 5 segments, each from that node to a position less than 0.35
    away, and every segment of the finished array is shorter than 0.35. *)
Theorem C3_short_connections :
  (forall (random : nat -> R) (nodePositions : list Uniform.NodeData) (c : nat),
      let st := fst (Uniform.createConnections random nodePositions c) in
      List.length (fst st) = snd st
      /\ (snd st <= 800)%nat
      /\ Forall (fun cn =>
                   Vector3.distanceTo
                     (Uniform.positionOf nodePositions (Uniform.node1 cn))
                     (Uniform.positionOf nodePositions (Uniform.node2 cn)) < 0.5
                   /\ Uniform.isLongArc cn = false)
                (fst st))
  /\ (forall (random : nat -> R) (i : nat) (linePoints : list vec3) (c : nat),
         exists added : list (vec3 * vec3),
           fst (Fibonacci.connectNode random i linePoints c)
           = linePoints ++ Fibonacci.vertices added
           /\ (List.length added <= 5)%nat
           /\ Forall (fun s => fst s = Fibonacci.positionOf i
                               /\ Vector3.distanceTo (fst s) (snd s) < 0.35) added)
  /\ (forall (random : nat -> R) (c : nat),
         Forall (fun s => Vector3.distanceTo (fst s) (snd s) < 0.35)
                (Fibonacci.segments (fst (Fibonacci.createLines random c)))).
Proof.
  split; [| split].
  - intros random nodePositions c st.
    exact (createConnections_inv random nodePositions c).
  - intros random i linePoints c. exact (connectNode_spec random i linePoints c).
  - intros random c. unfold Fibonacci.createLines.
    destruct (connectNodes_spec random (seq 0 Fibonacci.nodeCount) [] c (Forall_nil _))
      as (segs & Heq & Hall).
    change (Fibonacci.vertices []) with (@nil vec3) in Heq.
    rewrite Heq, segments_vertices. exact Hall.
Qed.

(** ** Long arcs *)

Lemma mapM_head {A B} (f : A -> Gen B) (a : A) (l : list A) (c : nat) :
  In (fst (f a c)) (fst (mapM f (a :: l) c)).
Proof.
  simpl. unfold bind, ret. destruct (f a c) as [b c1].
  destruct (mapM f l c1) as [bs c2]. simpl. left. reflexivity.
Qed.

Section UniformLongArcs.

Variable random : nat -> R.
Variable nodePositions : list Uniform.NodeData.

(** The retry loop ends on a pair at least 1.2 apart, or after its
    tenth resampling. *)
Lemma resample_spec (idx1 budget : nat) :
  forall (idx2 attempts c : nat),
    (attempts + budget = 10)%nat ->
    let r := fst (Uniform.resample random nodePositions budget idx1 idx2 attempts c) in
    (snd r <= 10)%nat /\ (1.2 <= chord nodePositions idx1 (fst r) \/ snd r = 10%nat).
Proof.
  induction budget as [| budget IH]; intros idx2 attempts c Hsum; simpl.
  - split; [lia | right; lia].
  - fold (chord nodePositions idx1 idx2).
    destruct (Rlt_dec (chord nodePositions idx1 idx2) 1.2) as [Hlt | Hge].
    + unfold bind. destruct (Uniform.randomIndex random nodePositions c) as [idx2' c1].
      apply IH. lia.
    + simpl. split; [lia | left; lra].
Qed.

Lemma createLongArc_spec (c : nat) :
  let made := fst (Uniform.createLongArc random nodePositions c) in
  Uniform.isLongArc (fst made) = true
  /\ (snd made <= 10)%nat
  /\ (1.2 <= chord nodePositions (Uniform.node1 (fst made)) (Uniform.node2 (fst made))
      \/ snd made = 10%nat).
Proof.
  cbv zeta.
  remember (Uniform.createLongArc random nodePositions c) as result eqn:Hres.
  unfold Uniform.createLongArc in Hres. unfold bind at 1 in Hres.
  destruct (Uniform.randomIndex random nodePositions c) as [idx1 c1].
  unfold bind at 1 in Hres.
  destruct (Uniform.randomIndex random nodePositions c1) as [idx2 c2].
  unfold bind at 1 in Hres.
  pose proof (resample_spec idx1 10 idx2 0 c2 eq_refl) as Hr. cbv zeta in Hr.
  destruct (Uniform.resample random nodePositions 10 idx1 idx2 0 c2) as [r c3].
  cbv zeta in Hres. unfold bind, ret, Uniform.Math_random in Hres.
  cbv beta iota in Hres. subst result. cbn [fst snd] in *.
  cbn [Uniform.isLongArc Uniform.node1 Uniform.node2].
  split; [reflexivity | exact Hr].
Qed.

End UniformLongArcs.

Lemma tryArc_spec (random : nat -> R) (c : nat) :
  match fst (Fibonacci.tryArc random c) with
  | Some a =>
      1.0 < Vector3.distanceTo (Fibonacci.positionOf (fst (fst a)))
                               (Fibonacci.positionOf (snd (fst a)))
  | None => True
  end.
Proof.
  unfold Fibonacci.tryArc. unfold bind at 1.
  destruct (Fibonacci.randomIndex random c) as [i1 c1]. unfold bind at 1.
  destruct (Fibonacci.randomIndex random c1) as [i2 c2].
  destruct (i1 =? i2)%nat; [exact I |]. cbv zeta.
  destruct (Rgt_dec _ 1.0) as [Hgt | _]; [| exact I].
  unfold bind. destruct (Fibonacci.createArc random _ _ _ c2) as [arc c3].
  unfold ret. cbn [fst snd]. exact Hgt.
Qed.

(** C4 (as amended). Uniform-random variant: every long arc joins two
    nodes whose chord distance is at least 1.2 (not below the threshold),
    or the retry loop has resampled ten times and the arc is built from
    the pair last drawn.  Fibonacci variant: every arc joins two node
    positions more than 1.0 apart. *)
Theorem C4_long_arcs :
  (forall (random : nat -> R) (nodePositions : list Uniform.NodeData) (c : nat),
      Forall (fun made : Uniform.Connection * nat =>
                Uniform.isLongArc (fst made) = true
                /\ (snd made <= 10)%nat
                /\ (1.2 <= Vector3.distanceTo
                             (Uniform.positionOf nodePositions (Uniform.node1 (fst made)))
                             (Uniform.positionOf nodePositions (Uniform.node2 (fst made)))
                    \/ snd made = 10%nat))
             (fst (Uniform.createLongArcs random nodePositions c)))
  /\ (forall (random : nat -> R) (c : nat),
         Forall (fun a : nat * nat * Fibonacci.Arc =>
                   1.0 < Vector3.distanceTo (Fibonacci.positionOf (fst (fst a)))
                                            (Fibonacci.positionOf (snd (fst a))))
                (fst (Fibonacci.createArcs random c))).
Proof.
  split.
  - intros random nodePositions c. unfold Uniform.createLongArcs.
    apply mapM_Forall. intros _ c'. exact (createLongArc_spec random nodePositions c').
  - intros random c. unfold Fibonacci.createArcs, bind, ret.
    pose proof (mapM_Forall
                  (fun o : option (nat * nat * Fibonacci.Arc) =>
                     match o with
                     | Some a =>
                         1.0 < Vector3.distanceTo (Fibonacci.positionOf (fst (fst a)))
                                                  (Fibonacci.positionOf (snd (fst a)))
                     | None => True
                     end)
                  (fun _ : nat => Fibonacci.tryArc random)
                  (fun _ c' => tryArc_spec random c')
                  (seq 0 Fibonacci.arcCount) c) as Hall.
    destruct (mapM (fun _ : nat => Fibonacci.tryArc random) (seq 0 Fibonacci.arcCount) c)
      as [made c'].
    cbn [fst] in *. induction Hall as [| o made Ho _ IH]; simpl; [constructor |].
    destruct o as [a |]; simpl; [constructor; assumption | exact IH].
Qed.

Lemma chord_distance : Vector3.distanceTo Examples.chordA Examples.chordB = 1.2.
Proof.
  unfold Vector3.distanceTo. apply sqrt_lem_1.
  - apply distanceToSquared_nonneg.
  - lra.
  - unfold Vector3.distanceToSquared, Examples.chordA, Examples.chordB.
    cbn [Vector3.x Vector3.y Vector3.z].
    replace (sqrt 0.650025 - sqrt 0.650025) with 0 by ring. lra.
Qed.

Lemma chord_on_sphere :
  Forall (fun nd => Vector3.length (Uniform.basePosition nd) = 1.005) Examples.chordNodes.
Proof.
  assert (Hs : sqrt 0.650025 * sqrt 0.650025 = 0.650025) by (apply sqrt_sqrt; lra).
  apply Forall_forall. intros nd Hin. unfold Examples.chordNodes in Hin.
  apply in_map_iff in Hin. destruct Hin as (i & <- & _).
  cbn [Uniform.basePosition].
  destruct (i =? 1)%nat; apply lengthSq_eq_length; try lra;
    unfold Vector3.lengthSq, Examples.chordA, Examples.chordB;
    cbn [Vector3.x Vector3.y Vector3.z]; lra.
Qed.

Lemma chordNodes_length : List.length Examples.chordNodes = 600%nat.
Proof. unfold Examples.chordNodes. rewrite length_map, length_seq. reflexivity. Qed.

Lemma randomIndex_alternating_0 :
  Uniform.randomIndex Examples.alternating Examples.chordNodes 0%nat = (0%nat, 1%nat).
Proof.
  unfold Uniform.randomIndex, bind, ret, Uniform.Math_random, Math_floor.
  rewrite chordNodes_length.
  change (Examples.alternating 0) with 0.
  replace (0 * INR 600) with (INR 0) by (simpl; ring).
  rewrite Int_part_INR. reflexivity.
Qed.

Lemma randomIndex_alternating_1 :
  Uniform.randomIndex Examples.alternating Examples.chordNodes 1%nat = (1%nat, 2%nat).
Proof.
  unfold Uniform.randomIndex, bind, ret, Uniform.Math_random, Math_floor.
  rewrite chordNodes_length.
  change (Examples.alternating 1) with (1 / 600).
  replace (1 / 600 * INR 600) with (INR 1).
  - rewrite Int_part_INR. reflexivity.
  - rewrite !INR_IZR_INZ. simpl. lra.
Qed.

Lemma createLongArc_at_threshold :
  let made := fst (Uniform.createLongArc Examples.alternating Examples.chordNodes 0%nat) in
  Uniform.node1 (fst made) = 0%nat
  /\ Uniform.node2 (fst made) = 1%nat
  /\ snd made = 0%nat.
Proof.
  cbv zeta.
  remember (Uniform.createLongArc Examples.alternating Examples.chordNodes 0%nat)
    as result eqn:Hres.
  unfold Uniform.createLongArc in Hres. unfold bind at 1 in Hres.
  rewrite randomIndex_alternating_0 in Hres. unfold bind at 1 in Hres.
  rewrite randomIndex_alternating_1 in Hres. unfold bind at 1 in Hres.
  assert (Hr : Uniform.resample Examples.alternating Examples.chordNodes 10 0 1 0 2%nat
               = ((1%nat, 0%nat), 2%nat)).
  { cbn [Uniform.resample].
    change (Uniform.positionOf Examples.chordNodes 0) with Examples.chordA.
    change (Uniform.positionOf Examples.chordNodes 1) with Examples.chordB.
    rewrite chord_distance. destruct (Rlt_dec 1.2 1.2); [lra | reflexivity]. }
  rewrite Hr in Hres. cbv zeta in Hres.
  unfold bind, ret, Uniform.Math_random in Hres. cbv beta iota in Hres.
  subst result. cbn [fst snd Uniform.node1 Uniform.node2]. repeat split.
Qed.

(** C4, the claim as stated fails in the uniform-random variant: among
    600 nodes of the sphere, two that are exactly 1.2 apart are joined by
    a long arc without any resampling, although their distance does not
    exceed 1.2 and the retry budget is untouched. *)
Lemma C4_arc_at_threshold :
  Forall (fun nd => Vector3.length (Uniform.basePosition nd) = 1.005) Examples.chordNodes
  /\ List.length Examples.chordNodes = 600%nat
  /\ exists made : Uniform.Connection * nat,
      In made (fst (Uniform.createLongArcs Examples.alternating Examples.chordNodes 0%nat))
      /\ snd made = 0%nat
      /\ ~ (1.2 < Vector3.distanceTo
                    (Uniform.positionOf Examples.chordNodes (Uniform.node1 (fst made)))
                    (Uniform.positionOf Examples.chordNodes (Uniform.node2 (fst made)))
            \/ snd made = 10%nat).
Proof.
  split; [exact chord_on_sphere |]. split; [exact chordNodes_length |].
  exists (fst (Uniform.createLongArc Examples.alternating Examples.chordNodes 0%nat)).
  destruct createLongArc_at_threshold as (H1 & H2 & H3).
  split; [| split].
  - unfold Uniform.createLongArcs.
    exact (mapM_head (fun _ => Uniform.createLongArc Examples.alternating Examples.chordNodes)
                     0%nat (seq 1 19) 0%nat).
  - exact H3.
  - rewrite H1, H2, H3.
    change (Uniform.positionOf Examples.chordNodes 0) with Examples.chordA.
    change (Uniform.positionOf Examples.chordNodes 1) with Examples.chordB.
    rewrite chord_distance. intros [Hlt | Heq]; [lra | discriminate].
Qed.

(** ** Rotation *)

(** Turning about the y axis keeps the length. *)
Lemma applyAxisAngle_y_lengthSq (v : vec3) (angle : R) :
  Vector3.lengthSq (Vector3.applyAxisAngle v Uniform.yAxis angle) = Vector3.lengthSq v.
Proof.
  unfold Vector3.applyAxisAngle, Vector3.lengthSq, Uniform.yAxis.
  cbn [Vector3.x Vector3.y Vector3.z]. cbv zeta.
  pose proof (sin2_cos2' (angle / 2)) as H.
  set (s := sin (angle / 2)) in *. set (c := cos (angle / 2)) in *.
  nsatz.
Qed.

Lemma applyAxisAngle_y_length (v : vec3) (angle : R) :
  Vector3.length (Vector3.applyAxisAngle v Uniform.yAxis angle) = Vector3.length v.
Proof. rewrite !length_sqrt_lengthSq, applyAxisAngle_y_lengthSq. reflexivity. Qed.

(** The rotation of a group keeps the length. *)
Lemma Euler_apply_length (rx ry rz : R) (v : vec3) :
  Vector3.length (Euler.apply rx ry rz v) = Vector3.length v.
Proof.
  rewrite !length_sqrt_lengthSq. f_equal.
  unfold Euler.apply, Vector3.lengthSq. cbv zeta.
  cbn [Vector3.x Vector3.y Vector3.z].
  pose proof (sin2_cos2' rx) as Hx. pose proof (sin2_cos2' ry) as Hy.
  pose proof (sin2_cos2' rz) as Hz.
  set (a := cos rx) in *. set (b := sin rx) in *.
  set (c := cos ry) in *. set (d := sin ry) in *.
  set (e := cos rz) in *. set (f := sin rz) in *.
  nsatz.
Qed.

(** What [animate] does to the rotation and to the instance matrices of
    the uniform-random variant. *)
Lemma uniform_frames_rotation (n : nat) (s : Uniform.Scene) :
  Uniform.earthRotationY (Uniform.frames n s) = Uniform.earthRotationY s + INR n * 0.002
  /\ Uniform.positions (Uniform.frames n s) = Uniform.positions s.
Proof.
  induction n as [| n [IHr IHp]].
  - simpl. split; [lra | reflexivity].
  - cbn [Uniform.frames]. unfold Uniform.animate. cbv zeta.
    cbn [Uniform.earthRotationY Uniform.positions].
    rewrite IHr, IHp, S_INR. split; [lra | reflexivity].
Qed.

Lemma uniform_frames_instances (n : nat) (s : Uniform.Scene) :
  Forall (fun nd => Vector3.length (Uniform.basePosition nd) = 1.005) (Uniform.positions s) ->
  Forall (fun inst => Vector3.length (Uniform.position inst) = 1.005) (Uniform.instances s) ->
  Forall (fun inst => Vector3.length (Uniform.position inst) = 1.005)
         (Uniform.instances (Uniform.frames n s)).
Proof.
  intros Hpos Hinst. destruct n as [| n]; [exact Hinst |].
  cbn [Uniform.frames]. unfold Uniform.animate. cbv zeta. cbn [Uniform.instances].
  destruct (uniform_frames_rotation n s) as [_ ->].
  apply Forall_forall. intros inst Hin. apply in_map_iff in Hin.
  destruct Hin as (nd & <- & Hnd).
  unfold Uniform.updateNode. cbv zeta. cbn [Uniform.position].
  rewrite applyAxisAngle_y_length.
  rewrite Forall_forall in Hpos. apply Hpos. exact Hnd.
Qed.

Lemma bind_eq {A B} (m : Gen A) (k : A -> Gen B) (c : nat) :
  bind m k c = k (fst (m c)) (snd (m c)).
Proof. unfold bind. destruct (m c). reflexivity. Qed.

Lemma uniform_initEarth_scene (random : nat -> R) (c : nat) :
  let s := fst (Uniform.initEarth random c) in
  Uniform.frameCount s = 0%nat
  /\ Uniform.earthRotationY s = 0
  /\ Uniform.positions s = fst (Uniform.createNodes random c)
  /\ Uniform.instances s
     = map (fun nd => Uniform.mkInstance 1 (Uniform.basePosition nd))
           (fst (Uniform.createNodes random c)).
Proof.
  cbv zeta. unfold Uniform.initEarth. rewrite !bind_eq. unfold ret.
  cbn [fst Uniform.frameCount Uniform.earthRotationY Uniform.positions Uniform.instances].
  repeat split.
Qed.

(** What [animate] does to the rotation of the Fibonacci variant while the
    pointer offset is zero. *)
Lemma fibonacci_frames_rotation (n : nat) (s : Fibonacci.Scene) :
  Fibonacci.mouseX s = 0 -> Fibonacci.mouseY s = 0 -> Fibonacci.rotationX s = 0 ->
  Fibonacci.mouseX (Fibonacci.frames n s) = 0
  /\ Fibonacci.mouseY (Fibonacci.frames n s) = 0
  /\ Fibonacci.rotationX (Fibonacci.frames n s) = 0
  /\ Fibonacci.rotationY (Fibonacci.frames n s) = Fibonacci.rotationY s + INR n * 0.0008.
Proof.
  intros Hx Hy Hr. induction n as [| n (IHx & IHy & IHr & IHy')].
  - simpl. repeat split; try assumption. lra.
  - cbn [Fibonacci.frames]. unfold Fibonacci.animate. cbv zeta.
    cbn [Fibonacci.mouseX Fibonacci.mouseY Fibonacci.rotationX Fibonacci.rotationY].
    rewrite IHx, IHy, IHr, IHy', S_INR. repeat split; lra.
Qed.

Lemma fibonacci_initEarth_scene (random : nat -> R) (c : nat) :
  let s := fst (Fibonacci.initEarth random c) in
  Fibonacci.mouseX s = 0 /\ Fibonacci.mouseY s = 0
  /\ Fibonacci.rotationX s = 0 /\ Fibonacci.rotationY s = 0.
Proof.
  cbv zeta. unfold Fibonacci.initEarth. rewrite !bind_eq. unfold ret.
  cbn [fst Fibonacci.mouseX Fibonacci.mouseY Fibonacci.rotationX Fibonacci.rotationY].
  repeat split.
Qed.

Module RotationFacts.

Import Floats.
#[local] Set Warnings "-inexact-float".

(** C5 (as amended). From the scene that [initEarth] builds, with no
    pointer input, 100 calls of the frame updater leave the rotation about
    the y axis at 100 times the increment (0.002 in the uniform-random
    variant, 0.0008 in the Fibonacci variant) up to rounding: exactly so
    in real arithmetic, where the total lies in [0, 2 pi) and so is also
    that total modulo 2 pi, and within 1e-15 of the product on binary64
    floats; and after every number of frames each node is displayed,
    turned about the y axis, at distance 1.005 from the centre. *)
Theorem C5_hundred_frames :
  (forall (random : nat -> R) (c : nat),
      let s0 := fst (Uniform.initEarth random c) in
      Uniform.earthRotationY (Uniform.frames 100 s0) = 100 * 0.002
      /\ 0 <= 100 * 0.002 < 2 * PI
      /\ forall n : nat,
          Forall (fun inst => Vector3.length (Uniform.position inst) = 1.005)
                 (Uniform.instances (Uniform.frames n s0)))
  /\ (forall (random : nat -> R) (c : nat),
         let s0 := fst (Fibonacci.initEarth random c) in
         Fibonacci.rotationY (Fibonacci.frames 100 s0) = 100 * 0.0008
         /\ 0 <= 100 * 0.0008 < 2 * PI
         /\ forall n : nat,
             Fibonacci.rotationX (Fibonacci.frames n s0) = 0
             /\ Forall (fun p => Vector3.length (Fibonacci.displayed (Fibonacci.frames n s0) p)
                                 = 1.005)
                       Fibonacci.nodePositions)
  /\ (abs (Accumulator.frames 100 Accumulator.uniformStep 0 - 100 * 0.002) <? 1e-15)%float
     = true
  /\ (abs (Accumulator.frames 100 (Accumulator.fibonacciStep 0) 0 - 100 * 0.0008) <? 1e-15)%float
     = true.
Proof.
  pose proof PI2_3_2 as Hpi.
  split; [| split; [| split]].
  - intros random c. cbv zeta.
    destruct (uniform_initEarth_scene random c) as (_ & Hrot & Hpos & Hinst).
    set (s0 := fst (Uniform.initEarth random c)) in *.
    split; [| split].
    + destruct (uniform_frames_rotation 100 s0) as [-> _]. rewrite Hrot.
      rewrite INR_IZR_INZ. simpl. lra.
    + lra.
    + intros n. apply uniform_frames_instances.
      * rewrite Hpos. apply uniform_nodes_at_radius.
      * rewrite Hinst. apply Forall_forall. intros inst Hin.
        apply in_map_iff in Hin. destruct Hin as (nd & <- & Hnd).
        cbn [Uniform.position].
        pose proof (uniform_nodes_at_radius random c) as Hall.
        rewrite Forall_forall in Hall. apply Hall. exact Hnd.
  - intros random c. cbv zeta.
    destruct (fibonacci_initEarth_scene random c) as (Hmx & Hmy & Hrx & Hry).
    set (s0 := fst (Fibonacci.initEarth random c)) in *.
    split; [| split].
    + destruct (fibonacci_frames_rotation 100 s0 Hmx Hmy Hrx) as (_ & _ & _ & ->).
      rewrite Hry, INR_IZR_INZ. simpl. lra.
    + lra.
    + intros n. destruct (fibonacci_frames_rotation n s0 Hmx Hmy Hrx) as (_ & _ & Hx & _).
      split; [exact Hx |].
      apply Forall_forall. intros p Hp. unfold Fibonacci.displayed.
      rewrite Euler_apply_length.
      pose proof fibonacci_nodes_at_radius as Hall.
      rewrite Forall_forall in Hall. apply Hall. exact Hp.
  - vm_compute. reflexivity.
  - vm_compute. reflexivity.
Qed.

(** C5, the claim as stated fails on binary64 floats: after 100 frames
    the accumulators hold 0.20000000000000015 and 0.07999999999999996,
    which are not 100 times the increments. *)
Lemma C5_accumulator_is_not_exact :
  (Accumulator.frames 100 Accumulator.uniformStep 0 =? 100 * 0.002)%float = false
  /\ (Accumulator.frames 100 (Accumulator.fibonacciStep 0) 0 =? 100 * 0.0008)%float = false
  /\ (Accumulator.frames 100 Accumulator.uniformStep 0 =? 0.20000000000000015)%float = true
  /\ (Accumulator.frames 100 (Accumulator.fibonacciStep 0) 0 =? 0.07999999999999996)%float
     = true.
Proof. repeat split; vm_compute; reflexivity. Qed.

End RotationFacts.

(** ** Throttled updates *)

Lemma map_opacity_updateGeometry (positions : list Uniform.NodeData) (rotationY : R)
      (l : list Uniform.Connection) :
  map Uniform.opacity (map (Uniform.updateGeometry positions rotationY) l)
  = map Uniform.opacity l.
Proof.
  rewrite map_map. apply map_ext. intros conn. reflexivity.
Qed.

(** C7 (the node pulse is reset on a skipped frame). On a frame whose
    count is odd, the frame the every-2nd-frame throttle skips, the
    emissive intensity of the nodes and the opacity of every connection
    keep their values, but the scale of every node is set to 0.01 times
    1.0 whatever it was after the frame before. *)
Theorem C7_skipped_frame_resets_scale (s : Uniform.Scene) :
  Nat.even (Uniform.frameCount s) = true ->
  let s' := Uniform.animate s in
  Uniform.emissiveIntensity s' = Uniform.emissiveIntensity s
  /\ map Uniform.opacity (Uniform.connections s') = map Uniform.opacity (Uniform.connections s)
  /\ map Uniform.scale (Uniform.instances s')
     = map (fun _ => 0.01 * 1.0) (Uniform.positions s).
Proof.
  intros Heven s'.
  assert (Hodd : (S (Uniform.frameCount s) mod 2 =? 0)%nat = false).
  { apply Nat.eqb_neq. apply Nat.even_spec in Heven. destruct Heven as [k Hk].
    rewrite Hk. replace (S (2 * k)) with (1 + k * 2)%nat by lia.
    rewrite Nat.Div0.mod_add. cbn. discriminate. }
  unfold s', Uniform.animate. cbv zeta. rewrite Hodd.
  cbn [Uniform.emissiveIntensity Uniform.connections Uniform.instances].
  split; [reflexivity |]. split.
  - destruct (S (Uniform.frameCount s) mod 3 =? 0)%nat; [| reflexivity].
    apply map_opacity_updateGeometry.
  - rewrite map_map. apply map_ext. intros nd. reflexivity.
Qed.

Lemma C7_skipped_frame_resets_scale_witness :
  let s' := Uniform.animate Examples.pulsingScene in
  Uniform.emissiveIntensity s' = Uniform.emissiveIntensity Examples.pulsingScene
  /\ map Uniform.opacity (Uniform.connections s')
     = map Uniform.opacity (Uniform.connections Examples.pulsingScene)
  /\ map Uniform.scale (Uniform.instances s')
     = map (fun _ => 0.01 * 1.0) (Uniform.positions Examples.pulsingScene).
Proof.
  apply (C7_skipped_frame_resets_scale Examples.pulsingScene). reflexivity.
Defined.

(** ** The texture callbacks *)

Lemma lookup_assign_other (name other : string) (v : Texture.value)
      (g : list (string * Texture.value)) :
  other <> name ->
  Texture.lookup other (Texture.assign name v g) = Texture.lookup other g.
Proof.
  intros Hne. induction g as [| [n w] g IH]; [reflexivity |].
  simpl. destruct (String.eqb n name) eqn:En.
  - simpl. apply String.eqb_eq in En. subst n.
    destruct (String.eqb name other) eqn:Eo; [| reflexivity].
    apply String.eqb_eq in Eo. congruence.
  - simpl. destruct (String.eqb n other); [reflexivity | exact IH].
Qed.

(** C8 (the callback of the Fibonacci file throws). In the uniform-random
    file the error callback writes its line to the console, sets the
    colour of the material of [earth] to 0x2233ff and its emissive colour
    to 0x112244, completes normally and leaves every other global as it
    was.  In the Fibonacci file, which declares no [earth], the same
    callback throws a ReferenceError. *)
Theorem C8_texture_fallback :
  (forall console : list string,
      exists g' : list (string * Texture.value),
        Texture.onError (Texture.mkPage Texture.uniformGlobals console)
        = Texture.Normal (Texture.mkPage g' (console ++ ["Using procedural Earth"%string]))
        /\ Texture.lookup "earth" g'
           = Some (Texture.Mesh (Some (Texture.mkMaterial 0x2233ff 0x112244 None false)))
        /\ forall other : string,
            other <> "earth"%string ->
            Texture.lookup other g' = Texture.lookup other Texture.uniformGlobals)
  /\ (forall console : list string,
         Texture.onError (Texture.mkPage Texture.fibonacciGlobals console)
         = Texture.Throw (Texture.ReferenceError "earth")).
Proof.
  split.
  - intros console.
    exists (Texture.assign "earth"
              (Texture.Mesh (Some (Texture.mkMaterial 0x2233ff 0x112244 None false)))
              Texture.uniformGlobals).
    split; [reflexivity |]. split; [reflexivity |].
    intros other Hne. apply lookup_assign_other. exact Hne.
  - intros console. reflexivity.
Qed.

(** ** Pointer smoothing *)

Lemma fibonacci_frames_gap (n : nat) (s : Fibonacci.Scene) :
  Fibonacci.mouseY (Fibonacci.frames n s) = Fibonacci.mouseY s
  /\ Fibonacci.rotationX (Fibonacci.frames n s) - Fibonacci.mouseY s * 0.05
     = (1 - 0.05) ^ n * (Fibonacci.rotationX s - Fibonacci.mouseY s * 0.05).
Proof.
  induction n as [| n [IHm IHg]].
  - simpl. split; [reflexivity | ring].
  - cbn [Fibonacci.frames]. unfold Fibonacci.animate. cbv zeta.
    cbn [Fibonacci.mouseY Fibonacci.rotationX]. rewrite IHm.
    split; [reflexivity |].
    replace (Fibonacci.rotationX (Fibonacci.frames n s)
             + (Fibonacci.mouseY s * 0.05 - Fibonacci.rotationX (Fibonacci.frames n s)) * 0.05
             - Fibonacci.mouseY s * 0.05)
      with ((1 - 0.05)
            * (Fibonacci.rotationX (Fibonacci.frames n s) - Fibonacci.mouseY s * 0.05))
      by ring.
    rewrite IHg. simpl. ring.
Qed.

(** C9 (as amended). With the pointer offset fixed, each call of the
    updater multiplies the gap between the x rotation and its target
    [mouseY * 0.05] by exactly [1 - 0.05]: the gap never grows, it
    shrinks strictly whenever it is not zero (a zero gap stays zero), and
    over repeated frames it is [0.95 ^ n] times the first gap, which
    tends to zero. *)
Theorem C9_pointer_smoothing :
  forall s : Fibonacci.Scene,
    let target := Fibonacci.mouseY s * 0.05 in
    let gap := Fibonacci.rotationX s - target in
    let gap' := Fibonacci.rotationX (Fibonacci.animate s) - target in
    Fibonacci.mouseY (Fibonacci.animate s) = Fibonacci.mouseY s
    /\ gap' = (1 - 0.05) * gap
    /\ Rabs gap' <= Rabs gap
    /\ (gap <> 0 -> Rabs gap' < Rabs gap)
    /\ (gap = 0 -> gap' = 0)
    /\ (forall n : nat,
           Fibonacci.rotationX (Fibonacci.frames n s) - target = (1 - 0.05) ^ n * gap)
    /\ (forall eps : R,
           0 < eps ->
           exists N : nat,
             forall n : nat,
               (N <= n)%nat ->
               Rabs (Fibonacci.rotationX (Fibonacci.frames n s) - target) < eps).
Proof.
  intros s target gap gap'.
  assert (Hstep : gap' = (1 - 0.05) * gap).
  { unfold gap', gap, target, Fibonacci.animate. cbv zeta. cbn [Fibonacci.rotationX]. ring. }
  assert (Habs : Rabs gap' = 0.95 * Rabs gap).
  { rewrite Hstep, Rabs_mult, (Rabs_right (1 - 0.05)) by lra. lra. }
  pose proof (Rabs_pos gap) as Hpos.
  assert (Hframes : forall n : nat,
             Fibonacci.rotationX (Fibonacci.frames n s) - target = (1 - 0.05) ^ n * gap).
  { intros n. exact (proj2 (fibonacci_frames_gap n s)). }
  split; [reflexivity |]. split; [exact Hstep |]. split; [lra |].
  split; [| split; [| split]].
  - intros Hne. pose proof (Rabs_pos_lt gap Hne). lra.
  - intros Hz. rewrite Hstep, Hz. ring.
  - exact Hframes.
  - intros eps Heps.
    destruct (Req_dec gap 0) as [Hz | Hne].
    + exists 0%nat. intros n _. rewrite Hframes, Hz, Rmult_0_r, Rabs_R0. exact Heps.
    + assert (Hgap : 0 < Rabs gap) by (apply Rabs_pos_lt; exact Hne).
      assert (Hq : Rabs (1 - 0.05) < 1) by (rewrite Rabs_right; lra).
      destruct (pow_lt_1_zero (1 - 0.05) Hq (eps / Rabs gap)) as [N HN].
      { apply Rdiv_lt_0_compat; assumption. }
      exists N. intros n Hn. rewrite Hframes, Rabs_mult.
      specialize (HN n Hn).
      apply (Rmult_lt_compat_r (Rabs gap)) in HN; [| exact Hgap].
      replace (eps / Rabs gap * Rabs gap) with eps in HN by (field; lra).
      exact HN.
Qed.

Lemma C9_pointer_smoothing_witness :
  let s := Examples.pointerScene in
  let target := Fibonacci.mouseY s * 0.05 in
  Rabs (Fibonacci.rotationX (Fibonacci.animate s) - target)
  < Rabs (Fibonacci.rotationX s - target).
Proof.
  cbv zeta.
  apply (proj1 (proj2 (proj2 (proj2 (C9_pointer_smoothing Examples.pointerScene))))).
  unfold Examples.pointerScene. cbn [Fibonacci.rotationX Fibonacci.mouseY]. lra.
Defined.

(** C9, the claim as stated fails when the x rotation is already at its
    target, as it is before the pointer first moves: the gap is zero and
    stays zero, so it does not decrease strictly. *)
Lemma C9_zero_gap_does_not_decrease :
  let s := Examples.restScene in
  let target := Fibonacci.mouseY s * 0.05 in
  ~ (Rabs (Fibonacci.rotationX (Fibonacci.animate s) - target)
     < Rabs (Fibonacci.rotationX s - target)).
Proof.
  cbv zeta. unfold Fibonacci.animate, Examples.restScene. cbv zeta.
  cbn [Fibonacci.rotationX Fibonacci.mouseY].
  replace (0 + (0 * 0.05 - 0) * 0.05 - 0 * 0.05) with 0 by ring.
  replace (0 - 0 * 0.05) with 0 by ring. lra.
Qed.

(** ** The star ripple *)

Module StarRippleFacts.

Import Floats.
Import StarRipple.
Local Open Scope float_scope.
#[local] Set Warnings "-inexact-float".

Lemma mul_nan_l (x : float) : nan * x = nan.
Proof.
  rewrite <- (SF2Prim_Prim2SF (nan * x)), mul_spec.
  change (Prim2SF nan) with S754_nan. reflexivity.
Qed.

Lemma add_nan_l (x : float) : nan + x = nan.
Proof.
  rewrite <- (SF2Prim_Prim2SF (nan + x)), add_spec.
  change (Prim2SF nan) with S754_nan. reflexivity.
Qed.

Lemma add_nan_r (x : float) : x + nan = nan.
Proof.
  rewrite <- (SF2Prim_Prim2SF (x + nan)), add_spec.
  change (Prim2SF nan) with S754_nan.
  destruct (Prim2SF x); reflexivity.
Qed.

Lemma sub_nan_l (x : float) : nan - x = nan.
Proof.
  rewrite <- (SF2Prim_Prim2SF (nan - x)), sub_spec.
  change (Prim2SF nan) with S754_nan. reflexivity.
Qed.

Lemma sub_nan_r (x : float) : x - nan = nan.
Proof.
  rewrite <- (SF2Prim_Prim2SF (x - nan)), sub_spec.
  change (Prim2SF nan) with S754_nan.
  destruct (Prim2SF x); reflexivity.
Qed.

Lemma fround_nan : fround nan = nan.
Proof. reflexivity. Qed.

(** Two floats that compare equal, the second finite, subtract to a
    zero. *)
Lemma SFsub_of_equal (a b : spec_float) :
  SFeqb a b = true ->
  (forall s, b <> S754_infinity s) ->
  exists s, SF64sub a b = S754_zero s.
Proof.
  unfold SFeqb, SF64sub. intros H Hfin.
  destruct a as [sa | sa | | sa ma ea], b as [sb | sb | | sb mb eb]; simpl in H;
    try discriminate;
    try (exfalso; apply (Hfin sb); reflexivity);
    try (destruct sa; discriminate); try (destruct sb; discriminate).
  - simpl. destruct sa, sb; eexists; reflexivity.
  - assert (E : sa = sb /\ ea = eb /\ ma = mb).
    { destruct sa, sb; try discriminate;
        destruct (ea ?= eb)%Z eqn:Ee; try discriminate;
        apply Z.compare_eq in Ee; subst eb;
        destruct (PosDef.Pos.compare_cont Eq ma mb) eqn:Em; try discriminate;
        apply Pos.compare_eq in Em; subst mb; repeat split. }
    destruct E as (-> & -> & ->).
    exists false. unfold SFsub. cbv zeta. rewrite Z.sub_diag. reflexivity.
Qed.

Lemma finite_not_infinity (x : float) :
  is_finite x = true -> forall s, Prim2SF x <> S754_infinity s.
Proof.
  unfold is_finite, is_infinity. intros H s E.
  rewrite eqb_spec, abs_spec, E in H. simpl in H.
  rewrite Bool.orb_true_r in H. discriminate.
Qed.

Lemma coincide_sub_zero (x y : float) :
  (x =? y) = true -> is_finite y = true -> (x - y =? 0) = true.
Proof.
  intros Heq Hfin. rewrite eqb_spec in Heq.
  destruct (SFsub_of_equal _ _ Heq (finite_not_infinity y Hfin)) as [s Hs].
  rewrite eqb_spec, sub_spec, Hs. reflexivity.
Qed.

Lemma eqb_zero_cases (x : float) : (x =? 0) = true -> x = 0 \/ x = -0.
Proof.
  rewrite eqb_spec. change (Prim2SF 0) with (S754_zero false).
  intros H. rewrite <- (SF2Prim_Prim2SF x).
  destruct (Prim2SF x) as [s | s | | s m e]; simpl in H; try discriminate;
    try (destruct s; discriminate).
  destruct s; [right | left]; reflexivity.
Qed.

(** With both displacements zero the distance is zero, inside the ripple
    radius, and both quotients are [0 / 0]. *)
Lemma zero_displacement (dx dy : float) :
  (dx =? 0) = true -> (dy =? 0) = true ->
  (sqrt (dx * dx + dy * dy) <? 3.0) = true
  /\ dx / sqrt (dx * dx + dy * dy) = nan
  /\ dy / sqrt (dx * dx + dy * dy) = nan.
Proof.
  intros Hx Hy. apply eqb_zero_cases in Hx, Hy.
  destruct Hx as [-> | ->], Hy as [-> | ->]; repeat split; reflexivity.
Qed.

(** The frame in which the cursor sits on the star loses it. *)
Lemma updateStar_hit (cursorWorldX cursorWorldY : float) (s : Star) :
  (cursorWorldX - initialX s =? 0) = true ->
  (cursorWorldY - initialY s =? 0) = true ->
  lost (updateStar cursorWorldX cursorWorldY s).
Proof.
  intros Hx Hy. destruct (zero_displacement _ _ Hx Hy) as (Hlt & Hqx & Hqy).
  unfold lost, updateStar. cbv zeta.
  cbn [velocityX velocityY positionX positionY].
  rewrite Hlt, Hqx, Hqy.
  rewrite !mul_nan_l, !sub_nan_r, !mul_nan_l, !add_nan_l, !add_nan_r, fround_nan.
  repeat split.
Qed.

(** A lost star stays lost, wherever the cursor is. *)
Lemma updateStar_lost (cursorWorldX cursorWorldY : float) (s : Star) :
  lost s -> lost (updateStar cursorWorldX cursorWorldY s).
Proof.
  intros (Hvx & Hvy & _ & _). unfold lost, updateStar. cbv zeta.
  cbn [velocityX velocityY positionX positionY]. rewrite Hvx, Hvy.
  destruct (sqrt _ <? 3.0);
    rewrite ?sub_nan_l, !mul_nan_l, !add_nan_l, !add_nan_r, fround_nan;
    repeat split.
Qed.

Lemma ripples_lost (pointer : list (float * float)) :
  forall (stars : list Star) (i : nat) (s : Star),
    nth_error stars i = Some s -> lost s ->
    exists s', nth_error (ripples pointer stars) i = Some s' /\ lost s'.
Proof.
  induction pointer as [| [mouseX mouseY] pointer IH]; intros stars i s Hnth Hlost.
  - exists s. split; assumption.
  - cbn [ripples]. apply (IH _ i (updateStar (mouseX * 15) (- mouseY * 10) s)).
    + unfold ripple. cbv zeta. rewrite nth_error_map, Hnth. reflexivity.
    + apply updateStar_lost. exact Hlost.
Qed.

(** C10. The ripple divides the displacement from a star to the cursor by
    their distance under the sole test [dist < 3.0].  When the pointer
    maps exactly onto the base position of a star (finite, as every star
    coordinate is), the distance is zero, the test passes and both
    quotients are NaN; after that frame, and after any further frames
    wherever the pointer goes, the velocity of that star and its
    displayed position are NaN. *)
Theorem C10_ripple_nan_forever :
  forall (mouseX mouseY : float) (stars : list Star) (i : nat) (s : Star)
         (pointer : list (float * float)),
    nth_error stars i = Some s ->
    is_finite (initialX s) = true ->
    is_finite (initialY s) = true ->
    (mouseX * 15 =? initialX s) = true ->
    (- mouseY * 10 =? initialY s) = true ->
    let dx := mouseX * 15 - initialX s in
    let dy := - mouseY * 10 - initialY s in
    let dist := sqrt (dx * dx + dy * dy) in
    (dist <? 3.0) = true
    /\ dx / dist = nan
    /\ dy / dist = nan
    /\ exists s' : Star,
        nth_error (ripples pointer (ripple mouseX mouseY stars)) i = Some s'
        /\ velocityX s' = nan /\ velocityY s' = nan
        /\ positionX s' = nan /\ positionY s' = nan.
Proof.
  intros mouseX mouseY stars i s pointer Hnth Hfx Hfy Hcx Hcy dx dy dist.
  pose proof (coincide_sub_zero _ _ Hcx Hfx) as Hx.
  pose proof (coincide_sub_zero _ _ Hcy Hfy) as Hy.
  destruct (zero_displacement _ _ Hx Hy) as (Hlt & Hqx & Hqy).
  split; [exact Hlt |]. split; [exact Hqx |]. split; [exact Hqy |].
  apply (ripples_lost pointer _ i (updateStar (mouseX * 15) (- mouseY * 10) s)).
  - unfold ripple. cbv zeta. rewrite nth_error_map, Hnth. reflexivity.
  - apply updateStar_hit; assumption.
Qed.

Lemma C10_ripple_nan_forever_witness :
  let dx := 0 * 15 - initialX originStar in
  let dy := - 0 * 10 - initialY originStar in
  let dist := sqrt (dx * dx + dy * dy) in
  (dist <? 3.0) = true
  /\ dx / dist = nan
  /\ dy / dist = nan
  /\ exists s' : Star,
      nth_error (ripples [(0.3, 0.1); (0.5, -0.2)] (ripple 0 0 [originStar])) 0 = Some s'
      /\ velocityX s' = nan /\ velocityY s' = nan
      /\ positionX s' = nan /\ positionY s' = nan.
Proof.
  apply (C10_ripple_nan_forever 0 0 [originStar] 0 originStar [(0.3, 0.1); (0.5, -0.2)]);
    reflexivity.
Defined.

End StarRippleFacts.

(** ** The guards of the two loops, on sample endpoints *)

Lemma frameStep_pushed_witness :
  exists angle,
    Math_acos (Vector3.dot Examples.e1 Examples.e2) = Some angle /\ 0.001 < sin angle.
Proof.
  eapply (frameStep_pushed Examples.e1 Examples.e2 1.004 0).
  unfold Uniform.frameStep. rewrite Math_acos_e1_e2. cbv zeta.
  destruct (Rgt_dec (sin (PI / 2)) 0.001) as [_ | Hn]; [reflexivity |].
  exfalso. apply Hn. rewrite sin_PI2. lra.
Defined.


(** * Properties of the page scripts *)

(** ** The typing effect *)

Lemma substring_whole (str : string) : String.substring 0 (String.length str) str = str.
Proof. induction str as [| c str IH]; simpl; [reflexivity | rewrite IH; reflexivity]. Qed.

Lemma substringTo_0 (str : string) : Typing.substringTo str 0 = ""%string.
Proof. unfold Typing.substringTo. simpl. destruct str; reflexivity. Qed.

Lemma substringTo_length (str : string) :
  Typing.substringTo str (Z.of_nat (String.length str)) = str.
Proof. unfold Typing.substringTo. rewrite Nat2Z.id. apply substring_whole. Qed.

Lemma length_nonempty (str : string) : str <> ""%string -> (1 <= String.length str)%nat.
Proof. destruct str; [congruence | simpl; lia]. Qed.

(** While typing, short of the last character. *)
Lemma typeEffect_types (words : list string) (w : nat) (c : Z) (t : string) :
  (c + 1 <> Z.of_nat (String.length (nth w words ""%string)))%Z ->
  Typing.typeEffect words (Typing.mkState w c false t)
  = (Typing.mkState w (c + 1) false (Typing.substringTo (nth w words ""%string) (c + 1)),
     100%nat).
Proof.
  intros Hne. unfold Typing.typeEffect. cbn [Typing.wordIndex Typing.charIndex Typing.isDeleting].
  cbv zeta. cbn [negb andb].
  destruct (Z.eqb_spec (c + 1) (Z.of_nat (String.length (nth w words ""%string))));
    [contradiction | reflexivity].
Qed.

(** Typing the last character. *)
Lemma typeEffect_completes (words : list string) (w : nat) (c : Z) (t : string) :
  (c + 1 = Z.of_nat (String.length (nth w words ""%string)))%Z ->
  Typing.typeEffect words (Typing.mkState w c false t)
  = (Typing.mkState w (c + 1) true (nth w words ""%string), 2000%nat).
Proof.
  intros He. unfold Typing.typeEffect. cbn [Typing.wordIndex Typing.charIndex Typing.isDeleting].
  cbv zeta. cbn [negb andb]. rewrite He, Z.eqb_refl, substringTo_length. reflexivity.
Qed.

(** While deleting, short of the first character. *)
Lemma typeEffect_deletes (words : list string) (w : nat) (c : Z) (t : string) :
  (c - 1 <> 0)%Z ->
  Typing.typeEffect words (Typing.mkState w c true t)
  = (Typing.mkState w (c - 1) true (Typing.substringTo (nth w words ""%string) (c - 1)),
     50%nat).
Proof.
  intros Hne. unfold Typing.typeEffect. cbn [Typing.wordIndex Typing.charIndex Typing.isDeleting].
  cbv zeta. cbn [negb andb]. destruct (Z.eqb_spec (c - 1) 0); [contradiction | reflexivity].
Qed.

(** Deleting the first character. *)
Lemma typeEffect_advances (words : list string) (w : nat) (t : string) :
  Typing.typeEffect words (Typing.mkState w 1 true t)
  = (Typing.mkState ((w + 1) mod List.length words) 0 false ""%string, 500%nat).
Proof.
  unfold Typing.typeEffect. cbn [Typing.wordIndex Typing.charIndex Typing.isDeleting].
  cbv zeta. cbn [negb andb]. change (1 - 1)%Z with 0%Z. rewrite substringTo_0. reflexivity.
Qed.

Lemma calls_S (words : list string) (n : nat) (s : Typing.State) :
  Typing.calls words (S n) s
  = (fst (Typing.typeEffect words (fst (Typing.calls words n s))),
     (snd (Typing.calls words n s)
      + snd (Typing.typeEffect words (fst (Typing.calls words n s))))%nat).
Proof.
  cbn [Typing.calls]. destruct (Typing.calls words n s) as [s' e]. cbn [fst snd].
  destruct (Typing.typeEffect words s') as [s'' d]. reflexivity.
Qed.

Lemma calls_add (words : list string) (m n : nat) (s : Typing.State) :
  Typing.calls words (n + m) s
  = (fst (Typing.calls words m (fst (Typing.calls words n s))),
     (snd (Typing.calls words n s)
      + snd (Typing.calls words m (fst (Typing.calls words n s))))%nat).
Proof.
  induction m as [| m IH].
  - rewrite Nat.add_0_r. cbn [Typing.calls fst snd].
    destruct (Typing.calls words n s). cbn [fst snd]. f_equal. lia.
  - rewrite Nat.add_succ_r, !calls_S, IH. cbn [fst snd]. f_equal. lia.
Qed.


Lemma typeEffect_inRange (words : list string) (s : Typing.State) :
  Forall (fun word => word <> ""%string) words ->
  Typing.inRange words s ->
  let s' := fst (Typing.typeEffect words s) in
  Typing.inRange words s'
  /\ Typing.textContent s'
     = Typing.substringTo (nth (Typing.wordIndex s') words ""%string) (Typing.charIndex s').
Proof.
  intros Hwords (Hw & Htype & Hdel). destruct s as [w c d t].
  cbn [Typing.wordIndex Typing.charIndex Typing.isDeleting] in *.
  assert (Hlen : forall i, (i < List.length words)%nat ->
                           (1 <= String.length (nth i words ""%string))%nat).
  { intros i Hi. apply length_nonempty. rewrite Forall_forall in Hwords.
    apply Hwords. apply nth_In. exact Hi. }
  destruct d.
  - specialize (Hdel eq_refl). destruct (Z.eq_dec (c - 1) 0) as [He | Hne].
    + replace c with 1%Z in * by lia. rewrite typeEffect_advances. cbn [fst].
      assert (Hmod : ((w + 1) mod List.length words < List.length words)%nat)
        by (apply Nat.mod_upper_bound; lia).
      split.
      * unfold Typing.inRange.
        cbn [Typing.wordIndex Typing.charIndex Typing.isDeleting].
        split; [exact Hmod |]. split; [| discriminate].
        intros _. specialize (Hlen _ Hmod). lia.
      * cbn [Typing.textContent Typing.wordIndex Typing.charIndex].
        rewrite substringTo_0. reflexivity.
    + rewrite (typeEffect_deletes words w c t Hne). cbn [fst]. split.
      * unfold Typing.inRange.
        cbn [Typing.wordIndex Typing.charIndex Typing.isDeleting].
        split; [exact Hw |]. split; [discriminate | intros _; lia].
      * reflexivity.
  - specialize (Htype eq_refl).
    destruct (Z.eq_dec (c + 1) (Z.of_nat (String.length (nth w words ""%string))))
      as [He | Hne].
    + rewrite (typeEffect_completes words w c t He). cbn [fst]. split.
      * unfold Typing.inRange.
        cbn [Typing.wordIndex Typing.charIndex Typing.isDeleting].
        split; [exact Hw |]. split; [discriminate | intros _; lia].
      * cbn [Typing.textContent Typing.wordIndex Typing.charIndex].
        rewrite He, substringTo_length. reflexivity.
    + rewrite (typeEffect_types words w c t Hne). cbn [fst]. split.
      * unfold Typing.inRange.
        cbn [Typing.wordIndex Typing.charIndex Typing.isDeleting].
        split; [exact Hw |]. split; [intros _; lia | discriminate].
      * reflexivity.
Qed.

Lemma calls_inRange (words : list string) (n : nat) (s : Typing.State) :
  Forall (fun word => word <> ""%string) words ->
  Typing.inRange words s ->
  Typing.inRange words (fst (Typing.calls words n s)).
Proof.
  intros Hwords Hs. induction n as [| n IH]; [exact Hs |].
  rewrite calls_S. cbn [fst]. apply (typeEffect_inRange words _ Hwords IH).
Qed.

(** X3. Whatever the element shows at first, after every call of
    [typeEffect] on a list of words that are not empty the word index is
    inside the list, the character index lies between 0 and the length of
    the current word, and the element shows exactly the first
    [charIndex] characters of that word. *)
Theorem typeEffect_shows_prefix (words : list string) (n : nat) (text : string) :
  words <> [] ->
  Forall (fun word => word <> ""%string) words ->
  let s := fst (Typing.calls words (S n) (Typing.initial text)) in
  let currentWord := nth (Typing.wordIndex s) words ""%string in
  (Typing.wordIndex s < List.length words)%nat
  /\ (0 <= Typing.charIndex s <= Z.of_nat (String.length currentWord))%Z
  /\ Typing.textContent s = Typing.substringTo currentWord (Typing.charIndex s).
Proof.
  intros Hne Hwords. cbv zeta. rewrite calls_S. cbn [fst].
  assert (Hinit : Typing.inRange words (Typing.initial text)).
  { unfold Typing.inRange, Typing.initial.
    cbn [Typing.wordIndex Typing.charIndex Typing.isDeleting].
    assert (Hl : (0 < List.length words)%nat) by (destruct words; [congruence | simpl; lia]).
    split; [exact Hl |]. split; [| discriminate]. intros _.
    assert ((1 <= String.length (nth 0 words ""%string))%nat).
    { apply length_nonempty. rewrite Forall_forall in Hwords. apply Hwords.
      apply nth_In. exact Hl. }
    lia. }
  pose proof (calls_inRange words n _ Hwords Hinit) as Hn.
  destruct (typeEffect_inRange words _ Hwords Hn) as [(Hw & Htype & Hdel) Htext].
  split; [exact Hw |]. split; [| exact Htext].
  destruct (Typing.isDeleting
              (fst (Typing.typeEffect words
                      (fst (Typing.calls words n (Typing.initial text)))))).
  - specialize (Hdel eq_refl). lia.
  - specialize (Htype eq_refl). lia.
Qed.

Lemma typingWords_nonempty : Forall (fun word => word <> ""%string) Typing.typingWords.
Proof. repeat constructor; discriminate. Qed.

Lemma typeEffect_shows_prefix_witness :
  let s := fst (Typing.calls Typing.typingWords 40 (Typing.initial "Hello")) in
  let currentWord := nth (Typing.wordIndex s) Typing.typingWords ""%string in
  (Typing.wordIndex s < List.length Typing.typingWords)%nat
  /\ (0 <= Typing.charIndex s <= Z.of_nat (String.length currentWord))%Z
  /\ Typing.textContent s = Typing.substringTo currentWord (Typing.charIndex s).
Proof.
  apply (typeEffect_shows_prefix Typing.typingWords 39 "Hello").
  - discriminate.
  - exact typingWords_nonempty.
Defined.

(** Typing [k] characters that do not finish the word. *)
Lemma calls_typing (words : list string) (w k : nat) (c : Z) (t : string) :
  (c + Z.of_nat k < Z.of_nat (String.length (nth w words ""%string)))%Z ->
  Typing.calls words k (Typing.mkState w c false t)
  = (Typing.mkState w (c + Z.of_nat k) false
       match k with
       | O => t
       | S _ => Typing.substringTo (nth w words ""%string) (c + Z.of_nat k)
       end,
     (100 * k)%nat).
Proof.
  induction k as [| k IH]; intros Hlt.
  - cbn [Typing.calls]. rewrite Z.add_0_r. reflexivity.
  - rewrite calls_S, IH by lia. cbn [fst snd].
    rewrite typeEffect_types by lia. cbn [fst snd].
    replace (c + Z.of_nat k + 1)%Z with (c + Z.of_nat (S k))%Z by lia.
    f_equal. lia.
Qed.

(** Deleting [k] characters that do not empty the element. *)
Lemma calls_deleting (words : list string) (w k : nat) (c : Z) (t : string) :
  (Z.of_nat k < c)%Z ->
  Typing.calls words k (Typing.mkState w c true t)
  = (Typing.mkState w (c - Z.of_nat k) true
       match k with
       | O => t
       | S _ => Typing.substringTo (nth w words ""%string) (c - Z.of_nat k)
       end,
     (50 * k)%nat).
Proof.
  induction k as [| k IH]; intros Hlt.
  - cbn [Typing.calls]. rewrite Z.sub_0_r. reflexivity.
  - rewrite calls_S, IH by lia. cbn [fst snd].
    rewrite typeEffect_deletes by lia. cbn [fst snd].
    replace (c - Z.of_nat k - 1)%Z with (c - Z.of_nat (S k))%Z by lia.
    f_equal. lia.
Qed.

(** Typing a whole word from its start. *)
Lemma calls_word_typed (words : list string) (w : nat) (t : string) :
  let word := nth w words ""%string in
  word <> ""%string ->
  Typing.calls words (String.length word) (Typing.mkState w 0 false t)
  = (Typing.mkState w (Z.of_nat (String.length word)) true word,
     (100 * String.length word + 1900)%nat).
Proof.
  cbv zeta. intros Hne. apply length_nonempty in Hne.
  destruct (String.length (nth w words ""%string)) as [| k] eqn:Hlen; [lia |].
  rewrite calls_S, calls_typing by (rewrite Hlen; lia). cbn [fst snd].
  rewrite typeEffect_completes by (rewrite Hlen; lia). cbn [fst snd].
  f_equal; [| lia]. f_equal. lia.
Qed.

(** Deleting a whole word from its end. *)
Lemma calls_word_deleted (words : list string) (w : nat) (t : string) :
  let word := nth w words ""%string in
  word <> ""%string ->
  Typing.calls words (String.length word)
    (Typing.mkState w (Z.of_nat (String.length word)) true t)
  = (Typing.mkState ((w + 1) mod List.length words) 0 false ""%string,
     (50 * String.length word + 450)%nat).
Proof.
  cbv zeta. intros Hne. apply length_nonempty in Hne.
  destruct (String.length (nth w words ""%string)) as [| k] eqn:Hlen; [lia |].
  rewrite calls_S, calls_deleting by lia. cbn [fst snd].
  replace (Z.of_nat (S k) - Z.of_nat k)%Z with 1%Z by lia.
  rewrite typeEffect_advances. cbn [fst snd]. f_equal. lia.
Qed.

Lemma calls_word_cycle (words : list string) (w : nat) (t : string) :
  let word := nth w words ""%string in
  word <> ""%string ->
  Typing.calls words (2 * String.length word) (Typing.mkState w 0 false t)
  = (Typing.mkState ((w + 1) mod List.length words) 0 false ""%string,
     (150 * String.length word + 2350)%nat).
Proof.
  cbv zeta. intros Hne.
  replace (2 * String.length (nth w words ""%string))%nat
    with (String.length (nth w words ""%string) + String.length (nth w words ""%string))%nat
    by lia.
  rewrite calls_add, (calls_word_typed words w t Hne). cbn [fst snd].
  rewrite (calls_word_deleted words w _ Hne). cbn [fst snd]. f_equal. lia.
Qed.

(** X4. One word of the typing effect: from the start of a word of
    [L >= 1] characters, [L] calls leave the whole word in the element and
    switch to deleting after 100 L + 1900 ms of delays, and [2 L] calls
    leave the element empty at the start of the next word (the first one
    after the last) after 150 L + 2350 ms. *)
Theorem typeEffect_word_cycle (words : list string) (w : nat) (t : string) :
  let word := nth w words ""%string in
  let L := String.length word in
  word <> ""%string ->
  Typing.calls words L (Typing.mkState w 0 false t)
  = (Typing.mkState w (Z.of_nat L) true word, (100 * L + 1900)%nat)
  /\ Typing.calls words (2 * L) (Typing.mkState w 0 false t)
     = (Typing.mkState ((w + 1) mod List.length words) 0 false ""%string,
        (150 * L + 2350)%nat).
Proof.
  cbv zeta. intros Hne. split.
  - exact (calls_word_typed words w t Hne).
  - exact (calls_word_cycle words w t Hne).
Qed.

Lemma typeEffect_word_cycle_witness :
  Typing.calls Typing.typingWords 16 (Typing.mkState 3 0 false "")
  = (Typing.mkState 3 16 true "Research Scholar", 3500%nat)
  /\ Typing.calls Typing.typingWords 32 (Typing.mkState 3 0 false "")
     = (Typing.mkState 0 0 false ""%string, 4750%nat).
Proof.
  apply (typeEffect_word_cycle Typing.typingWords 3 ""). discriminate.
Defined.

Lemma firstn_snoc (words : list string) (j : nat) :
  (j < List.length words)%nat ->
  firstn (S j) words = firstn j words ++ [nth j words ""%string].
Proof.
  revert j. induction words as [| word words IH]; intros j Hj; [simpl in Hj; lia |].
  destruct j as [| j]; [reflexivity |].
  cbn [firstn nth app]. cbn [List.length] in Hj. rewrite <- IH by lia. reflexivity.
Qed.

Lemma charCount_snoc (words : list string) (word : string) :
  Typing.charCount (words ++ [word]) = (Typing.charCount words + String.length word)%nat.
Proof.
  unfold Typing.charCount. rewrite map_app, list_sum_app. simpl. lia.
Qed.

(** The first [j] words typed and deleted. *)
Lemma calls_words (words : list string) (j : nat) (t : string) :
  Forall (fun word => word <> ""%string) words ->
  (j <= List.length words)%nat ->
  Typing.calls words (2 * Typing.charCount (firstn j words)) (Typing.initial t)
  = (Typing.mkState (j mod List.length words) 0 false
       match j with O => t | S _ => ""%string end,
     (150 * Typing.charCount (firstn j words) + 2350 * j)%nat).
Proof.
  intros Hwords. induction j as [| j IH]; intros Hj.
  - cbn [firstn]. unfold Typing.charCount. cbn [map list_sum Nat.mul Typing.calls].
    rewrite Nat.Div0.mod_0_l. reflexivity.
  - rewrite firstn_snoc, charCount_snoc by lia.
    replace (2 * (Typing.charCount (firstn j words)
                  + String.length (nth j words ""%string)))%nat
      with (2 * Typing.charCount (firstn j words)
            + 2 * String.length (nth j words ""%string))%nat by lia.
    rewrite calls_add, IH by lia. cbn [fst snd].
    rewrite Nat.mod_small by lia.
    assert (Hne : nth j words ""%string <> ""%string).
    { rewrite Forall_forall in Hwords. apply Hwords. apply nth_In. lia. }
    rewrite (calls_word_cycle words j _ Hne). cbn [fst snd].
    replace (j + 1)%nat with (S j) by lia. f_equal. lia.
Qed.

(** X5. The typing effect is periodic: on a list of [n >= 1] words that
    are not empty, with [N] characters in all, [2 N] calls bring the
    counters back to the start of the first word with the element empty,
    after 150 N + 2350 n ms of delays; so every [2 N] calls later the
    effect is in the same state again. *)
Theorem typeEffect_period (words : list string) (k : nat) (t : string) :
  words <> [] ->
  Forall (fun word => word <> ""%string) words ->
  let period := (2 * Typing.charCount words)%nat in
  Typing.calls words period (Typing.initial t)
  = (Typing.initial "", (150 * Typing.charCount words + 2350 * List.length words)%nat)
  /\ fst (Typing.calls words (period + (period + k)) (Typing.initial t))
     = fst (Typing.calls words (period + k) (Typing.initial t)).
Proof.
  intros Hne Hwords. cbv zeta.
  assert (Hl : (0 < List.length words)%nat) by (destruct words; [congruence | simpl; lia]).
  assert (Hperiod : forall t',
             Typing.calls words (2 * Typing.charCount words) (Typing.initial t')
             = (Typing.initial "",
                (150 * Typing.charCount words + 2350 * List.length words)%nat)).
  { intros t'. pose proof (calls_words words (List.length words) t' Hwords (le_n _)) as H.
    rewrite firstn_all, Nat.Div0.mod_same in H. rewrite H.
    destruct (List.length words); [lia | reflexivity]. }
  split; [apply Hperiod |].
  assert (Hshift : forall m t',
             fst (Typing.calls words (2 * Typing.charCount words + m) (Typing.initial t'))
             = fst (Typing.calls words m (Typing.initial ""))).
  { intros m t'. rewrite calls_add, Hperiod. reflexivity. }
  rewrite !Hshift. reflexivity.
Qed.

Lemma typeEffect_period_witness :
  Typing.calls Typing.typingWords 134 (Typing.initial "Aerospace Engineer")
  = (Typing.initial "", (150 * 67 + 2350 * 4)%nat)
  /\ fst (Typing.calls Typing.typingWords (134 + (134 + 5))
            (Typing.initial "Aerospace Engineer"))
     = fst (Typing.calls Typing.typingWords (134 + 5) (Typing.initial "Aerospace Engineer")).
Proof.
  apply (typeEffect_period Typing.typingWords 5 "Aerospace Engineer").
  - discriminate.
  - exact typingWords_nonempty.
Defined.

(** ** The navigation highlight *)

Lemma markLinks_markLinks (a b : string) (links : list Nav.Link) :
  Nav.markLinks a (Nav.markLinks b links) = Nav.markLinks a links.
Proof. unfold Nav.markLinks. rewrite map_map. apply map_ext. intros link. reflexivity. Qed.

Lemma last_cons {A : Type} (a : A) (l : list A) (d : A) : last (a :: l) d = last l a.
Proof.
  revert a d. induction l as [| b l IH]; intros a d; [reflexivity |].
  change (last (a :: b :: l) d) with (last (b :: l) d). rewrite !IH. reflexivity.
Qed.

Lemma last_map_Some {A : Type} (l : list A) (d : A) :
  last (map Some l) (Some d) = Some (last l d).
Proof.
  revert d. induction l as [| a l IH]; intros d; [reflexivity |].
  cbn [map]. rewrite !last_cons. apply IH.
Qed.

Lemma lastInView_cons (scrollY : Q) (section : Nav.SectionBox) (sections : list Nav.SectionBox) :
  Nav.lastInView scrollY (section :: sections)
  = match Nav.lastInView scrollY sections with
    | Some later => Some later
    | None => if Nav.inView scrollY section then Some section else None
    end.
Proof.
  unfold Nav.lastInView. cbn [filter]. destruct (Nav.inView scrollY section).
  - cbn [map]. rewrite last_cons.
    destruct (filter (Nav.inView scrollY) sections) as [| a l]; [reflexivity |].
    cbn [map]. rewrite !last_cons, !last_map_Some. f_equal.
  - destruct (last (map Some (filter (Nav.inView scrollY) sections)) None); reflexivity.
Qed.

(** X6. [setActiveNavLink] highlights by the last section in view: when
    no section contains the scroll position the classes of the links are
    left as they were; otherwise the links that end up [active] are
    exactly those whose [href] is [#] followed by the id of the last
    section of the document that contains it. *)
Theorem setActiveNavLink_last_in_view
  (scrollY : Q) (sections : list Nav.SectionBox) (links : list Nav.Link) :
  Nav.setActiveNavLink scrollY sections links
  = match Nav.lastInView scrollY sections with
    | None => links
    | Some section => Nav.markLinks (Nav.sectionId section) links
    end.
Proof.
  unfold Nav.setActiveNavLink. revert links.
  induction sections as [| section sections IH]; intros links; [reflexivity |].
  cbn [fold_left]. rewrite IH, lastInView_cons.
  destruct (Nav.lastInView scrollY sections) as [later |].
  - destruct (Nav.inView scrollY section); [apply markLinks_markLinks | reflexivity].
  - destruct (Nav.inView scrollY section); reflexivity.
Qed.

(** ** The mobile menu *)

Lemma menu_handleAll_snoc (events : list Menu.event) (e : Menu.event) (s : Menu.State) :
  Menu.handleAll (events ++ [e]) s = Menu.handle e (Menu.handleAll events s).
Proof. unfold Menu.handleAll. rewrite fold_left_app. reflexivity. Qed.

Lemma menu_handle_sync (e : Menu.event) (s : Menu.State) :
  Menu.hamburgerActive s = Menu.navLinksActive s ->
  Menu.hamburgerActive (Menu.handle e s) = Menu.navLinksActive (Menu.handle e s).
Proof.
  intros Hs. destruct e as [| | key]; cbn [Menu.handle].
  - cbn. rewrite Hs. reflexivity.
  - reflexivity.
  - destruct (String.eqb key "Escape"); [reflexivity | exact Hs].
Qed.

Lemma menu_handleAll_sync (events : list Menu.event) (s : Menu.State) :
  Menu.hamburgerActive s = Menu.navLinksActive s ->
  Menu.hamburgerActive (Menu.handleAll events s)
  = Menu.navLinksActive (Menu.handleAll events s).
Proof.
  revert s. induction events as [| e events IH]; intros s Hs; [exact Hs |].
  apply IH. apply menu_handle_sync. exact Hs.
Qed.

(** X7. The hamburger and the link container never get out of step: if
    they agree on the class [active] at first, they agree after any
    sequence of hamburger clicks, link clicks and key presses; a link
    click or Escape after it leaves the menu closed, and a second
    hamburger click undoes the first. *)
Theorem menu_stays_in_sync (events : list Menu.event) (s : Menu.State) :
  Menu.hamburgerActive s = Menu.navLinksActive s ->
  let s' := Menu.handleAll events s in
  Menu.hamburgerActive s' = Menu.navLinksActive s'
  /\ Menu.handleAll (events ++ [Menu.NavLinkClick]) s = Menu.mkState false false
  /\ Menu.handleAll (events ++ [Menu.KeyDown "Escape"]) s = Menu.mkState false false
  /\ Menu.handleAll (events ++ [Menu.HamburgerClick; Menu.HamburgerClick]) s = s'.
Proof.
  intros Hs. cbv zeta. split; [apply menu_handleAll_sync; exact Hs |].
  rewrite !menu_handleAll_snoc. split; [reflexivity |]. split; [reflexivity |].
  unfold Menu.handleAll. rewrite fold_left_app. cbn [fold_left Menu.handle].
  cbn [Menu.hamburgerActive Menu.navLinksActive]. rewrite !negb_involutive.
  destruct (fold_left _ events s). reflexivity.
Qed.

Lemma menu_stays_in_sync_witness :
  let events := [Menu.HamburgerClick; Menu.KeyDown "Tab"; Menu.HamburgerClick;
                 Menu.HamburgerClick] in
  let s' := Menu.handleAll events (Menu.mkState false false) in
  Menu.hamburgerActive s' = Menu.navLinksActive s'
  /\ Menu.handleAll (events ++ [Menu.NavLinkClick]) (Menu.mkState false false)
     = Menu.mkState false false
  /\ Menu.handleAll (events ++ [Menu.KeyDown "Escape"]) (Menu.mkState false false)
     = Menu.mkState false false
  /\ Menu.handleAll (events ++ [Menu.HamburgerClick; Menu.HamburgerClick])
       (Menu.mkState false false) = s'.
Proof.
  apply (menu_stays_in_sync
           [Menu.HamburgerClick; Menu.KeyDown "Tab"; Menu.HamburgerClick; Menu.HamburgerClick]
           (Menu.mkState false false)).
  reflexivity.
Defined.

(** ** The scroll throttle *)

Lemma throttle_handleAll_snoc
  (events : list Throttle.event) (e : Throttle.event) (s : Throttle.State) :
  Throttle.handleAll (events ++ [e]) s = Throttle.handle e (Throttle.handleAll events s).
Proof. unfold Throttle.handleAll. rewrite fold_left_app. reflexivity. Qed.

Lemma scrolls_snoc (events : list Throttle.event) (e : Throttle.event) :
  Throttle.scrolls (events ++ [e])
  = (Throttle.scrolls events
     + match e with Throttle.Scroll => 1 | Throttle.AnimationFrame => 0 end)%nat.
Proof.
  unfold Throttle.scrolls. rewrite filter_app, length_app. destruct e; reflexivity.
Qed.

Lemma throttle_invariant (events : list Throttle.event) :
  let s := Throttle.handleAll events Throttle.initial in
  Throttle.requested s = (if Throttle.ticking s then 1 else 0)%nat
  /\ (Throttle.scrolls events <= Throttle.navCalls s)%nat
  /\ (Throttle.navCalls s + Throttle.requested s <= 2 * Throttle.scrolls events)%nat.
Proof.
  cbv zeta. induction events as [| e events IH] using rev_ind.
  - cbn. lia.
  - rewrite throttle_handleAll_snoc, scrolls_snoc.
    destruct (Throttle.handleAll events Throttle.initial) as [t r n].
    cbn [Throttle.ticking Throttle.requested Throttle.navCalls] in IH.
    destruct IH as (Hr & Hlo & Hhi). destruct e; cbn [Throttle.handle].
    + cbn [Throttle.ticking Throttle.requested Throttle.navCalls].
      destruct t; cbn [negb Throttle.ticking Throttle.requested Throttle.navCalls]; lia.
    + cbn [Throttle.ticking Throttle.requested Throttle.navCalls].
      destruct t; subst r; unfold Nat.iter, Throttle.updateOnScroll;
        cbn [nat_rect Throttle.ticking Throttle.requested Throttle.navCalls]; lia.
Qed.

(** X8. The scroll throttle saves no call: from the load of the page,
    after any sequence of scroll events and animation frames at most one
    [updateOnScroll] is pending (one exactly while [ticking] is set), and
    [setActiveNavLink] has run at least once for every scroll event, since
    the direct listener is still registered, and at most twice. *)
Theorem throttle_adds_calls (events : list Throttle.event) :
  let s := Throttle.handleAll events Throttle.initial in
  Throttle.requested s = (if Throttle.ticking s then 1 else 0)%nat
  /\ (Throttle.scrolls events <= Throttle.navCalls s <= 2 * Throttle.scrolls events)%nat.
Proof.
  cbv zeta. destruct (throttle_invariant events) as (Hr & Hlo & Hhi).
  split; [exact Hr |]. lia.
Qed.

(** ** The load handler *)

(** X9. On a window at most 768 px wide the load handler of both files
    hides the cursor dot and then throws a ReferenceError at [cursorRing],
    which no script declares: the cursor of the body is not set and the
    class [loaded] is never added.  On a wider window it adds [loaded] and
    throws nothing.  [setActiveNavLink] has run in both cases. *)
Theorem onLoad_narrow_window_throws
  (declared : list string) (innerWidth : Q) (p : Load.Page) :
  In declared [Load.uniformDeclared; Load.fibonacciDeclared] ->
  Load.onLoad declared innerWidth p
  = if Qle_bool innerWidth 768 then
      (Load.mkPage "none" (Load.bodyCursor p) (Load.bodyClasses p) (S (Load.navCalls p)),
       Some (Texture.ReferenceError "cursorRing"))
    else
      (Load.mkPage (Load.cursorDotDisplay p) (Load.bodyCursor p)
         (Load.bodyClasses p ++ ["loaded"%string]) (S (Load.navCalls p)),
       None).
Proof.
  intros Hin. unfold Load.onLoad. cbv zeta.
  cbn [Load.cursorDotDisplay Load.bodyCursor Load.bodyClasses Load.navCalls].
  assert (Hring : existsb (String.eqb "cursorRing") declared = false).
  { destruct Hin as [<- | [<- | []]]; vm_compute; reflexivity. }
  rewrite Hring. reflexivity.
Qed.

Lemma onLoad_narrow_window_throws_witness :
  Load.onLoad Load.fibonacciDeclared 390 (Load.mkPage "" "none" [] 0)
  = (Load.mkPage "none" "none" [] 1, Some (Texture.ReferenceError "cursorRing")).
Proof.
  apply (onLoad_narrow_window_throws Load.fibonacciDeclared 390 (Load.mkPage "" "none" [] 0)).
  right. left. reflexivity.
Defined.

(** ** The contact form *)

Lemma iter_submit (n : nat) (s : Form.State) :
  Nat.iter (S n) Form.submit s
  = Form.mkState Form.sentText Form.sentBackground (Form.fields s)
      (Form.timeouts s ++ Form.spanText s :: repeat Form.sentText n).
Proof.
  induction n as [| n IH]; [reflexivity |].
  change (Nat.iter (S (S n)) Form.submit s) with (Form.submit (Nat.iter (S n) Form.submit s)).
  rewrite IH. unfold Form.submit at 1.
  cbn [Form.spanText Form.fields Form.timeouts]. f_equal.
  rewrite <- app_assoc. cbn [app]. f_equal. f_equal.
  change (Form.sentText :: repeat Form.sentText n) with (repeat Form.sentText (S n)).
  rewrite <- repeat_cons. reflexivity.
Qed.

Lemma iter_timeout (defaults pending : list string) (s : Form.State) :
  Form.timeouts s = pending ->
  pending <> [] ->
  Nat.iter (List.length pending) (Form.timeout defaults) s
  = Form.mkState (last pending ""%string) ""%string defaults [].
Proof.
  revert s. induction pending as [| originalText pending IH]; intros s Hs Hne; [congruence |].
  cbn [List.length]. rewrite Nat.iter_succ_r.
  assert (Hfirst : Form.timeout defaults s = Form.mkState originalText "" defaults pending).
  { unfold Form.timeout. rewrite Hs. reflexivity. }
  rewrite Hfirst. destruct pending as [| next pending].
  - reflexivity.
  - rewrite (IH (Form.mkState originalText "" defaults (next :: pending)) eq_refl)
      by discriminate.
    rewrite (last_cons originalText). f_equal.
    rewrite !last_cons. reflexivity.
Qed.

(** X10. The contact form: with no timeout pending, one submit followed
    by its timeout restores the text of the button, clears the background
    and resets the fields; but after two or more submits within the
    3000 ms the button reads [Message Sent!] for good once all timeouts
    have fired, because the later submits capture that text as the
    original one. *)
Theorem submit_twice_sticks (defaults : list string) (n : nat) (s : Form.State) :
  Form.timeouts s = [] ->
  Nat.iter (S n) (Form.timeout defaults) (Nat.iter (S n) Form.submit s)
  = Form.mkState match n with O => Form.spanText s | S _ => Form.sentText end
      ""%string defaults [].
Proof.
  intros Hs. rewrite iter_submit, Hs. cbn [app].
  pose proof (iter_timeout defaults (Form.spanText s :: repeat Form.sentText n)
                (Form.mkState Form.sentText Form.sentBackground (Form.fields s)
                   (Form.spanText s :: repeat Form.sentText n)) eq_refl) as Hfired.
  cbn [List.length] in Hfired. rewrite repeat_length in Hfired.
  rewrite Hfired by discriminate. f_equal.
  rewrite last_cons. destruct n as [| n]; [reflexivity |].
  change (repeat Form.sentText (S n)) with (Form.sentText :: repeat Form.sentText n).
  rewrite last_cons. clear. induction n as [| n IH]; [reflexivity |].
  change (repeat Form.sentText (S n)) with (Form.sentText :: repeat Form.sentText n).
  rewrite last_cons. exact IH.
Qed.

Lemma submit_twice_sticks_witness :
  Nat.iter 2 (Form.timeout [""%string; ""%string])
    (Nat.iter 2 Form.submit (Form.mkState "Send Message" "" ["Ada"%string; "Hello"%string] []))
  = Form.mkState Form.sentText ""%string [""%string; ""%string] [].
Proof.
  apply (submit_twice_sticks [""%string; ""%string] 1
           (Form.mkState "Send Message" "" ["Ada"%string; "Hello"%string] [])).
  reflexivity.
Defined.

(** ** The stat counters *)

Module CounterFacts.

Import Floats.
Import Counter.

Lemma endsOnTarget_sound (target : Z) :
  endsOnTarget target = true ->
  exists shown,
    animateCounter 126 (Some target) = (shown ++ [Number target], true)
    /\ (List.length shown = 124%nat \/ List.length shown = 125%nat)
    /\ Forall (fun tx => exists z, tx = Number z /\ (0 <= z < target)%Z) shown.
Proof.
  unfold endsOnTarget. destruct (animateCounter 126 (Some target)) as [shown done].
  destruct done; [| discriminate].
  destruct (rev shown) as [| [z | |] before] eqn:Hrev; try discriminate.
  intros H. apply andb_prop in H. destruct H as [H Hall].
  apply andb_prop in H. destruct H as [Hz Hlen].
  apply Z.eqb_eq in Hz. subst z.
  exists (rev before). split; [| split].
  - f_equal. rewrite <- (rev_involutive shown), Hrev. reflexivity.
  - rewrite length_rev. apply orb_prop in Hlen.
    destruct Hlen as [Hlen | Hlen]; apply Nat.eqb_eq in Hlen; [left | right]; exact Hlen.
  - apply Forall_rev. apply Forall_forall. intros tx Hin.
    rewrite forallb_forall in Hall. specialize (Hall tx Hin).
    destruct tx as [z | |]; try discriminate.
    apply andb_prop in Hall. destruct Hall as [H0 H1].
    exists z. split; [reflexivity |]. apply Z.leb_le in H0. apply Z.ltb_lt in H1. lia.
Qed.

Lemma endsOnTarget_upto_2000 :
  forallb endsOnTarget (map Z.of_nat (seq 1 2000)) = true.
Proof. vm_compute. reflexivity. Qed.

Lemma showsAtOnce_upto_2000 :
  forallb showsAtOnce (map (fun k => (- Z.of_nat k)%Z) (seq 0 2001)) = true.
Proof. vm_compute. reflexivity. Qed.

(** X11. A stat counter in binary64, for every integer target from 1 to
    2000: [updateCounter] stops by itself on the target, after 125 or 126
    calls (the sum of 125 increments can fall just short of the target,
    as it does for 50), and every text shown before is a whole number
    from 0 up to, not including, the target. *)
Theorem animateCounter_ends_on_target (target : Z) :
  (1 <= target <= 2000)%Z ->
  (exists shown,
      animateCounter 126 (Some target) = (shown ++ [Number target], true)
      /\ (List.length shown = 124%nat \/ List.length shown = 125%nat)
      /\ Forall (fun tx => exists z, tx = Number z /\ (0 <= z < target)%Z) shown)
  /\ List.length (fst (animateCounter 126 (Some 50%Z))) = 126%nat.
Proof.
  intros Htarget. split; [| vm_compute; reflexivity].
  apply endsOnTarget_sound.
  pose proof endsOnTarget_upto_2000 as Hall. rewrite forallb_forall in Hall.
  apply Hall. apply in_map_iff. exists (Z.to_nat target). split; [lia |].
  apply in_seq. lia.
Qed.

Lemma animateCounter_ends_on_target_witness :
  (exists shown,
      animateCounter 126 (Some 7%Z) = (shown ++ [Number 7], true)
      /\ (List.length shown = 124%nat \/ List.length shown = 125%nat)
      /\ Forall (fun tx => exists z, tx = Number z /\ (0 <= z < 7)%Z) shown)
  /\ List.length (fst (animateCounter 126 (Some 50%Z))) = 126%nat.
Proof. apply (animateCounter_ends_on_target 7). lia. Defined.

(** X23. The edge cases of a stat counter in binary64: for a target
    that is zero or negative (down to -2000) the first call of
    [updateCounter] shows the target and stops, and for a [data-target]
    that [parseInt] turns into NaN the first call shows NaN and stops;
    nothing counts up. *)
Theorem animateCounter_shows_at_once (target : Z) :
  (- 2000 <= target <= 0)%Z ->
  animateCounter 126 (Some target) = ([Number target], true)
  /\ animateCounter 126 None = ([NaNText], true).
Proof.
  intros Htarget. split; [| vm_compute; reflexivity].
  pose proof showsAtOnce_upto_2000 as Hall. rewrite forallb_forall in Hall.
  assert (Hin : In target (map (fun k => (- Z.of_nat k)%Z) (seq 0 2001))).
  { apply in_map_iff. exists (Z.to_nat (- target)). split; [lia |]. apply in_seq. lia. }
  specialize (Hall target Hin). unfold showsAtOnce in Hall.
  destruct (animateCounter 126 (Some target)) as [shown done].
  destruct shown as [| [z | |] [| tx shown]]; try discriminate.
  destruct done; [| discriminate]. apply Z.eqb_eq in Hall. subst z. reflexivity.
Qed.

Lemma animateCounter_shows_at_once_witness :
  animateCounter 126 (Some (-3)%Z) = ([Number (-3)], true)
  /\ animateCounter 126 None = ([NaNText], true).
Proof. apply (animateCounter_shows_at_once (-3)). lia. Defined.

End CounterFacts.

(** ** The cursor trail *)

Lemma follow_inBox (left right top bottom prevX prevY : R) (index : nat)
  (dots : list CursorTrail.Dot) :
  left <= prevX <= right ->
  top <= prevY <= bottom ->
  Forall (fun dot => left <= CursorTrail.x dot <= right
                     /\ top <= CursorTrail.y dot <= bottom) dots ->
  Forall (fun dot => left <= CursorTrail.x dot <= right
                     /\ top <= CursorTrail.y dot <= bottom)
         (CursorTrail.follow prevX prevY index dots).
Proof.
  intros HX HY Hdots. revert prevX prevY index HX HY.
  induction Hdots as [| dot dots [Hx Hy] _ IH]; intros prevX prevY index HX HY.
  - constructor.
  - cbn [CursorTrail.follow]. cbv zeta. constructor.
    + cbn [CursorTrail.x CursorTrail.y]. split; lra.
    + apply IH; lra.
Qed.

Lemma animateCursor_inBox (left right top bottom : R) (s : CursorTrail.State) :
  CursorTrail.inBox left right top bottom s ->
  CursorTrail.inBox left right top bottom (CursorTrail.animateCursor s).
Proof.
  intros (HmX & HmY & HdX & HdY & Hdots). unfold CursorTrail.animateCursor, CursorTrail.inBox.
  cbv zeta.
  cbn [CursorTrail.mouseXPos CursorTrail.mouseYPos CursorTrail.dotXPos CursorTrail.dotYPos
       CursorTrail.dots].
  split; [exact HmX |]. split; [exact HmY |]. split; [lra |]. split; [lra |].
  apply follow_inBox; [lra | lra | exact Hdots].
Qed.

Lemma follow_length (prevX prevY : R) (index : nat) (dots : list CursorTrail.Dot) :
  List.length (CursorTrail.follow prevX prevY index dots) = List.length dots.
Proof.
  revert prevX prevY index. induction dots as [| dot dots IH]; intros prevX prevY index.
  - reflexivity.
  - cbn [CursorTrail.follow List.length]. cbv zeta. rewrite IH. reflexivity.
Qed.

Lemma initial_inBox (width height : R) :
  0 <= width -> 0 <= height -> CursorTrail.inBox 0 width 0 height CursorTrail.initial.
Proof.
  intros Hw Hh. unfold CursorTrail.inBox, CursorTrail.initial.
  cbn [CursorTrail.mouseXPos CursorTrail.mouseYPos CursorTrail.dotXPos CursorTrail.dotYPos
       CursorTrail.dots].
  repeat (split; [lra |]). unfold CursorTrail.initialDots.
  apply Forall_map, Forall_forall. intros i _. cbn [CursorTrail.x CursorTrail.y]. lra.
Qed.

(** X12. The cursor trail never leaves the viewport: from the load of the
    page, after any sequence of frames and of pointer moves inside the
    viewport, the main dot and the twelve dots of the trail all lie
    inside the viewport; the dots ease towards the pointer and never
    overshoot it. *)
Theorem cursor_trail_stays_in_viewport
  (width height : R) (events : list CursorTrail.event) :
  0 <= width ->
  0 <= height ->
  Forall (CursorTrail.inViewport width height) events ->
  let s := CursorTrail.handleAll events CursorTrail.initial in
  CursorTrail.inBox 0 width 0 height s
  /\ List.length (CursorTrail.dots s) = 12%nat.
Proof.
  intros Hw Hh Hevents. cbv zeta. unfold CursorTrail.handleAll.
  assert (Hinit : CursorTrail.inBox 0 width 0 height CursorTrail.initial
                  /\ List.length (CursorTrail.dots CursorTrail.initial) = 12%nat).
  { split; [apply initial_inBox; assumption | reflexivity]. }
  revert Hinit. generalize CursorTrail.initial.
  induction Hevents as [| e events He _ IH]; intros s [Hbox Hlen]; [split; assumption |].
  cbn [fold_left]. apply IH. destruct e as [clientX clientY |]; cbn [CursorTrail.handle].
  - split; [| exact Hlen]. destruct Hbox as (_ & _ & HdX & HdY & Hdots).
    destruct He as [HX HY]. unfold CursorTrail.inBox.
    cbn [CursorTrail.mouseXPos CursorTrail.mouseYPos CursorTrail.dotXPos CursorTrail.dotYPos
         CursorTrail.dots].
    repeat (split; [assumption |]). exact Hdots.
  - split; [apply animateCursor_inBox; exact Hbox |].
    rewrite <- Hlen. unfold CursorTrail.animateCursor. cbv zeta.
    cbn [CursorTrail.dots]. apply follow_length.
Qed.

Lemma cursor_trail_stays_in_viewport_witness :
  let s := CursorTrail.handleAll
             [CursorTrail.Frame; CursorTrail.MouseMove 640 360; CursorTrail.Frame;
              CursorTrail.Frame; CursorTrail.MouseMove 1280 720; CursorTrail.Frame]
             CursorTrail.initial in
  CursorTrail.inBox 0 1280 0 720 s /\ List.length (CursorTrail.dots s) = 12%nat.
Proof.
  apply (cursor_trail_stays_in_viewport 1280 720
           [CursorTrail.Frame; CursorTrail.MouseMove 640 360; CursorTrail.Frame;
            CursorTrail.Frame; CursorTrail.MouseMove 1280 720; CursorTrail.Frame]).
  - lra.
  - lra.
  - repeat constructor; cbn [CursorTrail.inViewport]; lra.
Defined.

(** * Properties of the rest of the globe *)

(** ** Flow lines *)

Lemma normalize_lengthSq_le (v : vec3) : Vector3.lengthSq (Vector3.normalize v) <= 1.
Proof.
  pose proof (lengthSq_nonneg v) as Hnn.
  destruct (Rle_lt_dec (Vector3.lengthSq v) 0) as [Hz | Hpos].
  - assert (Hsq : Vector3.lengthSq v = 0) by lra.
    assert (Hl : Vector3.length v = 0) by (rewrite length_sqrt_lengthSq, Hsq; apply sqrt_0).
    unfold Vector3.normalize, Vector3.divideScalar. rewrite Hl.
    destruct (Req_dec_T 0 0) as [_ | Hne]; [| contradiction].
    rewrite lengthSq_multiplyScalar, Hsq. lra.
  - pose proof (normalize_length v Hpos) as Hl.
    rewrite (length_eq_lengthSq _ 1 ltac:(lra) Hl). lra.
Qed.

Lemma advance_unit (startTheta startPhi : R) (j : nat) (p : vec3) :
  Vector3.lengthSq p = 1 ->
  Vector3.lengthSq (FlowField.advance startTheta startPhi j p) = 1.
Proof.
  intros Hp. unfold FlowField.advance. cbv zeta.
  pose proof (normalize_lengthSq_le
                (combination
                   (Vector3.mk (- sin startTheta) (cos startTheta) 0)
                   (Vector3.mk (cos startPhi * cos startTheta)
                      (cos startPhi * sin startTheta) (- sin startPhi))
                   (sin (startPhi + INR j * 0.08) * 0.4)
                   (cos (startTheta + INR j * 0.08) * 0.4))) as Hd.
  fold (FlowField.flowDir startTheta startPhi j) in Hd.
  pose proof (lengthSq_nonneg (FlowField.flowDir startTheta startPhi j)) as Hd0.
  set (d := FlowField.flowDir startTheta startPhi j) in *.
  destruct p as [px py pz]. destruct d as [dx dy dz].
  unfold Vector3.lengthSq in *. cbn [Vector3.x Vector3.y Vector3.z] in *.
  set (qx := px + dx * 0.025). set (qy := py + dy * 0.025). set (qz := pz + dz * 0.025).
  assert (HQ : 0.95 <= qx * qx + qy * qy + qz * qz).
  { subst qx qy qz.
    pose proof (Rle_0_sqr (px + dx)) as H1. pose proof (Rle_0_sqr (py + dy)) as H2.
    pose proof (Rle_0_sqr (pz + dz)) as H3. unfold Rsqr in *. lra. }
  set (Q := qx * qx + qy * qy + qz * qz) in *.
  assert (Hlen : 0.001 < sqrt Q).
  { replace 0.001 with (sqrt (0.001 * 0.001)) by (apply sqrt_square; lra).
    apply sqrt_lt_1_alt. lra. }
  destruct (Rgt_dec (sqrt Q) 0.001) as [_ | Hn]; [| unfold Rgt in Hn; lra].
  cbn [Vector3.x Vector3.y Vector3.z].
  assert (Hsq : sqrt Q * sqrt Q = Q) by (apply sqrt_sqrt; lra).
  set (L := sqrt Q) in *. clearbody L.
  replace (qx / L * (qx / L) + qy / L * (qy / L) + qz / L * (qz / L))
    with ((qx * qx + qy * qy + qz * qz) / (L * L)) by (field; lra).
  fold Q. rewrite Hsq. field. lra.
Qed.

Lemma trace_radius (startTheta startPhi : R) (js : list nat) :
  forall p, Vector3.lengthSq p = 1 ->
            Forall (fun point => Vector3.length point = 1.003)
                   (FlowField.trace startTheta startPhi js p).
Proof.
  induction js as [| j js IH]; intros p Hp; cbn [FlowField.trace]; constructor.
  - apply lengthSq_eq_length; [lra |]. rewrite lengthSq_multiplyScalar, Hp. lra.
  - apply IH. apply advance_unit. exact Hp.
Qed.

Lemma trace_length (startTheta startPhi : R) (js : list nat) :
  forall p, List.length (FlowField.trace startTheta startPhi js p) = List.length js.
Proof.
  induction js as [| j js IH]; intros p; cbn [FlowField.trace List.length];
    [reflexivity | rewrite IH; reflexivity].
Qed.

(** X13. A flow line stays on its sphere: whatever the start angles,
    the streamline has 40 points and every one lies at distance 1.003
    from the centre; the guard [length > 0.001] of the projection back to
    the sphere always holds, since one step moves a unit point by at most
    0.025. *)
Theorem streamline_on_sphere (startTheta startPhi : R) :
  List.length (FlowField.streamline startTheta startPhi) = 40%nat
  /\ Forall (fun point => Vector3.length point = 1.003)
            (FlowField.streamline startTheta startPhi).
Proof.
  unfold FlowField.streamline. cbv zeta. split.
  - rewrite trace_length. reflexivity.
  - apply trace_radius. unfold Vector3.lengthSq. cbn [Vector3.x Vector3.y Vector3.z].
    pose proof (sin2_cos2' startTheta) as Ht. pose proof (sin2_cos2' startPhi) as Hp.
    nsatz.
Qed.

(** ** Orbital rings and satellites *)

Lemma ring_lengthSq (a i radius : R) :
  let x := cos a * radius in
  let y := sin a * cos i * radius in
  let z := sin a * sin i * radius in
  Vector3.lengthSq (Vector3.mk x y z) = radius * radius.
Proof.
  cbv zeta. unfold Vector3.lengthSq. cbn [Vector3.x Vector3.y Vector3.z].
  pose proof (sin2_cos2' a) as Ha. pose proof (sin2_cos2' i) as Hi. nsatz.
Qed.

Lemma ringRadius_pos (r : nat) : 0 < Ring.ringRadius r.
Proof. unfold Ring.ringRadius. pose proof (pos_INR r). lra. Qed.

(** X14. An orbital ring is a closed circle about the centre: each of
    the 65 points of ring [r] lies at distance [1.3 + 0.2 r] from the
    centre, and the last point is the first one again. *)
Theorem ring_is_closed_circle (r : nat) :
  List.length (Ring.ringPoints r) = 65%nat
  /\ Forall (fun point => Vector3.length point = Ring.ringRadius r) (Ring.ringPoints r)
  /\ nth 64 (Ring.ringPoints r) Vector3.zero = nth 0 (Ring.ringPoints r) Vector3.zero.
Proof.
  split; [reflexivity |]. split.
  - unfold Ring.ringPoints. apply Forall_map, Forall_forall. intros i _.
    unfold Ring.ringPoint. cbv zeta.
    apply lengthSq_eq_length; [pose proof (ringRadius_pos r); lra |].
    apply ring_lengthSq.
  - unfold Ring.ringPoints.
    change (nth 64 (map (Ring.ringPoint r) (seq 0 (S Ring.ringSegments))) Vector3.zero)
      with (Ring.ringPoint r 64).
    change (nth 0 (map (Ring.ringPoint r) (seq 0 (S Ring.ringSegments))) Vector3.zero)
      with (Ring.ringPoint r 0).
    unfold Ring.ringPoint, Ring.ringSegments. cbv zeta.
    replace (INR 64 / INR 64 * PI * 2) with (2 * PI)
      by (rewrite INR_IZR_INZ; simpl; field).
    replace (INR 0 / INR 64 * PI * 2) with 0
      by (rewrite !INR_IZR_INZ; simpl; field).
    rewrite sin_2PI, cos_2PI, sin_0, cos_0. reflexivity.
Qed.

Lemma uniform_initEarth_satellites (random : nat -> R) (c : nat) :
  Forall (fun dot => Uniform.dotPosition dot = Vector3.zero)
         (Uniform.satellites (fst (Uniform.initEarth random c))).
Proof.
  unfold Uniform.initEarth. rewrite !bind_eq. unfold ret. cbn [fst Uniform.satellites].
  apply Forall_concat.
  apply (mapM_Forall (Forall (fun dot => Uniform.dotPosition dot = Vector3.zero))
                     (Uniform.createRing random)).
  intros r c'. unfold Uniform.createRing. cbv zeta.
  apply (mapM_Forall (fun dot => Uniform.dotPosition dot = Vector3.zero)
                     (Uniform.createDot random r (4 + r * 1))).
  intros d c''. reflexivity.
Qed.

Lemma half_succ (n : nat) :
  (S n / 2 = if (S n mod 2 =? 0) then S (n / 2) else n / 2)%nat.
Proof.
  pose proof (Nat.div_mod_eq n 2) as Hn. pose proof (Nat.div_mod_eq (S n) 2) as HS.
  pose proof (Nat.mod_upper_bound n 2 ltac:(lia)) as Hn2.
  pose proof (Nat.mod_upper_bound (S n) 2 ltac:(lia)) as HS2.
  destruct (Nat.eqb_spec (S n mod 2) 0); lia.
Qed.

Lemma uniform_frames_frameCount (n : nat) (s : Uniform.Scene) :
  Uniform.frameCount (Uniform.frames n s) = (Uniform.frameCount s + n)%nat.
Proof.
  induction n as [| n IH]; [simpl; lia |].
  cbn [Uniform.frames]. unfold Uniform.animate. cbv zeta. cbn [Uniform.frameCount].
  rewrite IH. lia.
Qed.

Lemma uniform_frames_satellites (n : nat) (s : Uniform.Scene) :
  Uniform.frameCount s = 0%nat ->
  Uniform.satellites (Uniform.frames n s)
  = Nat.iter (n / 2) (map Uniform.updateSatellite) (Uniform.satellites s).
Proof.
  intros Hs. induction n as [| n IH]; [reflexivity |].
  cbn [Uniform.frames]. unfold Uniform.animate. cbv zeta. cbn [Uniform.satellites].
  rewrite uniform_frames_frameCount, Hs, IH, half_succ. cbn [Nat.add].
  destruct (S n mod 2 =? 0)%nat; reflexivity.
Qed.

Lemma updateSatellite_on_ring (dot : Uniform.Satellite) :
  Vector3.length (Uniform.dotPosition (Uniform.updateSatellite dot))
  = 1.3 + INR (Uniform.ringIndex (Uniform.updateSatellite dot)) * 0.2.
Proof.
  unfold Uniform.updateSatellite. cbv zeta. cbn [Uniform.dotPosition Uniform.ringIndex].
  apply lengthSq_eq_length; [pose proof (pos_INR (Uniform.ringIndex dot)); lra |].
  apply ring_lengthSq.
Qed.

(** X15. The satellite dots are created at the centre of the globe and
    are first placed on the second frame: after fewer than two calls of
    [animate] every dot is still at the origin, and after two or more
    every dot lies at distance [1.3 + 0.2 ringIndex] from the centre, on
    the circle of its ring. *)
Theorem satellites_reach_rings (random : nat -> R) (c n : nat) :
  Forall (fun dot =>
            if (n <? 2)%nat then Uniform.dotPosition dot = Vector3.zero
            else Vector3.length (Uniform.dotPosition dot)
                 = 1.3 + INR (Uniform.ringIndex dot) * 0.2)
         (Uniform.satellites (Uniform.frames n (fst (Uniform.initEarth random c)))).
Proof.
  destruct (uniform_initEarth_scene random c) as (Hcount & _).
  rewrite (uniform_frames_satellites n _ Hcount).
  pose proof (uniform_initEarth_satellites random c) as Hinit.
  destruct (Nat.ltb_spec n 2) as [Hlt | Hge].
  - replace (n / 2)%nat with 0%nat
      by (destruct n as [| [| n]]; [reflexivity | reflexivity | lia]).
    exact Hinit.
  - destruct (n / 2)%nat as [| k] eqn:Hk.
    + exfalso. pose proof (Nat.div_mod_eq n 2) as Hn.
      pose proof (Nat.mod_upper_bound n 2 ltac:(lia)). lia.
    + change (Nat.iter (S k) (map Uniform.updateSatellite)
                (Uniform.satellites (fst (Uniform.initEarth random c))))
        with (map Uniform.updateSatellite
                (Nat.iter k (map Uniform.updateSatellite)
                   (Uniform.satellites (fst (Uniform.initEarth random c))))).
      apply Forall_map, Forall_forall. intros dot _. apply updateSatellite_on_ring.
Qed.

(** ** The ranges of the pulses *)




Section UniformOpacities.

Variable random : nat -> R.
Variable nodePositions : list Uniform.NodeData.





End UniformOpacities.




(** ** The recomputed curves turn with the globe *)

Ltac rotation_identity :=
  unfold Vector3.applyAxisAngle, Uniform.yAxis;
  cbn [Vector3.x Vector3.y Vector3.z]; cbv zeta.

Lemma rot_dot (angle : R) (p q : vec3) :
  Vector3.dot (Vector3.applyAxisAngle p Uniform.yAxis angle)
              (Vector3.applyAxisAngle q Uniform.yAxis angle)
  = Vector3.dot p q.
Proof.
  unfold Vector3.dot. rotation_identity.
  pose proof (sin2_cos2' (angle / 2)) as H.
  set (s := sin (angle / 2)) in *. set (c := cos (angle / 2)) in *.
  nsatz.
Qed.

Lemma rot_multiplyScalar (angle : R) (v : vec3) (k : R) :
  Vector3.applyAxisAngle (Vector3.multiplyScalar v k) Uniform.yAxis angle
  = Vector3.multiplyScalar (Vector3.applyAxisAngle v Uniform.yAxis angle) k.
Proof.
  unfold Vector3.multiplyScalar. rotation_identity. f_equal; ring.
Qed.

Lemma rot_combination (angle : R) (p q : vec3) (a b : R) :
  combination (Vector3.applyAxisAngle p Uniform.yAxis angle)
              (Vector3.applyAxisAngle q Uniform.yAxis angle) a b
  = Vector3.applyAxisAngle (combination p q a b) Uniform.yAxis angle.
Proof.
  unfold combination, Vector3.addScaledVector, Vector3.zero. rotation_identity.
  f_equal; ring.
Qed.

Lemma rot_normalize (angle : R) (v : vec3) :
  Vector3.normalize (Vector3.applyAxisAngle v Uniform.yAxis angle)
  = Vector3.applyAxisAngle (Vector3.normalize v) Uniform.yAxis angle.
Proof.
  unfold Vector3.normalize, Vector3.divideScalar.
  rewrite applyAxisAngle_y_length, rot_multiplyScalar. reflexivity.
Qed.

Lemma rot_compose (a b : R) (v : vec3) :
  Vector3.applyAxisAngle (Vector3.applyAxisAngle v Uniform.yAxis a) Uniform.yAxis b
  = Vector3.applyAxisAngle v Uniform.yAxis (a + b).
Proof.
  rotation_identity.
  replace ((a + b) / 2) with (a / 2 + b / 2) by field.
  rewrite sin_plus, cos_plus.
  pose proof (sin2_cos2' (a / 2)) as Ha. pose proof (sin2_cos2' (b / 2)) as Hb.
  set (sa := sin (a / 2)) in *. set (ca := cos (a / 2)) in *.
  set (sb := sin (b / 2)) in *. set (cb := cos (b / 2)) in *.
  f_equal; nsatz.
Qed.

Lemma frameStep_rot (angle : R) (p1 p2 : vec3) (m t : R) :
  Uniform.frameStep (Vector3.applyAxisAngle p1 Uniform.yAxis angle)
                    (Vector3.applyAxisAngle p2 Uniform.yAxis angle) m t
  = match Uniform.frameStep p1 p2 m t with
    | Skipped => Skipped
    | Pushed p => Pushed (rotatePoint angle p)
    end.
Proof.
  unfold Uniform.frameStep. rewrite rot_dot.
  destruct (Math_acos (Vector3.dot p1 p2)) as [a |]; [| reflexivity].
  cbv zeta. destruct (Rgt_dec (sin a) 0.001); [| reflexivity].
  unfold greatCircleDirection. cbv zeta. cbn [rotatePoint].
  rewrite rot_combination, rot_normalize, rot_multiplyScalar. reflexivity.
Qed.

Lemma pushed_points_rot (angle : R) (p1 p2 : vec3) (m : R) (ts : list R) :
  pushed_points
    (map (Uniform.frameStep (Vector3.applyAxisAngle p1 Uniform.yAxis angle)
                            (Vector3.applyAxisAngle p2 Uniform.yAxis angle) m) ts)
  = map (rotatePoint angle) (pushed_points (map (Uniform.frameStep p1 p2 m) ts)).
Proof.
  unfold pushed_points. induction ts as [| t ts IH]; [reflexivity |].
  cbn [map flat_map]. rewrite IH, frameStep_rot, map_app.
  destruct (Uniform.frameStep p1 p2 m t); reflexivity.
Qed.

(** X17. The recomputed curves turn rigidly with the globe: the
    geometry that [animate] derives for a connection at the rotation
    [a + b] is the geometry it derives at the rotation [a], every point
    turned by [b] about the y axis; the same points are pushed or skipped
    at every rotation. *)
Theorem updateGeometry_turns_with_globe
  (positions : list Uniform.NodeData) (a b : R) (conn : Uniform.Connection) :
  Uniform.geometry (Uniform.updateGeometry positions (a + b) conn)
  = map (rotatePoint b) (Uniform.geometry (Uniform.updateGeometry positions a conn)).
Proof.
  unfold Uniform.updateGeometry. cbv zeta. cbn [Uniform.geometry].
  rewrite <- !(rot_compose a b). apply pushed_points_rot.
Qed.

Lemma frameStep_all (p1 p2 : vec3) (m : R) (ts : list R) :
  1 <= m ->
  Vector3.length p1 = 1.005 ->
  Vector3.length p2 = 1.005 ->
  let points := pushed_points (map (Uniform.frameStep p1 p2 m) ts) in
  (points = [] \/ List.length points = List.length ts)
  /\ Forall (fun p => exists v, p = Point v /\ Vector3.length v = m) points.
Proof.
  intros Hm H1 H2. cbv zeta. unfold pushed_points.
  destruct (Math_acos (Vector3.dot p1 p2)) as [angle |] eqn:Hacos.
  - destruct (Rgt_dec (sin angle) 0.001) as [Hs | Hs].
    + assert (Hstep : forall t,
                 Uniform.frameStep p1 p2 m t
                 = Pushed (Point (Vector3.multiplyScalar
                                    (greatCircleDirection p1 p2 angle (sin angle) t) m))).
      { intros t. unfold Uniform.frameStep. rewrite Hacos. cbv zeta.
        destruct (Rgt_dec (sin angle) 0.001); [reflexivity | contradiction]. }
      split.
      * right. induction ts as [| t ts IH]; [reflexivity |].
        cbn [map flat_map]. rewrite Hstep, length_app, IH. reflexivity.
      * induction ts as [| t ts IH]; [constructor |].
        cbn [map flat_map]. rewrite Hstep. cbn [app]. constructor; [| exact IH].
        eexists. split; [reflexivity |].
        destruct (greatCircleDirection_sound p1 p2 1.005 angle t) as (_ & Hunit & _);
          [lra | exact H1 | exact H2 | exact Hacos | unfold Rgt in Hs; lra |].
        apply lengthSq_eq_length; [lra |].
        rewrite lengthSq_multiplyScalar, (length_eq_lengthSq _ 1 ltac:(lra) Hunit). ring.
    + assert (Hnone : flat_map (fun s => match s with Skipped => [] | Pushed p => [p] end)
                               (map (Uniform.frameStep p1 p2 m) ts) = []).
      { induction ts as [| t ts IH]; [reflexivity |].
        cbn [map flat_map]. rewrite IH. unfold Uniform.frameStep. rewrite Hacos. cbv zeta.
        destruct (Rgt_dec (sin angle) 0.001); [contradiction | reflexivity]. }
      rewrite Hnone. split; [left; reflexivity | constructor].
  - assert (Hnone : flat_map (fun s => match s with Skipped => [] | Pushed p => [p] end)
                             (map (Uniform.frameStep p1 p2 m) ts) = []).
    { induction ts as [| t ts IH]; [reflexivity |].
      cbn [map flat_map]. rewrite IH. unfold Uniform.frameStep. rewrite Hacos. reflexivity. }
    rewrite Hnone. split; [left; reflexivity | constructor].
Qed.

(** X18. The recomputed curves stay on their sphere: for a connection
    between two nodes at radius 1.005, the geometry that [animate]
    derives at any rotation is either empty or has all 13 points, and
    every point is a vector of numbers at distance exactly 1.004 from the
    centre, 1.006 for a long arc. *)
Theorem updateGeometry_on_sphere
  (positions : list Uniform.NodeData) (rotationY : R) (conn : Uniform.Connection) :
  Vector3.length (Uniform.positionOf positions (Uniform.node1 conn)) = 1.005 ->
  Vector3.length (Uniform.positionOf positions (Uniform.node2 conn)) = 1.005 ->
  let points := Uniform.geometry (Uniform.updateGeometry positions rotationY conn) in
  (points = [] \/ List.length points = 13%nat)
  /\ Forall (fun p => exists v,
                 p = Point v
                 /\ Vector3.length v = if Uniform.isLongArc conn then 1.006 else 1.004)
            points.
Proof.
  intros H1 H2. unfold Uniform.updateGeometry. cbv zeta. cbn [Uniform.geometry].
  apply (frameStep_all
           (Vector3.applyAxisAngle (Uniform.positionOf positions (Uniform.node1 conn))
              Uniform.yAxis rotationY)
           (Vector3.applyAxisAngle (Uniform.positionOf positions (Uniform.node2 conn))
              Uniform.yAxis rotationY)
           (if Uniform.isLongArc conn then 1.006 else 1.004)
           (parameters 12)).
  - destruct (Uniform.isLongArc conn); lra.
  - rewrite applyAxisAngle_y_length. exact H1.
  - rewrite applyAxisAngle_y_length. exact H2.
Qed.

Lemma length_of_coordinates (x y z r : R) :
  0 <= r -> x * x + y * y + z * z = r * r -> Vector3.length (Vector3.mk x y z) = r.
Proof. intros Hr H. apply lengthSq_eq_length; [exact Hr | exact H]. Qed.

Lemma updateGeometry_on_sphere_witness :
  let positions :=
    [Uniform.mkNode (Vector3.mk 1.005 0 0) 0 0.5 0;
     Uniform.mkNode (Vector3.mk 0 1.005 0) 0 0.5 1] in
  let conn := Uniform.mkConnection 0 1 0 0.5 true [] 0.7 in
  let points := Uniform.geometry (Uniform.updateGeometry positions 0.006 conn) in
  (points = [] \/ List.length points = 13%nat)
  /\ Forall (fun p => exists v,
                 p = Point v
                 /\ Vector3.length v = if Uniform.isLongArc conn then 1.006 else 1.004)
            points.
Proof.
  apply (updateGeometry_on_sphere
           [Uniform.mkNode (Vector3.mk 1.005 0 0) 0 0.5 0;
            Uniform.mkNode (Vector3.mk 0 1.005 0) 0 0.5 1]
           0.006 (Uniform.mkConnection 0 1 0 0.5 true [] 0.7)).
  - apply length_of_coordinates; lra.
  - apply length_of_coordinates; lra.
Defined.

(** ** The arcs of the Fibonacci variant *)

Lemma parameters_range (steps : nat) :
  (0 < steps)%nat -> Forall (fun t => 0 <= t <= 1) (parameters steps).
Proof.
  intros Hsteps. unfold parameters. apply Forall_map, Forall_forall. intros k Hk.
  apply in_seq in Hk.
  assert (Hpos : 0 < INR steps) by (apply lt_0_INR; exact Hsteps).
  assert (Hle : INR k <= INR steps) by (apply le_INR; lia).
  pose proof (pos_INR k) as Hk0. split.
  - apply Rmult_le_pos; [exact Hk0 |]. apply Rlt_le, Rinv_0_lt_compat. exact Hpos.
  - apply (Rmult_le_reg_r (INR steps)); [exact Hpos |].
    unfold Rdiv. rewrite Rmult_assoc, Rinv_l by lra. lra.
Qed.

Lemma Forall2_map_self {A B : Type} (P : A -> B -> Prop) (f : A -> B) (l : list A) :
  Forall (fun a => P a (f a)) l -> Forall2 P l (map f l).
Proof. induction 1; cbn [map]; constructor; assumption. Qed.

Lemma createArc_points (random : nat -> R) (p1 p2 : vec3) (altitude : R) (c : nat) :
  Fibonacci.arcPoints (fst (Fibonacci.createArc random p1 p2 altitude c))
  = map (fun t => Vector3.multiplyScalar (Fibonacci.arcDirection p1 p2 t)
                    (1.0 + altitude * sin (t * PI)))
        (parameters 40).
Proof. reflexivity. Qed.

(** X19. The height of an arc of the Fibonacci variant: between two
    points of the same length [r] that are not opposite, [createArc]
    makes 41 points; the point at the parameter [t] lies at distance
    [1 + altitude sin (t pi)] from the centre, between 1 and
    [1 + altitude]; the arc starts at [p1 / r] and ends at [p2 / r], at
    distance 1 from the centre, whatever the radius of the nodes. *)
Theorem createArc_heights
  (random : nat -> R) (p1 p2 : vec3) (r altitude : R) (c : nat) :
  0 < r ->
  Vector3.length p1 = r ->
  Vector3.length p2 = r ->
  - (r * r) < Vector3.dot p1 p2 ->
  0 <= altitude ->
  let points := Fibonacci.arcPoints (fst (Fibonacci.createArc random p1 p2 altitude c)) in
  Forall2 (fun t point =>
             Vector3.length point = 1 + altitude * sin (t * PI)
             /\ 1 <= Vector3.length point <= 1 + altitude)
          (parameters 40) points
  /\ hd Vector3.zero points = Vector3.multiplyScalar p1 (1 / r)
  /\ last points Vector3.zero = Vector3.multiplyScalar p2 (1 / r).
Proof.
  intros Hr H1 H2 Hdot Halt. cbv zeta. rewrite createArc_points.
  split; [| split].
  - apply Forall2_map_self.
    eapply Forall_impl; [| apply (parameters_range 40); lia].
    intros t Ht. cbv beta in Ht |- *.
    destruct (arcDirection_sound p1 p2 r t Hr H1 H2 Hdot Ht) as (Hunit & _).
    assert (Hsin : 0 <= sin (t * PI) <= 1).
    { pose proof PI_RGT_0 as Hpi. split.
      - apply sin_ge_0; nra.
      - apply SIN_bound. }
    assert (Hlen : Vector3.length
                     (Vector3.multiplyScalar (Fibonacci.arcDirection p1 p2 t)
                        (1.0 + altitude * sin (t * PI)))
                   = 1 + altitude * sin (t * PI)).
    { apply lengthSq_eq_length; [nra |].
      rewrite lengthSq_multiplyScalar, (length_eq_lengthSq _ 1 ltac:(lra) Hunit). lra. }
    rewrite Hlen. split; [reflexivity | nra].
  - change (hd Vector3.zero
              (map (fun t => Vector3.multiplyScalar (Fibonacci.arcDirection p1 p2 t)
                               (1.0 + altitude * sin (t * PI)))
                   (parameters 40)))
      with (Vector3.multiplyScalar (Fibonacci.arcDirection p1 p2 (INR 0 / INR 40))
              (1.0 + altitude * sin (INR 0 / INR 40 * PI))).
    replace (INR 0 / INR 40) with 0 by (rewrite !INR_IZR_INZ; simpl; field).
    destruct (arcDirection_sound p1 p2 r 0 Hr H1 H2 Hdot ltac:(lra)) as (_ & H0 & _).
    rewrite (H0 eq_refl), Rmult_0_l, sin_0.
    unfold Vector3.multiplyScalar. cbn [Vector3.x Vector3.y Vector3.z]. f_equal; lra.
  - change (last
              (map (fun t => Vector3.multiplyScalar (Fibonacci.arcDirection p1 p2 t)
                               (1.0 + altitude * sin (t * PI)))
                   (parameters 40)) Vector3.zero)
      with (Vector3.multiplyScalar (Fibonacci.arcDirection p1 p2 (INR 40 / INR 40))
              (1.0 + altitude * sin (INR 40 / INR 40 * PI))).
    replace (INR 40 / INR 40) with 1 by (rewrite !INR_IZR_INZ; simpl; field).
    destruct (arcDirection_sound p1 p2 r 1 Hr H1 H2 Hdot ltac:(lra)) as (_ & _ & H1').
    rewrite (H1' eq_refl), Rmult_1_l, sin_PI.
    unfold Vector3.multiplyScalar. cbn [Vector3.x Vector3.y Vector3.z]. f_equal; lra.
Qed.

Lemma createArc_heights_witness :
  let points :=
    Fibonacci.arcPoints
      (fst (Fibonacci.createArc Examples.alternating Examples.e1 Examples.e2 0.4 0%nat)) in
  Forall2 (fun t point =>
             Vector3.length point = 1 + 0.4 * sin (t * PI)
             /\ 1 <= Vector3.length point <= 1 + 0.4)
          (parameters 40) points
  /\ hd Vector3.zero points = Vector3.multiplyScalar Examples.e1 (1 / 1)
  /\ last points Vector3.zero = Vector3.multiplyScalar Examples.e2 (1 / 1).
Proof.
  apply (createArc_heights Examples.alternating Examples.e1 Examples.e2 1 0.4 0%nat).
  - lra.
  - exact length_e1.
  - exact length_e2.
  - rewrite dot_e1_e2. lra.
  - lra.
Defined.

(** ** The indices drawn at random *)

Lemma Math_floor_range (v : R) (n : Z) :
  0 <= v < IZR n -> (0 <= Math_floor v < n)%Z.
Proof.
  intros [H0 Hn]. unfold Math_floor. destruct (base_Int_part v) as [Hle Hgt]. split.
  - assert (H : (-1 < Int_part v)%Z) by (apply lt_IZR; lra). lia.
  - apply lt_IZR. lra.
Qed.

(** X20. Every index drawn at random is inside the node array: when
    [Math.random()] returns a number in [0, 1), the index of
    [Math.floor(Math.random() * length)] is below the length, in both
    variants, and the index of a neighbour candidate of node [i] in the
    Fibonacci variant is below 1200. *)
Theorem random_indices_in_range
  (random : nat -> R) (nodePositions : list Uniform.NodeData) (i c : nat) :
  0 <= random c < 1 ->
  nodePositions <> [] ->
  (i < Fibonacci.nodeCount)%nat ->
  (fst (Uniform.randomIndex random nodePositions c) < List.length nodePositions)%nat
  /\ (fst (Fibonacci.randomIndex random c) < Fibonacci.nodeCount)%nat
  /\ (fst (Fibonacci.neighbourIndex random i c) < Fibonacci.nodeCount)%nat.
Proof.
  intros Hu Hne Hi.
  assert (Hlen : (0 < List.length nodePositions)%nat)
    by (destruct nodePositions; [congruence | simpl; lia]).
  split; [| split].
  - unfold Uniform.randomIndex, bind, Uniform.Math_random, ret. cbn [fst].
    assert (Hpos : 0 < INR (List.length nodePositions)) by (apply lt_0_INR; exact Hlen).
    destruct (Math_floor_range (random c * INR (List.length nodePositions))
                               (Z.of_nat (List.length nodePositions))) as [H0 H1].
    { rewrite <- INR_IZR_INZ. nra. }
    lia.
  - unfold Fibonacci.randomIndex, bind, Fibonacci.Math_random, ret. cbn [fst].
    destruct (Math_floor_range (random c * INR Fibonacci.nodeCount)
                               (Z.of_nat Fibonacci.nodeCount)) as [H0 H1].
    { rewrite <- INR_IZR_INZ.
      assert (0 < INR Fibonacci.nodeCount) by (apply lt_0_INR; unfold Fibonacci.nodeCount; lia).
      nra. }
    lia.
  - unfold Fibonacci.neighbourIndex, bind, Fibonacci.Math_random, ret. cbn [fst].
    destruct (Math_floor_range (random c * 200) 200) as [H0 H1]; [lra |].
    unfold Fibonacci.nodeCount in *.
    rewrite Z.rem_mod_nonneg by lia.
    pose proof (Z.mod_pos_bound
                  (Z.of_nat i + Math_floor (random c * 200) - 100 + Z.of_nat 1200)
                  (Z.of_nat 1200) ltac:(lia)).
    lia.
Qed.

Lemma random_indices_in_range_witness :
  (fst (Uniform.randomIndex Examples.alternating Examples.chordNodes 1)
   < List.length Examples.chordNodes)%nat
  /\ (fst (Fibonacci.randomIndex Examples.alternating 1) < Fibonacci.nodeCount)%nat
  /\ (fst (Fibonacci.neighbourIndex Examples.alternating 7 1) < Fibonacci.nodeCount)%nat.
Proof.
  apply (random_indices_in_range Examples.alternating Examples.chordNodes 7 1).
  - unfold Examples.alternating. cbn [Nat.even]. lra.
  - discriminate.
  - unfold Fibonacci.nodeCount. lia.
Defined.

(** ** The pulses and the spin of the Fibonacci variant *)

Lemma fibonacci_animate_pulses (s : Fibonacci.Scene) :
  fibonacciPulsesInRange (Fibonacci.animate s).
Proof.
  unfold fibonacciPulsesInRange, Fibonacci.animate. cbv zeta.
  cbn [Fibonacci.arcLines Fibonacci.lineOpacity]. split.
  - apply Forall_map, Forall_forall. intros line _. unfold Fibonacci.pulseArc. cbv zeta.
    cbn [Fibonacci.arcOpacity].
    pose proof (SIN_bound ((Fibonacci.time s + 0.005) * 5 + Fibonacci.phase line)) as Hs.
    split; [apply Rmax_l |]. apply Rmax_lub; lra.
  - pose proof (SIN_bound ((Fibonacci.time s + 0.005) * 2)). lra.
Qed.

Lemma tryArc_opacity (random : nat -> R) (c : nat) :
  match fst (Fibonacci.tryArc random c) with
  | Some made => Fibonacci.arcOpacity (snd made) = 0
  | None => True
  end.
Proof.
  unfold Fibonacci.tryArc. rewrite !bind_eq.
  destruct (_ =? _)%nat; [exact I |]. cbv zeta.
  destruct (Rgt_dec _ 1.0); [| exact I].
  rewrite bind_eq. unfold ret. cbn [fst snd]. unfold Fibonacci.createArc. cbv zeta.
  rewrite !bind_eq. unfold ret. cbn [fst Fibonacci.arcOpacity]. lra.
Qed.

Lemma fibonacci_initEarth_pulses (random : nat -> R) (c : nat) :
  fibonacciPulsesInRange (fst (Fibonacci.initEarth random c)).
Proof.
  unfold fibonacciPulsesInRange, Fibonacci.initEarth. rewrite !bind_eq. unfold ret.
  cbn [fst Fibonacci.arcLines Fibonacci.lineOpacity]. split; [| lra].
  apply Forall_map. unfold Fibonacci.createArcs. rewrite bind_eq. unfold ret. cbn [fst].
  apply Forall_flat_map.
  eapply Forall_impl;
    [| apply (mapM_Forall
                (fun o => match o with
                          | Some made => Fibonacci.arcOpacity (snd made) = 0
                          | None => True
                          end)
                (fun _ : nat => Fibonacci.tryArc random));
       intros _ c'; apply tryArc_opacity].
  intros [made |] H; [| constructor]. constructor; [| constructor]. rewrite H. lra.
Qed.

(** X21. The pulses of the Fibonacci variant keep their ranges, from the
    build on and after every frame: the opacity of every arc lies in
    [0, 1], negative values of the sine being cut to 0, and the opacity
    of the network lines lies in [0.1, 0.2]. *)
Theorem fibonacci_pulses_in_range (random : nat -> R) (c n : nat) :
  let s := Fibonacci.frames n (fst (Fibonacci.initEarth random c)) in
  Forall (fun line => 0 <= Fibonacci.arcOpacity line <= 1) (Fibonacci.arcLines s)
  /\ 0.1 <= Fibonacci.lineOpacity s <= 0.2.
Proof.
  cbv zeta. destruct n as [| n].
  - exact (fibonacci_initEarth_pulses random c).
  - exact (fibonacci_animate_pulses _).
Qed.

Lemma fibonacci_frames_spin (n : nat) (s : Fibonacci.Scene) :
  Fibonacci.mouseX (Fibonacci.frames n s) = Fibonacci.mouseX s
  /\ Fibonacci.rotationY (Fibonacci.frames n s)
     = Fibonacci.rotationY s + INR n * (0.0008 + Fibonacci.mouseX s * 0.08).
Proof.
  induction n as [| n [IHm IHr]].
  - simpl. split; [reflexivity | lra].
  - cbn [Fibonacci.frames]. unfold Fibonacci.animate. cbv zeta.
    cbn [Fibonacci.mouseX Fibonacci.rotationY]. rewrite IHm, IHr, S_INR.
    split; [reflexivity | lra].
Qed.

(** X22. In the Fibonacci variant the horizontal pointer offset sets a
    speed, not an angle: after a [mousemove] at [clientX], [n] frames
    turn the globe by [n (0.0008 + 0.00008 (clientX - windowHalfX))]
    about the y axis (the numbers taken as exact reals), so it keeps
    turning while the pointer rests, and it stands still with the
    pointer 10 px left of the centre. *)
Theorem pointer_sets_spin_speed
  (clientX clientY windowHalfX windowHalfY : R) (n : nat) (s : Fibonacci.Scene) :
  let moved := Fibonacci.mousemove clientX clientY windowHalfX windowHalfY s in
  Fibonacci.rotationY (Fibonacci.frames n moved)
  = Fibonacci.rotationY s + INR n * (0.0008 + 0.00008 * (clientX - windowHalfX))
  /\ Fibonacci.rotationY
       (Fibonacci.frames n
          (Fibonacci.mousemove (windowHalfX - 10) clientY windowHalfX windowHalfY s))
     = Fibonacci.rotationY s.
Proof.
  cbv zeta. split.
  - destruct (fibonacci_frames_spin n
                (Fibonacci.mousemove clientX clientY windowHalfX windowHalfY s)) as [_ ->].
    unfold Fibonacci.mousemove. cbn [Fibonacci.rotationY Fibonacci.mouseX]. lra.
  - destruct (fibonacci_frames_spin n
                (Fibonacci.mousemove (windowHalfX - 10) clientY windowHalfX windowHalfY s))
      as [_ ->].
    unfold Fibonacci.mousemove. cbn [Fibonacci.rotationY Fibonacci.mouseX]. lra.
Qed.

(** ** The heights of the Fibonacci nodes *)

(** X24. The nodes of the Fibonacci variant are evenly spaced in height:
    node [i] lies at [z = 1.005 (2 i / 1200 - 1)], so the first node is
    the south pole [(0, 0, -1.005)] and each node is 0.001675 higher than
    the one before. *)
Theorem fibonacci_nodes_evenly_spaced (i : nat) :
  (i < Fibonacci.nodeCount)%nat ->
  Vector3.z (Fibonacci.nodePosition i) = 1.005 * (2 * INR i / 1200 - 1)
  /\ Vector3.z (Fibonacci.nodePosition (S i)) - Vector3.z (Fibonacci.nodePosition i)
     = 0.001675
  /\ Fibonacci.nodePosition 0 = Vector3.mk 0 0 (- 1.005).
Proof.
  intros Hi. unfold Fibonacci.nodeCount in Hi.
  assert (Hz : forall k, (k <= 1200)%nat ->
                         Vector3.z (Fibonacci.nodePosition k) = 1.005 * (2 * INR k / 1200 - 1)).
  { intros k Hk. unfold Fibonacci.nodePosition, Fibonacci.nodeCount. cbv zeta.
    cbn [Vector3.z].
    replace (INR 1200) with 1200 by (rewrite INR_IZR_INZ; reflexivity).
    assert (Hk' : 0 <= INR k <= 1200).
    { split; [apply pos_INR |].
      replace 1200 with (INR 1200) by (rewrite INR_IZR_INZ; reflexivity).
      apply le_INR. exact Hk. }
    rewrite cos_acos by lra. lra. }
  split; [apply Hz; lia |]. split.
  - rewrite !Hz by lia. rewrite S_INR. lra.
  - unfold Fibonacci.nodePosition, Fibonacci.nodeCount. cbv zeta.
    replace (-1 + 2 * INR 0 / INR 1200) with (- (1))
      by (rewrite !INR_IZR_INZ; simpl; field).
    rewrite acos_opp, acos_1, Rminus_0_r, sin_PI, cos_PI. f_equal; lra.
Qed.

Lemma fibonacci_nodes_evenly_spaced_witness :
  Vector3.z (Fibonacci.nodePosition 600) = 1.005 * (2 * INR 600 / 1200 - 1)
  /\ Vector3.z (Fibonacci.nodePosition 601) - Vector3.z (Fibonacci.nodePosition 600)
     = 0.001675
  /\ Fibonacci.nodePosition 0 = Vector3.mk 0 0 (- 1.005).
Proof.
  apply (fibonacci_nodes_evenly_spaced 600). unfold Fibonacci.nodeCount. lia.
Defined.

(** ** What the build of the uniform-random variant produces *)

Lemma mapM_length {A B} (f : A -> Gen B) (l : list A) :
  forall c, List.length (fst (mapM f l c)) = List.length l.
Proof.
  induction l as [| a l IH]; intros c; [reflexivity |].
  cbn [mapM]. rewrite !bind_eq. unfold ret. cbn [fst List.length]. rewrite IH. reflexivity.
Qed.

Lemma uniform_animate_counts (s : Uniform.Scene) :
  List.length (Uniform.positions (Uniform.animate s)) = List.length (Uniform.positions s)
  /\ List.length (Uniform.instances (Uniform.animate s)) = List.length (Uniform.positions s)
  /\ List.length (Uniform.satellites (Uniform.animate s))
     = List.length (Uniform.satellites s)
  /\ List.length (Uniform.connections (Uniform.animate s))
     = List.length (Uniform.connections s)
  /\ List.length (Uniform.flowLines (Uniform.animate s))
     = List.length (Uniform.flowLines s).
Proof.
  unfold Uniform.animate. cbv zeta.
  cbn [Uniform.positions Uniform.instances Uniform.satellites Uniform.connections
       Uniform.flowLines].
  repeat split.
  - apply length_map.
  - destruct (_ =? _)%nat; [apply length_map | reflexivity].
  - destruct (S (Uniform.frameCount s) mod 3 =? 0)%nat;
      destruct (S (Uniform.frameCount s) mod 2 =? 0)%nat;
      rewrite ?length_map; reflexivity.
  - destruct (_ =? _)%nat; [apply length_map | reflexivity].
Qed.

(** X25. What the build of the uniform-random variant produces, and
    every frame keeps: 600 nodes with one instance each, 9 satellite dots
    (4 on the first ring, 5 on the second), 15 flow lines, and between 20
    and 820 connections, the 20 long arcs coming on top of at most 800
    short lines. *)
Theorem uniform_scene_counts (random : nat -> R) (c n : nat) :
  let s := Uniform.frames (S n) (fst (Uniform.initEarth random c)) in
  List.length (Uniform.positions s) = 600%nat
  /\ List.length (Uniform.instances s) = 600%nat
  /\ List.length (Uniform.satellites s) = 9%nat
  /\ (20 <= List.length (Uniform.connections s) <= 820)%nat
  /\ List.length (Uniform.flowLines s) = 15%nat.
Proof.
  cbv zeta.
  assert (Hinit : let s := fst (Uniform.initEarth random c) in
                  List.length (Uniform.positions s) = 600%nat
                  /\ List.length (Uniform.satellites s) = 9%nat
                  /\ (20 <= List.length (Uniform.connections s) <= 820)%nat
                  /\ List.length (Uniform.flowLines s) = 15%nat).
  { cbv zeta. unfold Uniform.initEarth. rewrite !bind_eq. unfold ret.
    cbn [fst Uniform.positions Uniform.satellites Uniform.connections Uniform.flowLines].
    split; [| split; [| split]].
    - unfold Uniform.createNodes. rewrite mapM_length. reflexivity.
    - unfold Uniform.ringCount. cbn [seq mapM]. rewrite !bind_eq. unfold ret.
      cbn [fst List.concat]. rewrite !length_app. unfold Uniform.createRing. cbv zeta.
      rewrite !mapM_length. reflexivity.
    - rewrite length_app, length_map. unfold Uniform.createLongArcs.
      rewrite mapM_length.
      destruct (createConnections_inv random (fst (Uniform.createNodes random c))
                  (snd (Uniform.createNodes random c))) as (Hlen & Hcap & _).
      rewrite Hlen. change (List.length (seq 0 Uniform.longArcCount)) with 20%nat. lia.
    - rewrite mapM_length. reflexivity. }
  cbv zeta in Hinit. destruct Hinit as (Hp & Hs & Hc & Hf).
  assert (Hframes : forall k,
             let s := Uniform.frames k (fst (Uniform.initEarth random c)) in
             List.length (Uniform.positions s) = 600%nat
             /\ List.length (Uniform.satellites s) = 9%nat
             /\ (20 <= List.length (Uniform.connections s) <= 820)%nat
             /\ List.length (Uniform.flowLines s) = 15%nat).
  { induction k as [| k IH];
      [cbv zeta; cbn [Uniform.frames]; repeat split; try assumption; lia |].
    cbv zeta in IH |- *. cbn [Uniform.frames].
    destruct (uniform_animate_counts
                (Uniform.frames k (fst (Uniform.initEarth random c))))
      as (H1 & _ & H3 & H4 & H5).
    rewrite H1, H3, H4, H5. exact IH. }
  cbn [Uniform.frames].
  destruct (uniform_animate_counts (Uniform.frames n (fst (Uniform.initEarth random c))))
    as (H1 & H2 & H3 & H4 & H5).
  destruct (Hframes n) as (Hp' & Hs' & Hc' & Hf').
  rewrite H1, H2, H3, H4, H5. repeat split; try assumption; lia.
Qed.

(** ** No line of the Fibonacci network joins a node to itself *)

Lemma fibonacci_node_height (k : nat) :
  (k <= 1200)%nat ->
  Vector3.z (Fibonacci.nodePosition k) = 1.005 * (2 * INR k / 1200 - 1).
Proof.
  intros Hk. unfold Fibonacci.nodePosition, Fibonacci.nodeCount. cbv zeta.
  cbn [Vector3.z].
  replace (INR 1200) with 1200 by (rewrite INR_IZR_INZ; reflexivity).
  assert (Hk' : 0 <= INR k <= 1200).
  { split; [apply pos_INR |].
    replace 1200 with (INR 1200) by (rewrite INR_IZR_INZ; reflexivity).
    apply le_INR. exact Hk. }
  rewrite cos_acos by lra. lra.
Qed.

Lemma positionOf_nodePosition (i : nat) :
  (i < 1200)%nat -> Fibonacci.positionOf i = Fibonacci.nodePosition i.
Proof.
  intros Hi. unfold Fibonacci.positionOf, Fibonacci.nodePositions, Fibonacci.nodeCount.
  rewrite (nth_indep _ Vector3.zero (Fibonacci.nodePosition 0))
    by (rewrite length_map, length_seq; exact Hi).
  rewrite (map_nth Fibonacci.nodePosition), seq_nth by exact Hi. reflexivity.
Qed.

Lemma positionOf_distinct (i j : nat) :
  (i < 1200)%nat -> (j < 1200)%nat -> i <> j ->
  Fibonacci.positionOf i <> Fibonacci.positionOf j.
Proof.
  intros Hi Hj Hne Heq. rewrite !positionOf_nodePosition in Heq by assumption.
  apply (f_equal Vector3.z) in Heq. rewrite !fibonacci_node_height in Heq by lia.
  apply Hne, INR_eq. lra.
Qed.

Section FibonacciDistinct.

Variable random : nat -> R.

Lemma neighbourIndex_bound (i c : nat) :
  (fst (Fibonacci.neighbourIndex random i c) < 1200)%nat.
Proof.
  unfold Fibonacci.neighbourIndex, bind, Fibonacci.Math_random, ret, Fibonacci.nodeCount.
  cbn [fst].
  pose proof (Z.rem_bound_abs
                (Z.of_nat i + Math_floor (random c * 200) - 100 + Z.of_nat 1200)
                (Z.of_nat 1200) ltac:(lia)) as H.
  lia.
Qed.

Lemma sampleNeighbours_distinct (i turns : nat) :
  (i < 1200)%nat ->
  forall (segs : list (vec3 * vec3)) (n c : nat),
    Forall (fun s => fst s <> snd s) segs ->
    exists segs' : list (vec3 * vec3),
      fst (fst (Fibonacci.sampleNeighbours random turns i (Fibonacci.vertices segs, n) c))
      = Fibonacci.vertices segs'
      /\ Forall (fun s => fst s <> snd s) segs'.
Proof.
  intros Hi. induction turns as [| turns IH]; intros segs n c Hall.
  - exists segs. split; [reflexivity | exact Hall].
  - cbn [Fibonacci.sampleNeighbours]. rewrite bind_eq.
    pose proof (neighbourIndex_bound i c) as Hidx.
    destruct (Nat.eqb_spec i (fst (Fibonacci.neighbourIndex random i c))) as [_ | Hne];
      [apply IH; exact Hall |].
    cbv zeta.
    set (idx := fst (Fibonacci.neighbourIndex random i c)) in *.
    assert (Hsegs : Forall (fun s => fst s <> snd s)
                           (segs ++ [(Fibonacci.positionOf i, Fibonacci.positionOf idx)])).
    { apply Forall_app. split; [exact Hall |]. constructor; [| constructor].
      cbn [fst snd]. apply positionOf_distinct; assumption. }
    destruct (Rlt_dec _ 0.35); cbn [fst snd].
    + replace (Fibonacci.vertices segs
               ++ [Fibonacci.positionOf i; Fibonacci.positionOf idx])
        with (Fibonacci.vertices
                (segs ++ [(Fibonacci.positionOf i, Fibonacci.positionOf idx)]))
        by (rewrite vertices_app; reflexivity).
      destruct (4 <? S n)%nat.
      * eexists. split; [reflexivity | exact Hsegs].
      * apply IH. exact Hsegs.
    + destruct (4 <? n)%nat.
      * exists segs. split; [reflexivity | exact Hall].
      * apply IH. exact Hall.
Qed.

Lemma connectNodes_distinct (idxs : list nat) :
  Forall (fun i => (i < 1200)%nat) idxs ->
  forall (segs : list (vec3 * vec3)) (c : nat),
    Forall (fun s => fst s <> snd s) segs ->
    exists segs' : list (vec3 * vec3),
      fst (Fibonacci.connectNodes random idxs (Fibonacci.vertices segs) c)
      = Fibonacci.vertices segs'
      /\ Forall (fun s => fst s <> snd s) segs'.
Proof.
  induction 1 as [| i idxs Hi _ IH]; intros segs c Hall.
  - exists segs. split; [reflexivity | exact Hall].
  - cbn [Fibonacci.connectNodes]. rewrite bind_eq.
    assert (Hc : fst (Fibonacci.connectNode random i (Fibonacci.vertices segs) c)
                 = fst (fst (Fibonacci.sampleNeighbours random 30 i
                               (Fibonacci.vertices segs, 0%nat) c))).
    { unfold Fibonacci.connectNode, bind, ret.
      destruct (Fibonacci.sampleNeighbours random 30 i (Fibonacci.vertices segs, 0%nat) c).
      reflexivity. }
    rewrite Hc.
    destruct (sampleNeighbours_distinct i 30 Hi segs 0 c Hall) as (segs1 & Heq1 & H1).
    rewrite Heq1. apply IH. exact H1.
Qed.

End FibonacciDistinct.

(** X26. No line of the Fibonacci network joins a node to itself: the
    vertex array that the connection loops build is a sequence of whole
    segments, and the two ends of every segment are different points of
    the sphere, whatever [Math.random()] returns. *)
Theorem fibonacci_lines_join_distinct_nodes (random : nat -> R) (c : nat) :
  exists segs : list (vec3 * vec3),
    fst (Fibonacci.createLines random c) = Fibonacci.vertices segs
    /\ Forall (fun s => fst s <> snd s /\ 0 < Vector3.distanceTo (fst s) (snd s)) segs.
Proof.
  unfold Fibonacci.createLines.
  destruct (connectNodes_distinct random (seq 0 Fibonacci.nodeCount)) with (segs := @nil (vec3 * vec3)) (c := c)
    as (segs & Heq & Hall).
  - apply Forall_forall. intros i Hin. apply in_seq in Hin.
    unfold Fibonacci.nodeCount in Hin. lia.
  - constructor.
  - exists segs. split; [exact Heq |].
    eapply Forall_impl; [| exact Hall]. intros [p q] Hne. cbn [fst snd] in *.
    split; [exact Hne |].
    unfold Vector3.distanceTo. apply sqrt_lt_R0.
    pose proof (distanceToSquared_nonneg p q) as Hnn.
    destruct (Req_dec (Vector3.distanceToSquared p q) 0) as [Hz | Hnz]; [| lra].
    exfalso. apply Hne. destruct p as [px py pz], q as [qx qy qz].
    unfold Vector3.distanceToSquared in Hz. cbn [Vector3.x Vector3.y Vector3.z] in Hz.
    cbv zeta in Hz.
    assert (px - qx = 0 /\ py - qy = 0 /\ pz - qz = 0) as (Hx & Hy & Hz').
    { pose proof (Rle_0_sqr (px - qx)). pose proof (Rle_0_sqr (py - qy)).
      pose proof (Rle_0_sqr (pz - qz)). unfold Rsqr in *.
      repeat split; apply Rsqr_0_uniq; unfold Rsqr; lra. }
    f_equal; lra.
Qed.
